(** * Screenshot-test infrastructure of material-components-web

    A shallow embedding of the two library files of the screenshot test
    runner,

    - [test/screenshot/lib/image-differ.js] (class [ImageDiffer]) and
    - [test/screenshot/lib/cbt-api.js] (class [CbtApi]),

    together with the pieces of the JavaScript runtime they run on: IEEE-754
    binary64 numbers, [Number(string)], regular expressions with
    [String.prototype.replace], and [Array.prototype.sort], which is an
    interface: the language fixes what an engine may return, not how.

    JavaScript numbers are the binary64 instance of the Standard Library's
    [SpecFloat]; strings are sequences of 8-bit code units (the Latin-1 part of
    JavaScript's UTF-16 strings); objects used as dictionaries are [gmap]s and
    the set of API names is a [gset]. *)

From Stdlib Require Import ZArith Lia List Ascii String Bool.
From Stdlib Require Import Floats.SpecFloat.
From stdpp Require Import gmap strings list.

(** The characters of a string, as the list the matchers below walk over. *)
Definition chars (s : string) : list ascii := list_ascii_of_string s.

(* ===================================================================== *)
(** * JavaScript numbers *)
(* ===================================================================== *)

Module Js.

(** A Number is an IEEE-754 binary64 value: 53 bits of precision, infinities
    at exponent 1024. *)
Definition number : Type := spec_float.
Definition prec : Z := 53.
Definition emax : Z := 1024.

Definition NaN : number := S754_nan.
Definition pzero : number := S754_zero false.
Definition Infinity : number := S754_infinity false.

(** The Number nearest to an integer (ties to even). *)
Definition of_Z (z : Z) : number := binary_normalize prec emax z 0 false.

(** [x - y], [x * y], [x / y] and unary minus. *)
Definition sub (x y : number) : number := SFsub prec emax x y.
Definition mul (x y : number) : number := SFmul prec emax x y.
Definition div (x y : number) : number := SFdiv prec emax x y.
Definition neg (x : number) : number := SFopp x.

(** [ToBoolean]: zero of either sign and NaN are falsy. *)
Definition truthy (x : number) : bool :=
  match x with
  | S754_zero _ | S754_nan => false
  | _ => true
  end.

(** [x || y] on numbers. *)
Definition or (x y : number) : number := if truthy x then x else y.

(** The relational operators; every comparison with NaN is false, and the
    two zeros are equal. *)
Definition strict_eq (x y : number) : bool :=
  match SFcompare x y with Some Eq => true | _ => false end.
Definition strict_ne (x y : number) : bool := negb (strict_eq x y).
Definition lt (x y : number) : bool :=
  match SFcompare x y with Some Lt => true | _ => false end.
Definition gt (x y : number) : bool :=
  match SFcompare x y with Some Gt => true | _ => false end.
Definition ge (x y : number) : bool :=
  match SFcompare x y with Some (Eq | Gt) => true | _ => false end.

Definition is_nan (x : number) : bool :=
  match x with S754_nan => true | _ => false end.

(** [isFinite(x)]. *)
Definition is_finite (x : number) : bool :=
  match x with S754_zero _ | S754_finite _ _ _ => true | _ => false end.

Definition is_zero (x : number) : bool :=
  match x with S754_zero _ => true | _ => false end.

(** A Number is integral when its value [m * 2^e] has no fractional bit. *)
Definition is_integer (x : number) : bool :=
  match x with
  | S754_zero _ => true
  | S754_finite _ m e =>
      (0 <=? e)%Z || (Z.pos m mod 2 ^ (- e) =? 0)%Z
  | _ => false
  end.

(** ** [Number(string)] (ECMAScript [StringToNumber]) *)

(** [StrWhiteSpaceChar], restricted to 8-bit code units: TAB, LF, VT, FF, CR,
    SP and NBSP. *)
Definition is_ws (c : ascii) : bool :=
  let n := nat_of_ascii c in
  ((9 <=? n) && (n <=? 13)) || (n =? 32) || (n =? 160).

Fixpoint drop_ws (l : list ascii) : list ascii :=
  match l with
  | c :: l' => if is_ws c then drop_ws l' else l
  | [] => []
  end.

Definition trim (s : list ascii) : list ascii :=
  rev (drop_ws (rev (drop_ws s))).

(** The value of a digit in a radix up to 16, [None] for any other
    character. *)
Definition digit_value (radix : Z) (c : ascii) : option Z :=
  let n := Z.of_nat (nat_of_ascii c) in
  let v :=
    if (48 <=? n)%Z && (n <=? 57)%Z then Some (n - 48)%Z
    else if (97 <=? n)%Z && (n <=? 102)%Z then Some (n - 87)%Z
    else if (65 <=? n)%Z && (n <=? 70)%Z then Some (n - 55)%Z
    else None in
  match v with
  | Some d => if (d <? radix)%Z then Some d else None
  | None => None
  end.

(** The mathematical value of a non-empty run of digits; [None] when the
    run is empty or holds a character that is no digit of the radix. *)
Fixpoint digits_from (radix acc : Z) (s : list ascii) : option Z :=
  match s with
  | [] => Some acc
  | c :: s' =>
      match digit_value radix c with
      | Some d => digits_from radix (radix * acc + d)%Z s'
      | None => None
      end
  end.

Definition digits (radix : Z) (s : list ascii) : option Z :=
  match s with
  | [] => None
  | _ => digits_from radix 0 s
  end.

(** The text before the first character satisfying [p], and what follows that
    character ([None] when no character does). *)
Fixpoint break_at (p : ascii -> bool) (s : list ascii)
  : list ascii * option (list ascii) :=
  match s with
  | [] => ([], None)
  | c :: s' =>
      if p c then ([], Some s')
      else let '(a, b) := break_at p s' in (c :: a, b)
  end.

Definition is_char (c : ascii) : ascii -> bool := fun d => Ascii.eqb c d.

(** The Number value of the non-negative decimal [m * 10^k]: the nearest
    binary64, ties to even, infinite on overflow. *)
Definition of_decimal (m k : Z) : number :=
  if (m =? 0)%Z then pzero
  else if (0 <=? k)%Z then of_Z (m * 10 ^ k)
  else
    let '(q, e, l) := SFdiv_core_binary prec emax m 0 (10 ^ (- k)) 0 in
    binary_round_aux prec emax false q e l.

(** [ExponentPart] without its letter: an optional sign and decimal digits. *)
Definition exponent_part (s : list ascii) : option Z :=
  match s with
  | "+"%char :: s' => digits 10 s'
  | "-"%char :: s' => option_map Z.opp (digits 10 s')
  | _ => digits 10 s
  end.

(** [StrUnsignedDecimalLiteral]: [Infinity], or decimal digits with an
    optional fraction and an optional exponent part. *)
Definition unsigned_decimal (s : list ascii) : option number :=
  if decide (s = chars "Infinity") then Some Infinity
  else
    let '(mant, ex) := break_at (fun c => is_char "e" c || is_char "E" c) s in
    let '(ip, fr) := break_at (is_char ".") mant in
    let fp := match fr with Some f => f | None => [] end in
    match ip, fp with
    | [], [] => None
    | _, _ =>
        match digits_from 10 0 (ip ++ fp) with
        | None => None
        | Some m =>
            match ex with
            | None => Some (of_decimal m (- Z.of_nat (length fp)))
            | Some e =>
                match exponent_part e with
                | Some k => Some (of_decimal m (k - Z.of_nat (length fp)))
                | None => None
                end
            end
        end
    end.

(** [StrNumericLiteral]: a binary, octal or hexadecimal integer (unsigned), or
    a signed decimal literal. *)
Definition numeric_literal (s : list ascii) : option number :=
  match s with
  | "0"%char :: x :: s' =>
      if is_char "x" x || is_char "X" x then option_map of_Z (digits 16 s')
      else if is_char "o" x || is_char "O" x then option_map of_Z (digits 8 s')
      else if is_char "b" x || is_char "B" x then option_map of_Z (digits 2 s')
      else unsigned_decimal s
  | "+"%char :: s' => unsigned_decimal s'
  | "-"%char :: s' => option_map neg (unsigned_decimal s')
  | _ => unsigned_decimal s
  end.

(** [Number(s)] for a string [s]: white space is trimmed, the empty string
    is [+0], and anything that is not a numeric literal is [NaN]. *)
Definition Number (s : list ascii) : number :=
  match trim s with
  | [] => pzero
  | t => match numeric_literal t with Some x => x | None => NaN end
  end.

End Js.

(* ===================================================================== *)
(** * Regular expressions and [String.prototype.replace] *)
(* ===================================================================== *)

Module Regex.

(** The pattern syntax the two files use: literal characters, [\d], the
    assertions [^] and [$], concatenation, ordered alternation and the greedy
    quantifiers [?] and [+]. *)
Inductive regex : Type :=
| Eps
| Chr (c : ascii)
| Dig
| Bol
| Eol
| Seq (r1 r2 : regex)
| Alt (r1 r2 : regex)
| Opt (r : regex)
| Plus (r : regex).

(** A literal run of characters. *)
Fixpoint Lit (l : list ascii) : regex :=
  match l with
  | [] => Eps
  | c :: l' => Seq (Chr c) (Lit l')
  end.

(** [Canonicalize] under the [i] flag. The patterns hold ASCII characters
    only, and an ASCII character is canonically equal to just its two cases:
    a code unit from 128 up never canonicalizes to one below 128. *)
Definition canon (c : ascii) : ascii :=
  let n := nat_of_ascii c in
  if (97 <=? n) && (n <=? 122) then ascii_of_nat (n - 32) else c.

Definition char_eq (ic : bool) (c d : ascii) : bool :=
  if ic then Ascii.eqb (canon c) (canon d) else Ascii.eqb c d.

Definition is_digit (c : ascii) : bool :=
  let n := nat_of_ascii c in (48 <=? n) && (n <=? 57).

(** A match state is the index reached and the input left from there; a
    continuation decides what follows, and its failing makes the matcher
    backtrack. *)
Definition cont : Type := nat -> list ascii -> option (nat * list ascii).

(** [RepeatMatcher] with no lower and no upper bound, greedy: as many more
    rounds of the matcher [m] as succeed, then the continuation [k]. A round
    that consumes nothing fails (step 2.b). Each round consumes a character,
    so the length of the input is fuel enough. *)
Fixpoint more (m : nat -> list ascii -> cont -> option (nat * list ascii))
  (k : cont) (fuel : nat) (j : nat) (t : list ascii)
  : option (nat * list ascii) :=
  match fuel with
  | O => k j t
  | S fuel' =>
      match m j t (fun j' t' => if j' =? j then None else more m k fuel' j' t') with
      | Some x => Some x
      | None => k j t
      end
  end.

(** The backtracking matcher of the ECMAScript pattern semantics. *)
Fixpoint run (ic : bool) (r : regex) (i : nat) (s : list ascii) (k : cont)
  {struct r} : option (nat * list ascii) :=
  match r with
  | Eps => k i s
  | Chr c =>
      match s with
      | d :: s' => if char_eq ic c d then k (S i) s' else None
      | [] => None
      end
  | Dig =>
      match s with
      | d :: s' => if is_digit d then k (S i) s' else None
      | [] => None
      end
  | Bol => if i =? 0 then k i s else None
  | Eol => match s with [] => k i s | _ :: _ => None end
  | Seq r1 r2 => run ic r1 i s (fun j t => run ic r2 j t k)
  | Alt r1 r2 =>
      match run ic r1 i s k with
      | Some x => Some x
      | None => run ic r2 i s k
      end
  | Opt r1 =>
      match run ic r1 i s (fun j t => if j =? i then None else k j t) with
      | Some x => Some x
      | None => k i s
      end
  | Plus r1 =>
      run ic r1 i s (fun j t => more (run ic r1) k (length t) j t)
  end.

(** [RegExpBuiltinExec] without the sticky flag: the first index from [i] on
    at which the pattern matches, with the end of the match and the input
    after it. [s] is the input from index [i]. *)
Fixpoint exec (ic : bool) (r : regex) (i : nat) (s : list ascii)
  : option (nat * nat * list ascii) :=
  match run ic r i s (fun j t => Some (j, t)) with
  | Some (j, t) => Some (i, j, t)
  | None =>
      match s with
      | [] => None
      | _ :: s' => exec ic r (S i) s'
      end
  end.

(** [s.replace(/r/, repl)] and [s.replace(/r/i, repl)]: the first match is
    replaced. The replacement texts of the two files hold no [$]. *)
Definition replace (ic : bool) (r : regex) (repl s : list ascii) : list ascii :=
  match exec ic r 0 s with
  | Some (a, _, t) => take a s ++ repl ++ t
  | None => s
  end.

(** [s.replace(/r/g, repl)]: every match is replaced; the search resumes at
    the end of the previous match, one character further after an empty
    match. [s] is the input from index [i]. *)
Fixpoint replace_from (fuel : nat) (ic : bool) (r : regex) (repl : list ascii)
  (i : nat) (s : list ascii) : list ascii :=
  match fuel with
  | O => s
  | S fuel' =>
      match exec ic r i s with
      | None => s
      | Some (a, b, t) =>
          take (a - i) s ++ repl ++
          (if b =? a then
             match t with
             | [] => []
             | c :: t' => c :: replace_from fuel' ic r repl (S b) t'
             end
           else replace_from fuel' ic r repl b t)
      end
  end.

Definition replace_all (ic : bool) (r : regex) (repl s : list ascii)
  : list ascii :=
  replace_from (S (length s)) ic r repl 0 s.

(** [s.split(sep)] for a one-character separator. *)
Fixpoint split (sep : ascii) (s : list ascii) : list (list ascii) :=
  match s with
  | [] => [[]]
  | c :: s' =>
      if Ascii.eqb c sep then [] :: split sep s'
      else
        match split sep s' with
        | w :: ws => (c :: w) :: ws
        | [] => [[c]]
        end
  end.

End Regex.


(* ===================================================================== *)
(** * Arrays *)
(* ===================================================================== *)

Module JsArray.

(** [arr.forEach((x, idx) => body)], threading the state [body] updates. *)
Fixpoint forEach {A St : Type} (body : St -> A -> nat -> St)
  (arr : list A) (idx : nat) (st : St) : St :=
  match arr with
  | [] => st
  | x :: arr' => forEach body arr' (S idx) (body st x idx)
  end.

(** [arr.map((x, idx) => f x idx)]. *)
Fixpoint mapi {A B : Type} (f : A -> nat -> B) (arr : list A) (idx : nat)
  : list B :=
  match arr with
  | [] => []
  | x :: arr' => f x idx :: mapi f arr' (S idx)
  end.

(** [arr.every((x, idx) => p x idx)]. *)
Fixpoint every {A : Type} (p : A -> nat -> bool) (arr : list A) (idx : nat)
  : bool :=
  match arr with
  | [] => true
  | x :: arr' => p x idx && every p arr' (S idx)
  end.

(** [SortCompare]: a comparator result that is NaN counts as [+0]. *)
Definition sort_value (v : Js.number) : Js.number :=
  if Js.is_nan v then Js.pzero else v.

(** One step of the insertion sort: [x] moves left past every element [t]
    with [comparefn(t, x) > 0]. The sorted part is held last element first. *)
Fixpoint insert {A : Type} (comparefn : A -> A -> Js.number) (x : A)
  (sorted_rev : list A) : list A :=
  match sorted_rev with
  | [] => [x]
  | t :: rest =>
      if Js.gt (sort_value (comparefn t x)) Js.pzero
      then t :: insert comparefn x rest
      else x :: sorted_rev
  end.

(** The stable insertion sort: every element in turn moves left past the
    elements the comparator puts above it. *)
Definition insertionSort {A : Type} (comparefn : A -> A -> Js.number)
  (arr : list A) : list A :=
  rev (fold_left (fun sorted_rev x => insert comparefn x sorted_rev) arr []).

(** [a <CF b], [a =CF b] and [a >CF b] of the language specification:
    [comparefn(a, b)] is below zero, is zero (of either sign), is above
    zero. *)
Definition ltCF {A : Type} (comparefn : A -> A -> Js.number) (a b : A) : Prop :=
  Js.lt (comparefn a b) Js.pzero = true.
Definition eqCF {A : Type} (comparefn : A -> A -> Js.number) (a b : A) : Prop :=
  Js.strict_eq (comparefn a b) Js.pzero = true.
Definition gtCF {A : Type} (comparefn : A -> A -> Js.number) (a b : A) : Prop :=
  Js.gt (comparefn a b) Js.pzero = true.

(** A consistent comparison function for the values [values], as the
    language specification defines it. The comparators of this file are
    pure: a call returns the same value every time and modifies nothing. *)
Record consistent {A : Type} (comparefn : A -> A -> Js.number)
  (values : list A) : Prop := {
  consistent_number : forall a b,
    a ∈ values -> b ∈ values -> Js.is_nan (comparefn a b) = false;
  consistent_refl : forall a, a ∈ values -> eqCF comparefn a a;
  consistent_sym : forall a b,
    a ∈ values -> b ∈ values -> eqCF comparefn a b -> eqCF comparefn b a;
  consistent_eq_trans : forall a b c,
    a ∈ values -> b ∈ values -> c ∈ values ->
    eqCF comparefn a b -> eqCF comparefn b c -> eqCF comparefn a c;
  consistent_lt_trans : forall a b c,
    a ∈ values -> b ∈ values -> c ∈ values ->
    ltCF comparefn a b -> ltCF comparefn b c -> ltCF comparefn a c;
  consistent_gt_trans : forall a b c,
    a ∈ values -> b ∈ values -> c ∈ values ->
    gtCF comparefn a b -> gtCF comparefn b c -> gtCF comparefn a c
}.

(** [Array.prototype.sort] of an engine. The language prescribes the order
    of the result for a consistent comparator only: no element is below
    one that stands before it. For any other comparator the order is
    implementation-defined; the engine still rearranges the elements it was
    given. *)
Record Engine : Type := {
  sort : forall A : Type, (A -> A -> Js.number) -> list A -> list A;
  sort_permutation :
    forall (A : Type) (comparefn : A -> A -> Js.number) (arr : list A),
      sort A comparefn arr ≡ₚ arr;
  sort_ascending :
    forall (A : Type) (comparefn : A -> A -> Js.number) (arr : list A),
      consistent comparefn arr ->
      forall i j x y, i < j ->
        sort A comparefn arr !! i = Some x ->
        sort A comparefn arr !! j = Some y ->
        Js.lt (comparefn y x) Js.pzero = false
}.
Arguments sort _ {A} _ _.

End JsArray.

(* ===================================================================== *)
(** * cbt-api.js: resolving a user agent to a CBT device and browser *)
(* ===================================================================== *)

Module CbtApi.
Import Regex.

(** The enumerations of [mdc.proto.UserAgent], with the members the file
    names. A field of a message can hold a value that is none of them: the
    last member of the first three enumerations stands for every such
    value, and [LATEST] for every version type that is neither [EXACT] nor
    [PREVIOUS], which the code handles alike, in its last branch. *)
Inductive FormFactorType : Set := DESKTOP | MOBILE | OTHER_FORM_FACTOR.
Inductive OsVendorType : Set := ANDROID | IOS | MAC | WINDOWS | OTHER_OS_VENDOR.
Inductive BrowserVendorType : Set :=
  CHROME | EDGE | FIREFOX | IE | SAFARI | OTHER_BROWSER_VENDOR.
Inductive BrowserVersionType : Set := EXACT | PREVIOUS | LATEST.

Record UserAgent : Type := {
  form_factor_type : FormFactorType;
  os_vendor_type : OsVendorType;
  browser_vendor_type : BrowserVendorType;
  browser_version_type : BrowserVersionType;
  browser_version_value : string
}.

(** [mdc.proto.cbt.CbtBrowser] and [mdc.proto.cbt.CbtDevice]: the fields
    resolution reads ([caps] is passed through to the web driver untouched). *)
Record CbtBrowser : Type := {
  br_api_name : string;
  br_type : string;
  br_version : string
}.

Record CbtDevice : Type := {
  dev_device : string;
  dev_type : string;
  dev_version : string;
  dev_sort_order : Js.number;
  dev_browsers : list CbtBrowser
}.

(** The [{device, browser}] objects of [matchingCbtUserAgents]. *)
Record CbtUserAgent : Type := {
  device : CbtDevice;
  browser : CbtBrowser
}.

(** The three lookup tables, read at a key: [None] is [undefined], the
    value of a key the table does not have. *)
Definition formFactorMap (t : FormFactorType) : option (list string) :=
  match t with
  | DESKTOP => Some ["desktop"%string]
  | MOBILE => Some ["mobile"%string]
  | OTHER_FORM_FACTOR => None
  end.

Definition osVendorMap (t : OsVendorType) : option (list string) :=
  match t with
  | ANDROID => Some ["Android"%string]
  | IOS => Some ["iPhone"%string; "iPad"%string]
  | MAC => Some ["Mac"%string]
  | WINDOWS => Some ["Windows"%string]
  | OTHER_OS_VENDOR => None
  end.

Definition browserVendorMap (t : BrowserVendorType) : option (list string) :=
  match t with
  | CHROME => Some ["Chrome"%string; "Chrome Mobile"%string]
  | EDGE => Some ["Microsoft Edge"%string]
  | FIREFOX => Some ["Firefox"%string]
  | IE => Some ["Internet Explorer"%string]
  | SAFARI => Some ["Safari"%string; "Mobile Safari"%string]
  | OTHER_BROWSER_VENDOR => None
  end.

(** [arr.includes(x)] on strings. On [undefined] the call throws a
    TypeError: the result is [None]. *)
Definition includes (arr : option (list string)) (x : string) : option bool :=
  match arr with
  | Some l => Some (bool_decide (x ∈ l))
  | None => None
  end.

(** [a && b] on booleans that may throw: [b] is evaluated only when [a] is
    true. *)
Definition andAlso (a b : option bool) : option bool :=
  match a with
  | Some true => b
  | Some false => Some false
  | None => None
  end.

(** The first pair of loops: the API names of every browser of every
    device. *)
Definition allBrowserApiNames (allCbtDevices : list CbtDevice) : gset string :=
  fold_left
    (fun names cbtDevice =>
       fold_left (fun names cbtBrowser => names ∪ {[ br_api_name cbtBrowser ]})
                 (dev_browsers cbtDevice) names)
    allCbtDevices ∅.

(** The second pair of loops: the candidates, in catalog order; [None] when
    an [includes] throws, which ends the loops. *)
Definition matchingCbtUserAgents (userAgent : UserAgent)
  (allCbtDevices : list CbtDevice) : option (list CbtUserAgent) :=
  let requiredFormFactors := formFactorMap (form_factor_type userAgent) in
  let requiredOsVendors := osVendorMap (os_vendor_type userAgent) in
  let requiredBrowserVendors := browserVendorMap (browser_vendor_type userAgent) in
  let names := allBrowserApiNames allCbtDevices in
  fold_left
    (fun matching cbtDevice =>
       matching ← matching;
       isMatchingDevice ←
         andAlso (includes requiredFormFactors (dev_device cbtDevice))
                 (includes requiredOsVendors (dev_type cbtDevice));
       if negb isMatchingDevice then Some matching
       else
         fold_left
           (fun matching cbtBrowser =>
              matching ← matching;
              isRequiredVendor ←
                includes requiredBrowserVendors (br_type cbtBrowser);
              if negb isRequiredVendor then Some matching
              else if bool_decide ((br_api_name cbtBrowser +:+ "x64")%string ∈ names)
              then Some matching
              else Some (matching ++ [{| device := cbtDevice; browser := cbtBrowser |}]))
           (dev_browsers cbtDevice) (Some matching))
    allCbtDevices (Some []).

(** The patterns of [parseVersionNumber]. *)
Definition re_64bit : regex := Seq (Lit (chars " 64-bit")) Eol.
Definition re_beta : regex := Seq (Lit (chars " Beta")) Eol.
Definition re_preview : regex := Seq (Lit (chars " Preview")) Eol.
Definition re_home : regex := Seq (Lit (chars " Home")) Eol.
Definition re_service_pack : regex :=
  Seq (Lit (chars " Service Pack ")) (Seq Dig Eol).
Definition re_xp : regex :=
  Seq Bol (Seq (Opt (Lit (chars "Windows ")))
               (Seq (Lit (chars "XP")) (Opt (Chr " ")))).
Definition re_vista : regex :=
  Seq Bol (Seq (Opt (Lit (chars "Windows ")))
               (Seq (Lit (chars "Vista")) (Opt (Chr " ")))).
Definition re_windows : regex :=
  Seq Bol (Seq (Alt (Lit (chars "Windows")) (Lit (chars "Win")))
               (Opt (Chr " "))).
Definition re_mac : regex :=
  Seq Bol (Seq (Alt (Lit (chars "Mac OS X"))
               (Alt (Lit (chars "Mac OSX"))
               (Alt (Lit (chars "MacOS"))
               (Alt (Lit (chars "OSX")) (Lit (chars "Mac"))))))
               (Opt (Chr " "))).
Definition re_zero_groups : regex :=
  Seq (Plus (Seq (Chr ".") (Plus (Chr "0")))) Eol.

(** The text [parseVersionNumber] splits: the chain of [replace] calls. *)
Definition normalizeVersion (version : list ascii) : list ascii :=
  let s := replace true re_64bit [] version in
  let s := replace true re_beta [] s in
  let s := replace true re_preview [] s in
  let s := replace true re_home [] s in
  let s := replace true re_service_pack [] s in
  let s := replace true re_xp (chars "5.1") s in
  let s := replace true re_vista (chars "6.0") s in
  let s := replace true re_windows [] s in
  let s := replace true re_mac [] s in
  replace_all false re_zero_groups [] s.

Definition parseVersionNumber (version : string) : list Js.number :=
  let numeric := normalizeVersion (chars version) in
  map Js.Number (split "." numeric).

(** [v[idx] = v[idx] || 0]. Reading past the end gives [undefined], which is
    falsy; writing at the length appends. [forEach] visits the indexes in
    order from 0, so [idx] never exceeds the length; a write further out
    would leave holes, which read as [undefined] and are shown as NaN. *)
Definition orZeroAt (v : list Js.number) (idx : nat) : list Js.number :=
  let x :=
    match v !! idx with
    | Some y => Js.or y Js.pzero
    | None => Js.pzero
    end in
  if idx <? length v then <[idx := x]> v
  else v ++ replicate (idx - length v) Js.NaN ++ [x].

(** The comparison after parsing, on the two arrays. *)
Definition compareParsed (v1 v2 : list Js.number) : Js.number :=
  (* Ensure both arrays are the same length by padding the shorter array with 0 *)
  let v2 := JsArray.forEach (fun v2 _ idx => orZeroAt v2 idx) v1 0 v2 in
  let v1 := JsArray.forEach (fun v1 _ idx => orZeroAt v1 idx) v2 0 v1 in
  (* Subtract each element in v2 from the element with the same index in v1 *)
  let deltas :=
    JsArray.mapi
      (fun num idx =>
         Js.sub num (match v2 !! idx with Some y => y | None => Js.NaN end))
      v1 0 in
  (* Return the first non-zero delta *)
  match filter (fun num => Js.strict_ne num Js.pzero = true) deltas with
  | d :: _ => Js.or d Js.pzero
  | [] => Js.pzero
  end.

Definition compareVersions (version1 version2 : string) : Js.number :=
  compareParsed (parseVersionNumber version1) (parseVersionNumber version2).

(** The comparator handed to [sort]. *)
Definition rankCompare (a b : CbtUserAgent) : Js.number :=
  Js.or
    (Js.or (compareVersions (dev_version (device a)) (dev_version (device b)))
           (compareVersions (br_version (browser a)) (br_version (browser b))))
    (Js.sub (dev_sort_order (device a)) (dev_sort_order (device b))).

(** [matchingCbtUserAgents.sort(...).reverse()], on the engine the code
    runs on. *)
Definition rankedCbtUserAgents (engine : JsArray.Engine) (userAgent : UserAgent)
  (allCbtDevices : list CbtDevice) : option (list CbtUserAgent) :=
  matching ← matchingCbtUserAgents userAgent allCbtDevices;
  Some (rev (JsArray.sort engine rankCompare matching)).

(** The callback of [find] under the EXACT policy. *)
Definition isExactMatch (userAgent : UserAgent) (cbtUserAgent : CbtUserAgent)
  : bool :=
  let curBrowserVersion := parseVersionNumber (br_version (browser cbtUserAgent)) in
  let requiredBrowserVersion := parseVersionNumber (browser_version_value userAgent) in
  JsArray.every
    (fun number index =>
       match curBrowserVersion !! index with
       | Some y => Js.strict_eq number y
       | None => false
       end)
    requiredBrowserVersion 0.

(** [getMatchingCbtUserAgent_], given the engine and the catalog
    [fetchAvailableDevices] resolved to. The outer [None] is a TypeError
    thrown by the loops, which rejects the promise; the inner one is
    [undefined]. *)
Definition getMatchingCbtUserAgent_ (engine : JsArray.Engine)
  (userAgent : UserAgent) (allCbtDevices : list CbtDevice)
  : option (option CbtUserAgent) :=
  ranked ← rankedCbtUserAgents engine userAgent allCbtDevices;
  Some
    match browser_version_type userAgent with
    | EXACT => List.find (isExactMatch userAgent) ranked
    | PREVIOUS => ranked !! 1
    | LATEST => ranked !! 0
    end.

End CbtApi.


(* ===================================================================== *)
(** * image-differ.js: diffing the screenshots *)
(* ===================================================================== *)

Module ImageDiffer.

Definition Buffer : Type := list ascii.

(** [mdc.proto.TestFile]. *)
Record TestFile : Type := {
  public_url : string;
  relative_path : string;
  absolute_path : string
}.

(** [mdc.proto.DiffImageResult]. *)
Record DiffImageResult : Type := {
  diff_image_file : TestFile;
  diff_pixel_count : Js.number;
  diff_pixel_fraction : Js.number;
  has_changed : bool
}.

(** [Screenshot.CaptureState]: the file names [DIFFED] only; [CAPTURED]
    stands for the states a screenshot has before it is diffed. *)
Inductive CaptureState : Set := CAPTURED | DIFFED.

Record ScreenshotUserAgent : Type := { alias : string }.

(** [mdc.proto.Screenshot]; an unset message field is [None]. *)
Record Screenshot : Type := {
  html_file_path : string;
  user_agent : ScreenshotUserAgent;
  actual_image_file : TestFile;
  expected_image_file : TestFile;
  diff_image_result : option DiffImageResult;
  screenshot_diff_image_file : option TestFile;
  capture_state : CaptureState
}.

(** Screenshots are objects: the lists and maps of the report hold
    references to them, and diffing a screenshot mutates the one object every
    list shares. *)
Definition ref : Type := nat.

(** [mdc.proto.ScreenshotList]. *)
Record ScreenshotList : Type := { screenshots : list ref }.

Record ReportMeta : Type := {
  local_diff_image_base_dir : string;
  remote_upload_base_url : string;
  remote_upload_base_dir : string
}.

(** [mdc.proto.ReportData], with the fields of [reportData.screenshots] the
    differ reads or writes, and the heap of the screenshot objects. The
    skipped, removed and added lists are only printed. *)
Record ReportData : Type := {
  meta : ReportMeta;
  heap : gmap ref Screenshot;
  comparable_screenshot_list : list ref;
  changed_screenshot_list : list ref;
  unchanged_screenshot_list : list ref;
  changed_screenshot_browser_map : gmap string ScreenshotList;
  changed_screenshot_page_map : gmap string ScreenshotList;
  unchanged_screenshot_browser_map : gmap string ScreenshotList;
  unchanged_screenshot_page_map : gmap string ScreenshotList
}.

(** What [compareImages] of resemblejs resolves to, and the bitmap of a
    decoded image. *)
Record ResembleApiComparisonResult : Type := {
  getBuffer : Buffer;
  rawMisMatchPercentage : Js.number
}.

Record Bitmap : Type := { width : Js.number; height : Js.number }.

(** The collaborators of the differ: the file system, resemblejs (with the
    options of [resemble.json]), Jimp, the [path] module, and the threshold
    [mdc_screenshot_test.min_diff_pixel_count] of [resemble.json]. A call that
    rejects or throws gives [None]. *)
Record Env : Type := {
  fs_readFile : string -> option Buffer;
  fs_writeFile : string -> Buffer -> option unit;
  mkdirp_sync : string -> option unit;
  compareImages : Buffer -> Buffer -> option ResembleApiComparisonResult;
  Jimp_read : Buffer -> option Bitmap;
  path_join : string -> string -> string;
  path_dirname : string -> string;
  min_diff_pixel_count : Js.number
}.

Section Differ.
Variable env : Env.

Definition computeDiff_ (actualImageBuffer expectedImageBuffer : Buffer)
  : option ResembleApiComparisonResult :=
  compareImages env actualImageBuffer expectedImageBuffer.

Definition re_png : Regex.regex := Regex.Seq (Regex.Lit (chars ".png")) Regex.Eol.

Definition createDiffImageFile_ (reportMeta : ReportMeta)
  (actualImageFile : TestFile) : TestFile :=
  let diffImageRelativePath :=
    string_of_list_ascii
      (Regex.replace false re_png (chars ".diff.png")
                     (chars (relative_path actualImageFile))) in
  let diffImageAbsolutePath :=
    path_join env (local_diff_image_base_dir reportMeta) diffImageRelativePath in
  let diffImagePublicUrl :=
    (remote_upload_base_url reportMeta +:+
     remote_upload_base_dir reportMeta +:+
     diffImageRelativePath)%string in
  {| public_url := diffImagePublicUrl;
     relative_path := diffImageRelativePath;
     absolute_path := diffImageAbsolutePath |}.

(** [{diffImageBuffer, diffPixelFraction, diffPixelCount}]. *)
Definition analyzeComparisonResult_
  (resembleComparisonResult : ResembleApiComparisonResult)
  : option (Buffer * Js.number * Js.number) :=
  let diffImageBuffer := getBuffer resembleComparisonResult in
  jimpImage ← Jimp_read env diffImageBuffer;
  let diffPixelFraction := rawMisMatchPercentage resembleComparisonResult in
  let diffPixelCount :=
    Js.mul (Js.mul diffPixelFraction (width jimpImage)) (height jimpImage) in
  Some (diffImageBuffer, diffPixelFraction, diffPixelCount).

Definition compareOneImage (reportData : ReportData)
  (actualImageFile expectedImageFile : TestFile) : option DiffImageResult :=
  let reportMeta := meta reportData in
  actualImageBuffer ← fs_readFile env (absolute_path actualImageFile);
  expectedImageBuffer ← fs_readFile env (absolute_path expectedImageFile);
  resembleComparisonResult ← computeDiff_ actualImageBuffer expectedImageBuffer;
  let diffImageFile := createDiffImageFile_ reportMeta actualImageFile in
  '(diffImageBuffer, diffPixelFraction, diffPixelCount) ←
    analyzeComparisonResult_ resembleComparisonResult;
  _ ← mkdirp_sync env (path_dirname env (absolute_path diffImageFile));
  _ ← fs_writeFile env (absolute_path diffImageFile) diffImageBuffer;
  Some {| diff_image_file := diffImageFile;
          diff_pixel_count := diffPixelCount;
          diff_pixel_fraction := diffPixelFraction;
          has_changed := Js.ge diffPixelCount (min_diff_pixel_count env) |}.

Definition set_heap (h : gmap ref Screenshot) (rd : ReportData) : ReportData :=
  {| meta := meta rd; heap := h;
     comparable_screenshot_list := comparable_screenshot_list rd;
     changed_screenshot_list := changed_screenshot_list rd;
     unchanged_screenshot_list := unchanged_screenshot_list rd;
     changed_screenshot_browser_map := changed_screenshot_browser_map rd;
     changed_screenshot_page_map := changed_screenshot_page_map rd;
     unchanged_screenshot_browser_map := unchanged_screenshot_browser_map rd;
     unchanged_screenshot_page_map := unchanged_screenshot_page_map rd |}.

Definition push_changed (r : ref) (rd : ReportData) : ReportData :=
  {| meta := meta rd; heap := heap rd;
     comparable_screenshot_list := comparable_screenshot_list rd;
     changed_screenshot_list := changed_screenshot_list rd ++ [r];
     unchanged_screenshot_list := unchanged_screenshot_list rd;
     changed_screenshot_browser_map := changed_screenshot_browser_map rd;
     changed_screenshot_page_map := changed_screenshot_page_map rd;
     unchanged_screenshot_browser_map := unchanged_screenshot_browser_map rd;
     unchanged_screenshot_page_map := unchanged_screenshot_page_map rd |}.

Definition push_unchanged (r : ref) (rd : ReportData) : ReportData :=
  {| meta := meta rd; heap := heap rd;
     comparable_screenshot_list := comparable_screenshot_list rd;
     changed_screenshot_list := changed_screenshot_list rd;
     unchanged_screenshot_list := unchanged_screenshot_list rd ++ [r];
     changed_screenshot_browser_map := changed_screenshot_browser_map rd;
     changed_screenshot_page_map := changed_screenshot_page_map rd;
     unchanged_screenshot_browser_map := unchanged_screenshot_browser_map rd;
     unchanged_screenshot_page_map := unchanged_screenshot_page_map rd |}.

(** The three assignments to the fields of the screenshot object. *)
Definition set_diffed (diffImageResult : DiffImageResult) (s : Screenshot)
  : Screenshot :=
  {| html_file_path := html_file_path s;
     user_agent := user_agent s;
     actual_image_file := actual_image_file s;
     expected_image_file := expected_image_file s;
     diff_image_result := Some diffImageResult;
     screenshot_diff_image_file := Some (diff_image_file diffImageResult);
     capture_state := DIFFED |}.

(** [compareOneScreenshot_]: [None] when the comparison rejects, which
    leaves the report as it was. *)
Definition compareOneScreenshot_ (reportData : ReportData) (screenshot : ref)
  : option ReportData :=
  s ← heap reportData !! screenshot;
  diffImageResult ←
    compareOneImage reportData (actual_image_file s) (expected_image_file s);
  let reportData :=
    set_heap (<[screenshot := set_diffed diffImageResult s]> (heap reportData))
             reportData in
  Some (if has_changed diffImageResult
        then push_changed screenshot reportData
        else push_unchanged screenshot reportData).

(** The property names every object inherits from [Object.prototype]. *)
Definition objectPrototypeKeys : list string :=
  ["__proto__"; "constructor"; "hasOwnProperty"; "isPrototypeOf";
   "propertyIsEnumerable"; "toLocaleString"; "toString"; "valueOf";
   "__defineGetter__"; "__defineSetter__"; "__lookupGetter__";
   "__lookupSetter__"]%string.

(** The body of the two [forEach] loops of the grouping methods, on a key:
    [map[key] = map[key] || ScreenshotList.create({screenshots: []});
     map[key].screenshots.push(screenshot)].
    For a key [Object.prototype] defines, [map[key]] is the inherited value,
    which is truthy and has no [screenshots]: the [push] throws a
    TypeError. *)
Definition groupStep (key : string) (screenshot : ref)
  (map : gmap string ScreenshotList) : option (gmap string ScreenshotList) :=
  match map !! key with
  | Some l => Some (<[key := {| screenshots := screenshots l ++ [screenshot] |}]> map)
  | None =>
      if bool_decide (key ∈ objectPrototypeKeys) then None
      else Some (<[key := {| screenshots := [screenshot] |}]> map)
  end.

Definition groupBy (key : Screenshot -> string) (h : gmap ref Screenshot)
  (screenshotArray : list ref) : option (gmap string ScreenshotList) :=
  foldl
    (fun acc screenshot =>
       map ← acc;
       s ← h !! screenshot;
       groupStep (key s) screenshot map)
    (Some ∅) screenshotArray.

Definition groupByBrowser_ (h : gmap ref Screenshot) (screenshotArray : list ref)
  : option (gmap string ScreenshotList) :=
  groupBy (fun screenshot => alias (user_agent screenshot)) h screenshotArray.

Definition groupByPage_ (h : gmap ref Screenshot) (screenshotArray : list ref)
  : option (gmap string ScreenshotList) :=
  groupBy html_file_path h screenshotArray.

Definition set_maps (cb cp ub up : gmap string ScreenshotList) (rd : ReportData)
  : ReportData :=
  {| meta := meta rd; heap := heap rd;
     comparable_screenshot_list := comparable_screenshot_list rd;
     changed_screenshot_list := changed_screenshot_list rd;
     unchanged_screenshot_list := unchanged_screenshot_list rd;
     changed_screenshot_browser_map := cb;
     changed_screenshot_page_map := cp;
     unchanged_screenshot_browser_map := ub;
     unchanged_screenshot_page_map := up |}.

Inductive Completion : Set := Fulfilled | Rejected.

(** The comparisons [Promise.all] awaits, settled in the order [schedule]
    (a permutation of [comparable_screenshot_list]: they are all started, and
    complete in any order). A comparison that rejects changes nothing and
    does not stop the others. *)
Definition settleAll (schedule : list ref) (reportData : ReportData)
  : ReportData * bool :=
  foldl
    (fun '(rd, ok) screenshot =>
       match compareOneScreenshot_ rd screenshot with
       | Some rd' => (rd', ok)
       | None => (rd, false)
       end)
    (reportData, true) schedule.

(** The four assignments after [Promise.all]; each grouping may throw, which
    keeps the assignments made before it. *)
Definition assignMaps (rd : ReportData) : ReportData * Completion :=
  match groupByBrowser_ (heap rd) (changed_screenshot_list rd) with
  | None => (rd, Rejected)
  | Some cb =>
  let rd := set_maps cb (changed_screenshot_page_map rd)
                     (unchanged_screenshot_browser_map rd)
                     (unchanged_screenshot_page_map rd) rd in
  match groupByPage_ (heap rd) (changed_screenshot_list rd) with
  | None => (rd, Rejected)
  | Some cp =>
  let rd := set_maps (changed_screenshot_browser_map rd) cp
                     (unchanged_screenshot_browser_map rd)
                     (unchanged_screenshot_page_map rd) rd in
  match groupByBrowser_ (heap rd) (unchanged_screenshot_list rd) with
  | None => (rd, Rejected)
  | Some ub =>
  let rd := set_maps (changed_screenshot_browser_map rd)
                     (changed_screenshot_page_map rd) ub
                     (unchanged_screenshot_page_map rd) rd in
  match groupByPage_ (heap rd) (unchanged_screenshot_list rd) with
  | None => (rd, Rejected)
  | Some up =>
  (set_maps (changed_screenshot_browser_map rd)
            (changed_screenshot_page_map rd)
            (unchanged_screenshot_browser_map rd) up rd, Fulfilled)
  end end end end.

(** [compareAllScreenshots]: the report once every comparison has settled,
    and how the returned promise settles. The console output is left out. *)
Definition compareAllScreenshots (schedule : list ref) (reportData : ReportData)
  : ReportData * Completion :=
  let '(rd, ok) := settleAll schedule reportData in
  if ok then assignMaps rd else (rd, Rejected).

End Differ.

End ImageDiffer.

(* ===================================================================== *)
(** * cbt-api.js: fetching the catalog and configuring a web driver *)
(* ===================================================================== *)

Module CbtClient.
Import CbtApi.

(** The value of a capability: a JSON scalar. *)
Inductive CapValue : Type :=
| CapBool (b : bool)
| CapNumber (x : Js.number)
| CapString (s : string).

(** The options [sendRequest_] hands to [request]. *)
Record RequestOptions : Type := {
  method : string;
  uri : string;
  auth_username : option string;
  auth_password : option string;
  body : option string;
  json : bool
}.

(** The promise of a request, known by the position of the request among
    the requests sent. *)
Definition promise : Type := nat.

(** The state the calls share: the module variable [allBrowsersPromise]
    ([None] is [undefined]) and the requests sent so far. The console output
    is left out. *)
Record World : Type := {
  allBrowsersPromise : option promise;
  sent : list RequestOptions
}.

(** The builder of selenium-webdriver: the server URL, and the capabilities
    object [getCapabilities] returns and [caps.set] writes to. *)
Record Builder : Type := {
  server : option string;
  capabilities : gmap string CapValue
}.

Definition usingServer (url : string) (driverBuilder : Builder) : Builder :=
  {| server := Some url; capabilities := capabilities driverBuilder |}.

Definition caps_set (key : string) (value : CapValue) (driverBuilder : Builder)
  : Builder :=
  {| server := server driverBuilder;
     capabilities := <[key := value]> (capabilities driverBuilder) |}.

(** [Object.assign(target, source)] on objects of scalars: the own
    properties of the source are set on the target; setting ["__proto__"]
    runs the setter of [Object.prototype], which ignores a scalar. *)
Definition Object_assign (target source : gmap string CapValue)
  : gmap string CapValue :=
  delete "__proto__"%string source ∪ target.

Definition REST_API_BASE_URL : string := "https://crossbrowsertesting.com/api/v3".

(** A value in a template literal: [undefined] shows as "undefined". *)
Definition templated (value : option string) : string :=
  match value with
  | Some s => s
  | None => "undefined"%string
  end.

Section Client.
(** The engine; the two environment variables, [None] when unset; how the
    request of each promise settles, with the catalog or ([None]) by rejecting; and the
    [caps] fields of the devices and browsers of the catalog, empty when the
    field is missing. *)
Variable engine : JsArray.Engine.
Variable MDC_CBT_USERNAME MDC_CBT_AUTHKEY : option string.
Variable respond : promise -> option (list CbtDevice).
Variable device_caps : CbtDevice -> gmap string CapValue.
Variable browser_caps : CbtBrowser -> gmap string CapValue.

Definition SELENIUM_SERVER_URL : string :=
  ("http://" +:+ templated MDC_CBT_USERNAME +:+ ":" +:+ templated MDC_CBT_AUTHKEY +:+
   "@hub.crossbrowsertesting.com:80/wd/hub")%string.

Definition sendRequest_ (method endpoint : string) (body : option string)
  (w : World) : promise * World :=
  let options :=
    {| method := method;
       uri := (REST_API_BASE_URL +:+ endpoint)%string;
       auth_username := MDC_CBT_USERNAME;
       auth_password := MDC_CBT_AUTHKEY;
       body := body;
       json := true |} in
  (length (sent w),
   {| allBrowsersPromise := allBrowsersPromise w; sent := sent w ++ [options] |}).

Definition fetchAvailableDevices (w : World) : promise * World :=
  match allBrowsersPromise w with
  | Some p => (p, w)
  | None =>
      let '(p, w) := sendRequest_ "GET" "/selenium/browsers" None w in
      (p, {| allBrowsersPromise := Some p; sent := sent w |})
  end.

(** [getMatchingCbtUserAgent_] with its first line, the wait for the
    catalog: the outer [None] is a rejection (of the request, or by a
    TypeError of the loops), the inner one [undefined]. *)
Definition getMatchingCbtUserAgent_ (userAgent : UserAgent) (w : World)
  : option (option CbtUserAgent) * World :=
  let '(p, w) := fetchAvailableDevices w in
  match respond p with
  | Some allCbtDevices =>
      (CbtApi.getMatchingCbtUserAgent_ engine userAgent allCbtDevices, w)
  | None => (None, w)
  end.

(** [configureWebDriver]: how the promise settles ([None] when it rejects),
    the builder and the shared state it leaves. Reading [device] of
    [undefined] throws. *)
Definition configureWebDriver (driverBuilder : Builder) (userAgent : UserAgent)
  (w : World) : option unit * Builder * World :=
  let driverBuilder := usingServer SELENIUM_SERVER_URL driverBuilder in
  let driverBuilder := caps_set "record_video" (CapBool true) driverBuilder in
  let driverBuilder := caps_set "record_network" (CapBool true) driverBuilder in
  let '(matchingCbtUserAgent, w) := getMatchingCbtUserAgent_ userAgent w in
  match matchingCbtUserAgent with
  | Some (Some matchingCbtUserAgent) =>
      let cbtCaps :=
        Object_assign
          (Object_assign ∅ (device_caps (device matchingCbtUserAgent)))
          (browser_caps (browser matchingCbtUserAgent)) in
      (Some tt,
       map_fold (fun key value caps => caps_set key value caps) driverBuilder cbtCaps,
       w)
  | _ => (None, driverBuilder, w)
  end.

End Client.
End CbtClient.

(* ===================================================================== *)
(** * The normalization pipeline as the specification words it *)
(* ===================================================================== *)

(** The five steps of section 4.1 of the specification, written on texts
    without patterns: strip the end-anchored suffixes, map the legacy names,
    strip the vendor prefixes, strip the trailing zero groups, split and
    convert. [parse] is compared with [CbtApi.parseVersionNumber] below. *)
Module Pipeline.

(** Equality of two texts, to case. *)
Fixpoint ci_eqb (p s : list ascii) : bool :=
  match p, s with
  | [], [] => true
  | c :: p', d :: s' => Regex.char_eq true c d && ci_eqb p' s'
  | _, _ => false
  end.

(** [s] starts with [p], to case. *)
Definition starts_with_ci (p s : list ascii) : bool :=
  ci_eqb p (take (length p) s).

(** Strip the last [n] characters when they satisfy [suffix]. *)
Definition stripSuffixBy (n : nat) (suffix : list ascii -> bool) (s : list ascii)
  : list ascii :=
  if (n <=? length s) && suffix (drop (length s - n) s)
  then take (length s - n) s
  else s.

(** Strip the suffix [p], to case. *)
Definition stripSuffix (p : list ascii) : list ascii -> list ascii :=
  stripSuffixBy (length p) (ci_eqb p).

(** " Service Pack N", [N] one digit. *)
Definition isServicePack (t : list ascii) : bool :=
  ci_eqb (chars " Service Pack ") (take 14 t) &&
  match drop 14 t with
  | [d] => Regex.is_digit d
  | _ => false
  end.

Definition dropSpace (s : list ascii) : list ascii :=
  match s with
  | " "%char :: s' => s'
  | _ => s
  end.

(** Replace the first of the prefixes [alts] that [s] starts with (to case),
    and one space after it, by [repl]. *)
Definition mapPrefix (alts : list (list ascii)) (repl s : list ascii)
  : list ascii :=
  match List.find (fun p => starts_with_ci p s) alts with
  | Some p => repl ++ dropSpace (drop (length p) s)
  | None => s
  end.

(** The text before a trailing group, a dot and one or more zeros; [r] is
    the text read from its end, and [zeros] tells whether a zero was read. *)
Fixpoint zeroGroup (r : list ascii) (zeros : bool) : option (list ascii) :=
  match r with
  | c :: r' =>
      if Ascii.eqb c "0" then zeroGroup r' true
      else if Ascii.eqb c "." then (if zeros then Some r' else None)
      else None
  | [] => None
  end.

(** Strip trailing groups for as long as there is one. *)
Fixpoint stripGroups (fuel : nat) (r : list ascii) : list ascii :=
  match fuel with
  | O => r
  | S fuel' =>
      match zeroGroup r false with
      | Some r' => stripGroups fuel' r'
      | None => r
      end
  end.

Definition stripZeroGroups (s : list ascii) : list ascii :=
  rev (stripGroups (length s) (rev s)).

(** Steps 1 to 4, for the Mac prefixes [macPrefixes] in their order. *)
Definition normalize (macPrefixes : list (list ascii)) (version : list ascii)
  : list ascii :=
  let s := stripSuffix (chars " 64-bit") version in
  let s := stripSuffix (chars " Beta") s in
  let s := stripSuffix (chars " Preview") s in
  let s := stripSuffix (chars " Home") s in
  let s := stripSuffixBy 15 isServicePack s in
  let s := mapPrefix [chars "Windows XP"; chars "XP"] (chars "5.1") s in
  let s := mapPrefix [chars "Windows Vista"; chars "Vista"] (chars "6.0") s in
  let s := mapPrefix [chars "Windows"; chars "Win"] [] s in
  let s := mapPrefix macPrefixes [] s in
  stripZeroGroups s.

(** Step 5. *)
Definition parse (macPrefixes : list (list ascii)) (version : string)
  : list Js.number :=
  map Js.Number (Regex.split "." (normalize macPrefixes (chars version))).

(** The Mac prefixes the specification lists, and the ones the pattern of
    the source lists. *)
Definition specMacPrefixes : list (list ascii) :=
  [chars "Mac OS X"; chars "MacOSX"; chars "MacOS"; chars "OSX"; chars "Mac"].
Definition sourceMacPrefixes : list (list ascii) :=
  [chars "Mac OS X"; chars "Mac OSX"; chars "MacOS"; chars "OSX"; chars "Mac"].

End Pipeline.

(* ===================================================================== *)
(** * Vocabulary of the statements *)
(* ===================================================================== *)


(** [x || 0], and a segment read with NaN taken for 0. *)
Definition orZero (x : Js.number) : Js.number := Js.or x Js.pzero.
Definition nanToZero (x : Js.number) : Js.number :=
  if Js.is_nan x then Js.pzero else x.


(** [compareParsed] by recursion on the two arrays: the first delta that is
    not zero decides. *)
Definition firstDelta (d rest : Js.number) : Js.number :=
  if Js.strict_ne d Js.pzero then Js.or d Js.pzero else rest.

Fixpoint lexRight (v2 : list Js.number) : Js.number :=
  match v2 with
  | [] => Js.pzero
  | y :: v2' => firstDelta (Js.sub Js.pzero y) (lexRight v2')
  end.

Fixpoint lexCompare (v1 v2 : list Js.number) : Js.number :=
  match v1 with
  | [] => lexRight v2
  | x :: v1' =>
      match v2 with
      | [] => firstDelta (Js.sub (orZero x) Js.pzero) (lexCompare v1' [])
      | y :: v2' => firstDelta (Js.sub (orZero x) (orZero y)) (lexCompare v1' v2')
      end
  end.

(** What a padding loop leaves in [dst], and the deltas. *)
Fixpoint padded (src dst : list Js.number) : list Js.number :=
  match src, dst with
  | [], _ => dst
  | _ :: src', [] => Js.pzero :: padded src' []
  | _ :: src', d :: dst' => orZero d :: padded src' dst'
  end.

Fixpoint deltas (v1 v2 : list Js.number) : list Js.number :=
  match v1 with
  | [] => []
  | x :: v1' =>
      match v2 with
      | [] => Js.sub x Js.NaN :: deltas v1' []
      | y :: v2' => Js.sub x y :: deltas v1' v2'
      end
  end.

(** A result of rounding that has the sign [s] and is not NaN. *)
Definition signed_as (s : bool) (x : Js.number) : Prop :=
  match x with
  | S754_zero s' | S754_infinity s' | S754_finite s' _ _ => s' = s
  | S754_nan => False
  end.

(** A positive finite number, as the width and height of an image are. *)
Definition positiveFinite (x : Js.number) : Prop :=
  Js.gt x Js.pzero = true /\ Js.is_finite x = true.

(** The continuation that accepts, and the one that accepts at the end of
    the input. *)
Definition K0 : Regex.cont := fun j t => Some (j, t).
Definition atEnd : Regex.cont := fun j t => Regex.run false Regex.Eol j t K0.

(** The first index at which the rest of the text satisfies [good]. *)
Fixpoint firstGood (good : list ascii -> bool) (s : list ascii) : option nat :=
  if good s then Some 0
  else
    match s with
    | [] => None
    | _ :: s' => option_map S (firstGood good s')
    end.

(** An ordered alternation of literal texts. *)
Fixpoint altLits (p : list ascii) (alts : list (list ascii)) : Regex.regex :=
  match alts with
  | [] => Regex.Lit p
  | q :: alts' => Regex.Alt (Regex.Lit p) (altLits q alts')
  end.

Fixpoint dropZeros (t : list ascii) : list ascii :=
  match t with
  | c :: t' => if Ascii.eqb "0" c then dropZeros t' else t
  | [] => []
  end.

(** A continuation that fails in front of a zero. *)
Definition averse (k : Regex.cont) : Prop :=
  forall j t, k j ("0"%char :: t) = None.

Definition zeroGroupRe : Regex.regex :=
  Regex.Seq (Regex.Chr ".") (Regex.Plus (Regex.Chr "0")).

(** Zero or more groups, each a dot and one or more zeros. *)
Fixpoint isGroups (fuel : nat) (t : list ascii) : bool :=
  match t with
  | [] => true
  | c :: t1 =>
      match fuel with
      | O => false
      | S fuel' =>
          match t1 with
          | d :: t2 => Ascii.eqb "." c && Ascii.eqb "0" d && isGroups fuel' (dropZeros t2)
          | [] => false
          end
      end
  end.

(** One or more groups, and nothing else. *)
Definition isTrailer (t : list ascii) : bool :=
  match t with
  | [] => false
  | _ :: _ => isGroups (length t) t
  end.

Definition group (z : nat) : list ascii := "."%char :: replicate (S z) "0"%char.

Inductive Groups : list ascii -> Prop :=
| Groups_nil : Groups []
| Groups_cons z t : Groups t -> Groups (group z ++ t).

(** The lists [f] gives for the elements of [l], joined; [None] when [f]
    gives none for an element. *)
Fixpoint collect {A B : Type} (f : A -> option (list B)) (l : list A)
  : option (list B) :=
  match l with
  | [] => Some []
  | x :: l' => ys ← f x; rest ← collect f l'; Some (ys ++ rest)
  end.

(** The candidates of one browser and of one device; [None] when a list
    that is consulted is [undefined]. *)
Definition selectBrowser (requiredBrowserVendors : option (list string))
  (names : gset string) (cbtDevice : CbtApi.CbtDevice)
  (cbtBrowser : CbtApi.CbtBrowser) : option (list CbtApi.CbtUserAgent) :=
  isRequiredVendor ←
    CbtApi.includes requiredBrowserVendors (CbtApi.br_type cbtBrowser);
  Some (if negb isRequiredVendor then []
        else if bool_decide ((CbtApi.br_api_name cbtBrowser +:+ "x64")%string ∈ names)
        then []
        else [{| CbtApi.device := cbtDevice; CbtApi.browser := cbtBrowser |}]).

Definition selectDevice (userAgent : CbtApi.UserAgent) (names : gset string)
  (cbtDevice : CbtApi.CbtDevice) : option (list CbtApi.CbtUserAgent) :=
  isMatchingDevice ←
    CbtApi.andAlso
      (CbtApi.includes (CbtApi.formFactorMap (CbtApi.form_factor_type userAgent))
                       (CbtApi.dev_device cbtDevice))
      (CbtApi.includes (CbtApi.osVendorMap (CbtApi.os_vendor_type userAgent))
                       (CbtApi.dev_type cbtDevice));
  if negb isMatchingDevice then Some []
  else collect
         (selectBrowser (CbtApi.browserVendorMap (CbtApi.browser_vendor_type userAgent))
                        names cbtDevice)
         (CbtApi.dev_browsers cbtDevice).

(** The loops of the resolution consult a list that is [undefined]: the
    form factors, as soon as there is a device; the OS vendors, as soon as a
    device has a required form factor; the browser vendors, as soon as a
    matching device has a browser. *)
Definition consultsUndefined (userAgent : CbtApi.UserAgent)
  (allCbtDevices : list CbtApi.CbtDevice) : Prop :=
  match CbtApi.formFactorMap (CbtApi.form_factor_type userAgent) with
  | None => allCbtDevices <> []
  | Some requiredFormFactors =>
      exists cbtDevice : CbtApi.CbtDevice,
        cbtDevice ∈ allCbtDevices /\
        CbtApi.dev_device cbtDevice ∈ requiredFormFactors /\
        match CbtApi.osVendorMap (CbtApi.os_vendor_type userAgent) with
        | None => True
        | Some requiredOsVendors =>
            CbtApi.dev_type cbtDevice ∈ requiredOsVendors /\
            CbtApi.dev_browsers cbtDevice <> [] /\
            CbtApi.browserVendorMap (CbtApi.browser_vendor_type userAgent) = None
        end
  end.

(** [x] may stand before [y] in the reversed sorted array: the comparator
    puts [x] above [y], or does not put [y] above [x]. *)
Definition inOrder {A : Type} (comparefn : A -> A -> Js.number) (x y : A) : Prop :=
  Js.gt (comparefn x y) Js.pzero = true \/ Js.gt (comparefn y x) Js.pzero = false.

(** Every element may stand before the next. *)
Fixpoint descending {A : Type} (comparefn : A -> A -> Js.number) (l : list A)
  : Prop :=
  match l with
  | x :: (y :: _) as l' => inOrder comparefn x y /\ descending comparefn l'
  | _ => True
  end.


(** The parsed browser version of [c] agrees with the parsed target at
    every index of the target. *)
Definition agrees (userAgent : CbtApi.UserAgent) (c : CbtApi.CbtUserAgent) : Prop :=
  forall i x,
    CbtApi.parseVersionNumber (CbtApi.browser_version_value userAgent) !! i = Some x ->
    exists y,
      CbtApi.parseVersionNumber (CbtApi.br_version (CbtApi.browser c)) !! i = Some y /\
      Js.strict_eq x y = true.

(** What diffing the screenshot [r] gives in the report [rd]. *)
Definition outcome (env : ImageDiffer.Env) (rd : ImageDiffer.ReportData)
  (r : ImageDiffer.ref) : option ImageDiffer.DiffImageResult :=
  s ← ImageDiffer.heap rd !! r;
  ImageDiffer.compareOneImage env rd (ImageDiffer.actual_image_file s)
                              (ImageDiffer.expected_image_file s).

(** The screenshot object [r] of the heap [h] holds the diff result [res]
    with the verdict [changed], and is marked as diffed. *)
Definition diffedAs (h : gmap ImageDiffer.ref ImageDiffer.Screenshot)
  (changed : bool) (r : ImageDiffer.ref) (res : ImageDiffer.DiffImageResult)
  : Prop :=
  exists s,
    h !! r = Some s /\
    ImageDiffer.diff_image_result s = Some res /\
    ImageDiffer.screenshot_diff_image_file s = Some (ImageDiffer.diff_image_file res) /\
    ImageDiffer.has_changed res = changed /\
    ImageDiffer.capture_state s = ImageDiffer.DIFFED.

(** The invariant of the settling loop after the comparisons [done]: the
    lists have grown by [newChanged] and [newUnchanged], which hold the
    screenshots of [done] whose comparison resolved. *)
Record settled (env : ImageDiffer.Env) (rd0 : ImageDiffer.ReportData)
  (done : list ImageDiffer.ref) (rd : ImageDiffer.ReportData) (ok : bool)
  (newChanged newUnchanged : list ImageDiffer.ref) : Prop := {
  settled_meta : ImageDiffer.meta rd = ImageDiffer.meta rd0;
  settled_map :
    ImageDiffer.changed_screenshot_browser_map rd =
      ImageDiffer.changed_screenshot_browser_map rd0;
  settled_changed :
    ImageDiffer.changed_screenshot_list rd =
      ImageDiffer.changed_screenshot_list rd0 ++ newChanged;
  settled_unchanged :
    ImageDiffer.unchanged_screenshot_list rd =
      ImageDiffer.unchanged_screenshot_list rd0 ++ newUnchanged;
  settled_perm :
    newChanged ++ newUnchanged ≡ₚ filter (fun r => is_Some (outcome env rd0 r)) done;
  settled_ok : ok = true <-> Forall (fun r => is_Some (outcome env rd0 r)) done;
  settled_outcome : forall r, outcome env rd r = outcome env rd0 r;
  settled_heap_changed : forall r, r ∈ newChanged ->
    exists res, outcome env rd0 r = Some res /\
                diffedAs (ImageDiffer.heap rd) true r res;
  settled_heap_unchanged : forall r, r ∈ newUnchanged ->
    exists res, outcome env rd0 r = Some res /\
                diffedAs (ImageDiffer.heap rd) false r res
}.

(** The verdict of diffing the screenshot [r]: [Some true] when it has
    changed, [None] when the comparison rejects. *)
Definition verdict (env : ImageDiffer.Env) (rd : ImageDiffer.ReportData)
  (r : ImageDiffer.ref) : option bool :=
  option_map ImageDiffer.has_changed (outcome env rd r).

(** The screenshot object of the reference [r], which was [s], once the
    comparisons [schedule] have settled. *)
Definition diffedObject (env : ImageDiffer.Env) (rd : ImageDiffer.ReportData)
  (schedule : list ImageDiffer.ref) (r : ImageDiffer.ref)
  (s : ImageDiffer.Screenshot) : ImageDiffer.Screenshot :=
  match outcome env rd r with
  | Some res => if bool_decide (r ∈ schedule) then ImageDiffer.set_diffed res s else s
  | None => s
  end.

(** The grouping key of the reference [r]. *)
Definition keyOf (key : ImageDiffer.Screenshot -> string)
  (h : gmap ImageDiffer.ref ImageDiffer.Screenshot) (r : ImageDiffer.ref)
  : option string :=
  option_map key (h !! r).

(** The screenshots of [l] with the key [k], in the order of [l]. *)
Definition members (key : ImageDiffer.Screenshot -> string)
  (h : gmap ImageDiffer.ref ImageDiffer.Screenshot) (k : string)
  (l : list ImageDiffer.ref) : list ImageDiffer.ref :=
  filter (fun r => keyOf key h r = Some k) l.

(** The entry of the key [k] in a grouping of [l]: absent when no
    screenshot has the key. *)
Definition groupOf (key : ImageDiffer.Screenshot -> string)
  (h : gmap ImageDiffer.ref ImageDiffer.Screenshot) (k : string)
  (l : list ImageDiffer.ref) : option ImageDiffer.ScreenshotList :=
  match members key h k l with
  | [] => None
  | g => Some {| ImageDiffer.screenshots := g |}
  end.

(** A reference the grouping methods can file: it names a screenshot whose
    key [Object.prototype] does not define. *)
Definition groupable (key : ImageDiffer.Screenshot -> string)
  (h : gmap ImageDiffer.ref ImageDiffer.Screenshot) (r : ImageDiffer.ref) : Prop :=
  exists s, h !! r = Some s /\ key s ∉ ImageDiffer.objectPrototypeKeys.

Definition byAlias (s : ImageDiffer.Screenshot) : string :=
  ImageDiffer.alias (ImageDiffer.user_agent s).

(** Every reference of the two result lists is groupable by [key]. *)
Definition allGroupable (key : ImageDiffer.Screenshot -> string)
  (rd : ImageDiffer.ReportData) : Prop :=
  Forall (groupable key (ImageDiffer.heap rd))
         (ImageDiffer.changed_screenshot_list rd ++
          ImageDiffer.unchanged_screenshot_list rd).

(** [s] with its suffix [old] replaced by [new], and [s] itself when it does
    not end with [old]. *)
Definition withSuffix (old new s : list ascii) : list ascii :=
  if bool_decide (old `suffix_of` s)
  then take (length s - length old) s ++ new
  else s.

(** The collaborators [env] under another threshold. *)
Definition withThreshold (threshold : Js.number) (env : ImageDiffer.Env)
  : ImageDiffer.Env :=
  {| ImageDiffer.fs_readFile := ImageDiffer.fs_readFile env;
     ImageDiffer.fs_writeFile := ImageDiffer.fs_writeFile env;
     ImageDiffer.mkdirp_sync := ImageDiffer.mkdirp_sync env;
     ImageDiffer.compareImages := ImageDiffer.compareImages env;
     ImageDiffer.Jimp_read := ImageDiffer.Jimp_read env;
     ImageDiffer.path_join := ImageDiffer.path_join env;
     ImageDiffer.path_dirname := ImageDiffer.path_dirname env;
     ImageDiffer.min_diff_pixel_count := threshold |}.

(** A diff result with another verdict. *)
Definition withVerdict (changed : bool) (res : ImageDiffer.DiffImageResult)
  : ImageDiffer.DiffImageResult :=
  {| ImageDiffer.diff_image_file := ImageDiffer.diff_image_file res;
     ImageDiffer.diff_pixel_count := ImageDiffer.diff_pixel_count res;
     ImageDiffer.diff_pixel_fraction := ImageDiffer.diff_pixel_fraction res;
     ImageDiffer.has_changed := changed |}.

(** The number of dots of a text. *)
Definition dots (s : list ascii) : nat :=
  length (filter (fun c => c = "."%char) s).

(** A segment written in decimal digits, and its value. *)
Definition isDigits (seg : list ascii) : Prop :=
  seg <> [] /\ Forall (fun c => Regex.is_digit c = true) seg.

Fixpoint decimalFrom (acc : Z) (seg : list ascii) : Z :=
  match seg with
  | [] => acc
  | c :: seg' => decimalFrom (10 * acc + (Z.of_nat (nat_of_ascii c) - 48)) seg'
  end.

Definition decimalValue (seg : list ascii) : Z := decimalFrom 0 seg.

(** The segments joined by dots. *)
Fixpoint dotted (first : list ascii) (rest : list (list ascii)) : list ascii :=
  match rest with
  | [] => first
  | seg :: rest' => first ++ "."%char :: dotted seg rest'
  end.

(** A segment of zeros only. *)
Definition isZeros (seg : list ascii) : bool := forallb (Ascii.eqb "0") seg.

(** The segments without the all-zero segments at their end. *)
Fixpoint dropZeroSegments (rest : list (list ascii)) : list (list ascii) :=
  match rest with
  | [] => []
  | seg :: rest' =>
      match dropZeroSegments rest' with
      | [] => if isZeros seg then [] else [seg]
      | kept => seg :: kept
      end
  end.

(** A character of a dotted decimal text. *)
Definition plainChar (c : ascii) : Prop := Regex.is_digit c = true \/ c = "."%char.

(** The vendor names in front of a version, with or without a space, and
    the edition names behind it, as [parseVersionNumber] strips them. *)
Definition vendorPrefixes : list string :=
  [""; "Windows "; "Windows"; "Win "; "Win"; "Mac OS X "; "Mac OS X"; "Mac OSX ";
   "Mac OSX"; "MacOS "; "MacOS"; "OSX "; "OSX"; "Mac "; "Mac"]%string.

Definition editionSuffixes : list string :=
  [""; " 64-bit"; " Beta"; " Preview"; " Home";
   " Service Pack 0"; " Service Pack 1"; " Service Pack 2"; " Service Pack 3";
   " Service Pack 4"; " Service Pack 5"; " Service Pack 6"; " Service Pack 7";
   " Service Pack 8"; " Service Pack 9"]%string.

(** No character of the text is a "k", in either case. *)
Definition noK (s : list ascii) : Prop :=
  Forall (fun c => Regex.char_eq true "k" c = false) s.

(** [p * 2^n]. *)
Definition scaled (p : positive) (n : nat) : positive := Nat.iter n xO p.

(** The number of binary digits of [p]. *)
Definition width2 (p : positive) : nat := Pos.to_nat (digits2_pos p).

(** An integer a Number holds exactly. *)
Definition safeInteger (z : Z) : Prop := (- 2 ^ 53 < z < 2 ^ 53)%Z.

(** A version segment: an integer from 0 up to 2^53. *)
Definition safeSegment (z : Z) : Prop := (0 <= z < 2 ^ 53)%Z.

(** The first difference of two versions given by their integer segments,
    the shorter one taken as padded with zeros: 0 when there is none. *)
Fixpoint firstNegated (l2 : list Z) : Z :=
  match l2 with
  | [] => 0
  | y :: l2' => if (y =? 0)%Z then firstNegated l2' else (- y)%Z
  end.

Fixpoint firstDifference (l1 l2 : list Z) : Z :=
  match l1 with
  | [] => firstNegated l2
  | x :: l1' =>
      match l2 with
      | [] => if (x =? 0)%Z then firstDifference l1' [] else x
      | y :: l2' => if (x =? y)%Z then firstDifference l1' l2' else (x - y)%Z
      end
  end.

(** The rank of a candidate in integers: the segments of its device
    version and of its browser version, and the sort order of its device. *)
Record RankKey : Type := {
  key_device_version : list Z;
  key_browser_version : list Z;
  key_sort_order : Z
}.

(** The candidate [c] has the rank [k]. *)
Definition hasRank (c : CbtApi.CbtUserAgent) (k : RankKey) : Prop :=
  CbtApi.parseVersionNumber (CbtApi.dev_version (CbtApi.device c)) =
    map Js.of_Z (key_device_version k) /\
  Forall safeSegment (key_device_version k) /\
  CbtApi.parseVersionNumber (CbtApi.br_version (CbtApi.browser c)) =
    map Js.of_Z (key_browser_version k) /\
  Forall safeSegment (key_browser_version k) /\
  CbtApi.dev_sort_order (CbtApi.device c) = Js.of_Z (key_sort_order k) /\
  safeSegment (key_sort_order k).

(** The first of [a], [b] that is not zero. *)
Definition orElse (a b : Z) : Z := if (a =? 0)%Z then b else a.

(** How far the rank [k1] is above the rank [k2]: by device version, then by
    browser version, then by sort order. *)
Definition rankDifference (k1 k2 : RankKey) : Z :=
  orElse (orElse (firstDifference (key_device_version k1) (key_device_version k2))
                 (firstDifference (key_browser_version k1) (key_browser_version k2)))
         (key_sort_order k1 - key_sort_order k2).

(** A comparison in integers that orders its arguments. *)
Record ordering {A : Type} (s : A -> A -> Z) : Prop := {
  ordering_opp : forall x y, s y x = (- s x y)%Z;
  ordering_trans : forall x y z, (0 <= s x y)%Z -> (0 <= s y z)%Z -> (0 <= s x z)%Z
}.

(** The segment of a version at an index, 0 past its end. *)
Definition segmentAt (l : list Z) (i : nat) : Z := nth i l 0%Z.

(** The request for the catalog. *)
Definition catalogRequest (username authkey : option string)
  : CbtClient.RequestOptions :=
  {| CbtClient.method := "GET";
     CbtClient.uri := "https://crossbrowsertesting.com/api/v3/selenium/browsers";
     CbtClient.auth_username := username;
     CbtClient.auth_password := authkey;
     CbtClient.body := None;
     CbtClient.json := true |}.

(** The states a process reaches from [w0] by calls of
    [fetchAvailableDevices] and [configureWebDriver]. *)
Inductive reaches (engine : JsArray.Engine) (username authkey : option string)
  (respond : CbtClient.promise -> option (list CbtApi.CbtDevice))
  (device_caps : CbtApi.CbtDevice -> gmap string CbtClient.CapValue)
  (browser_caps : CbtApi.CbtBrowser -> gmap string CbtClient.CapValue)
  (w0 : CbtClient.World) : CbtClient.World -> Prop :=
| reaches_start :
    reaches engine username authkey respond device_caps browser_caps w0 w0
| reaches_fetch w :
    reaches engine username authkey respond device_caps browser_caps w0 w ->
    reaches engine username authkey respond device_caps browser_caps w0
            (CbtClient.fetchAvailableDevices username authkey w).2
| reaches_configure w driverBuilder userAgent :
    reaches engine username authkey respond device_caps browser_caps w0 w ->
    reaches engine username authkey respond device_caps browser_caps w0
            (CbtClient.configureWebDriver engine username authkey respond device_caps
               browser_caps driverBuilder userAgent w).2.

(** The builder once the server and the two recording capabilities are
    set. *)
Definition preconfigured (username authkey : option string)
  (driverBuilder : CbtClient.Builder) : CbtClient.Builder :=
  {| CbtClient.server := Some (CbtClient.SELENIUM_SERVER_URL username authkey);
     CbtClient.capabilities :=
       <["record_network"%string := CbtClient.CapBool true]>
         (<["record_video"%string := CbtClient.CapBool true]>
            (CbtClient.capabilities driverBuilder)) |}.

(** The process state at its start. *)
Definition freshWorld : CbtClient.World :=
  {| CbtClient.allBrowsersPromise := None; CbtClient.sent := [] |}.

(* ===================================================================== *)
(** * Sample data *)
(* ===================================================================== *)

Module Sample.
Import CbtApi ImageDiffer.

(** A Windows desktop with three Chrome builds, one of them in both
    architectures, and a Mac. *)
Definition chrome63 : CbtBrowser :=
  {| br_api_name := "Chrome63"; br_type := "Chrome"; br_version := "63.0.1" |}.
Definition chrome64 : CbtBrowser :=
  {| br_api_name := "Chrome64"; br_type := "Chrome"; br_version := "64.0.3282" |}.
Definition chrome64x64 : CbtBrowser :=
  {| br_api_name := "Chrome64x64"; br_type := "Chrome"; br_version := "64.0.3282 64-bit" |}.
Definition firefox58 : CbtBrowser :=
  {| br_api_name := "FF58"; br_type := "Firefox"; br_version := "58" |}.

Definition win10 : CbtDevice :=
  {| dev_device := "desktop"; dev_type := "Windows"; dev_version := "Windows 10";
     dev_sort_order := Js.of_Z 7;
     dev_browsers := [chrome63; chrome64; chrome64x64; firefox58] |}.
Definition win7 : CbtDevice :=
  {| dev_device := "desktop"; dev_type := "Windows"; dev_version := "Win 7 64-bit";
     dev_sort_order := Js.of_Z 3;
     dev_browsers := [chrome63] |}.
Definition mac : CbtDevice :=
  {| dev_device := "desktop"; dev_type := "Mac"; dev_version := "Mac OSX 10.12";
     dev_sort_order := Js.of_Z 5;
     dev_browsers := [chrome63] |}.

Definition catalog : list CbtDevice := [win7; mac; win10].

Definition chromeOnWindows (policy : BrowserVersionType) (value : string)
  : UserAgent :=
  {| form_factor_type := DESKTOP; os_vendor_type := WINDOWS;
     browser_vendor_type := CHROME; browser_version_type := policy;
     browser_version_value := value |}.

(** Collaborators that resolve: every file reads as empty, the images are
    [w] by [h] and the mismatch reported for them is [fraction]. *)
Definition env (fraction : string) (w h : Z) (threshold : Z) : Env :=
  {| fs_readFile := fun _ => Some [];
     fs_writeFile := fun _ _ => Some tt;
     mkdirp_sync := fun _ => Some tt;
     compareImages := fun _ _ =>
       Some {| getBuffer := [];
               rawMisMatchPercentage := Js.Number (chars fraction) |};
     Jimp_read := fun _ => Some {| width := Js.of_Z w; height := Js.of_Z h |};
     path_join := fun a b => (a +:+ "/" +:+ b)%string;
     path_dirname := fun p => p;
     min_diff_pixel_count := Js.of_Z threshold |}.

(** The mismatch resemblejs reports for [mismatchCount] differing pixels of
    an image of [w] by [h] pixels: [(mismatchCount / (height * width)) * 100];
    and collaborators that resolve with it. *)
Definition mismatch (mismatchCount w h : Z) : Js.number :=
  Js.mul (Js.div (Js.of_Z mismatchCount) (Js.mul (Js.of_Z h) (Js.of_Z w)))
         (Js.of_Z 100).

Definition envPixels (mismatchCount w h : Z) (threshold : Z) : Env :=
  {| fs_readFile := fun _ => Some [];
     fs_writeFile := fun _ _ => Some tt;
     mkdirp_sync := fun _ => Some tt;
     compareImages := fun _ _ =>
       Some {| getBuffer := [];
               rawMisMatchPercentage := mismatch mismatchCount w h |};
     Jimp_read := fun _ => Some {| width := Js.of_Z w; height := Js.of_Z h |};
     path_join := fun a b => (a +:+ "/" +:+ b)%string;
     path_dirname := fun p => p;
     min_diff_pixel_count := Js.of_Z threshold |}.

(** Collaborators under which just the images of odd size differ, by three
    pixels. *)
Definition envBySize : Env :=
  {| fs_readFile := fun p => Some (chars p);
     fs_writeFile := fun _ _ => Some tt;
     mkdirp_sync := fun _ => Some tt;
     compareImages := fun a _ =>
       Some {| getBuffer := a;
               rawMisMatchPercentage :=
                 if Nat.odd (length a) then Js.Number (chars "0.03") else Js.pzero |};
     Jimp_read := fun _ => Some {| width := Js.of_Z 10; height := Js.of_Z 10 |};
     path_join := fun a b => (a +:+ "/" +:+ b)%string;
     path_dirname := fun p => p;
     min_diff_pixel_count := Js.of_Z 3 |}.

Definition file (path : string) : TestFile :=
  {| public_url := ("https://host/" +:+ path)%string;
     relative_path := path;
     absolute_path := ("/tmp/" +:+ path)%string |}.

Definition screenshot (page browser : string) (actual : string) : Screenshot :=
  {| html_file_path := page;
     user_agent := {| alias := browser |};
     actual_image_file := file actual;
     expected_image_file := file "golden.png";
     diff_image_result := None;
     screenshot_diff_image_file := None;
     capture_state := CAPTURED |}.

Definition report : ReportData :=
  {| meta := {| local_diff_image_base_dir := "/tmp/diff";
                remote_upload_base_url := "https://host/";
                remote_upload_base_dir := "run/" |};
     heap := <[2 := screenshot "button.html" "desktop_windows_chrome@latest" "c.png"]>
            (<[1 := screenshot "button.html" "desktop_windows_ie@11" "bb.png"]>
            (<[0 := screenshot "card.html" "desktop_windows_chrome@latest" "a.png"]> ∅));
     comparable_screenshot_list := [0; 1; 2];
     changed_screenshot_list := [];
     unchanged_screenshot_list := [];
     changed_screenshot_browser_map := ∅;
     changed_screenshot_page_map := ∅;
     unchanged_screenshot_browser_map := ∅;
     unchanged_screenshot_page_map := ∅ |}.

(** The sample report diffed, the comparisons completing in the order 2,
    0, 1. *)
Definition settled : ReportData * Completion :=
  compareAllScreenshots envBySize [2; 0; 1] report.
Definition settledReport : ReportData := settled.1.

(** The result of diffing two images of 10 by 10 pixels with the reported
    mismatch 0.05, under the threshold 3. *)
Definition fivePixels : DiffImageResult :=
  {| diff_image_file :=
       {| public_url := "https://host/run/a.diff.png";
          relative_path := "a.diff.png";
          absolute_path := "/tmp/diff/a.diff.png" |};
     diff_pixel_count := Js.of_Z 5;
     diff_pixel_fraction := Js.Number (chars "0.05");
     has_changed := true |}.

(** The collaborators of [envBySize], with one image that cannot be read. *)
Definition envUnreadable : Env :=
  {| fs_readFile := fun p => if String.eqb p "/tmp/bb.png" then None else Some (chars p);
     fs_writeFile := fs_writeFile envBySize;
     mkdirp_sync := mkdirp_sync envBySize;
     compareImages := compareImages envBySize;
     Jimp_read := Jimp_read envBySize;
     path_join := path_join envBySize;
     path_dirname := path_dirname envBySize;
     min_diff_pixel_count := min_diff_pixel_count envBySize |}.

(** The capabilities of the devices and browsers of the sample catalog, and
    a builder. *)
Definition deviceCaps (d : CbtDevice) : gmap string CbtClient.CapValue :=
  <["platform"%string := CbtClient.CapString (dev_version d)]>
    (<["record_video"%string := CbtClient.CapBool false]> ∅).
Definition browserCaps (b : CbtBrowser) : gmap string CbtClient.CapValue :=
  <["browserName"%string := CbtClient.CapString (br_type b)]>
    (<["version"%string := CbtClient.CapString (br_api_name b)]> ∅).
Definition builder : CbtClient.Builder :=
  {| CbtClient.server := None;
     CbtClient.capabilities := <["version"%string := CbtClient.CapString "any"]> ∅ |}.

(** The ranks of the candidates of the sample catalog. *)
Definition rank (c : CbtUserAgent) : RankKey :=
  {| key_device_version :=
       if String.eqb (dev_version (device c)) "Windows 10" then [10%Z] else [7%Z];
     key_browser_version :=
       if String.eqb (br_api_name (browser c)) "Chrome64x64"
       then [64; 0; 3282]%Z else [63; 0; 1]%Z;
     key_sort_order :=
       if String.eqb (dev_version (device c)) "Windows 10" then 7%Z else 3%Z |}.



End Sample.

(* ===================================================================== *)
(** * Facts about numbers *)
(* ===================================================================== *)





Lemma shr_1_nonneg mrs : (0 <= shr_m mrs)%Z -> (0 <= shr_m (shr_1 mrs))%Z.
Proof.
  destruct mrs as [m r s]. simpl. destruct m as [|p|p]; simpl; try lia.
  - destruct p; simpl; lia.
Qed.

Lemma iter_shr_1_nonneg p : forall mrs,
  (0 <= shr_m mrs)%Z -> (0 <= shr_m (SpecFloat.iter_pos shr_1 p mrs))%Z.
Proof.
  induction p as [p IH|p IH|]; intros mrs H; simpl.
  - apply IH, IH. by apply shr_1_nonneg.
  - by apply IH, IH.
  - by apply shr_1_nonneg.
Qed.

Lemma shr_fexp_nonneg m e l :
  (0 <= m)%Z -> (0 <= shr_m (fst (shr_fexp Js.prec Js.emax m e l)))%Z.
Proof.
  intros H. unfold shr_fexp, shr.
  assert (H0 : (0 <= shr_m (shr_record_of_loc m l))%Z).
  { destruct l as [|[]]; simpl; done. }
  destruct (_ - e)%Z; simpl; try done. by apply iter_shr_1_nonneg.
Qed.

Lemma round_nearest_even_nonneg m l : (0 <= m)%Z -> (0 <= round_nearest_even m l)%Z.
Proof. intros H. destruct l as [|[]]; simpl; try lia. destruct (Z.even m); lia. Qed.

Lemma binary_round_aux_signed s m e l :
  (0 <= m)%Z -> signed_as s (binary_round_aux Js.prec Js.emax s m e l).
Proof.
  intros H. unfold binary_round_aux.
  pose proof (shr_fexp_nonneg m e l H) as H1.
  destruct (shr_fexp Js.prec Js.emax m e l) as [mrs' e']. simpl in H1.
  pose proof (shr_fexp_nonneg _ e' loc_Exact
                (round_nearest_even_nonneg _ (loc_of_shr_record mrs') H1)) as H2.
  destruct (shr_fexp Js.prec Js.emax _ e' loc_Exact) as [mrs'' e'']. simpl in H2.
  destruct (shr_m mrs''); simpl; try done; try lia.
  by destruct (Z.leb _ _).
Qed.

(** A product of a number that is at least zero with a positive finite one is at least zero. *)
Lemma mul_nonneg x y :
  Js.ge x Js.pzero = true ->
  (exists m e, y = S754_finite false m e) ->
  Js.ge (Js.mul x y) Js.pzero = true.
Proof.
  intros Hx (m & e & ->).
  destruct x as [s|s| |s mx ex]; try done.
  - by destruct s.
  - destruct s; try done. unfold Js.mul, SFmul. simpl.
    assert (H0 : (0 <= Z.pos (mx * m))%Z) by lia.
    pose proof (binary_round_aux_signed false (Z.pos (mx * m)) (ex + e) loc_Exact H0) as H.
    destruct (binary_round_aux _ _ _ _ _ _) as [s'|s'| |s' m' e']; simpl in H; by subst.
Qed.

(* ===================================================================== *)
(** * Facts about [compareParsed] *)
(* ===================================================================== *)

Import Regex CbtApi ImageDiffer Pipeline.

Lemma forEach_orZeroAt src : forall pre dst,
  JsArray.forEach (fun v (_ : Js.number) idx => orZeroAt v idx) src (length pre) (pre ++ dst)
  = pre ++ padded src dst.
Proof.
  induction src as [|x src IH]; intros pre dst; simpl; [done|].
  unfold orZeroAt at 2.
  destruct dst as [|d dst].
  - rewrite app_nil_r. rewrite lookup_ge_None_2 by lia.
    rewrite (proj2 (Nat.ltb_ge _ _)) by lia. rewrite Nat.sub_diag. simpl.
    specialize (IH (pre ++ [Js.pzero]) []). rewrite length_app in IH. simpl in IH.
    rewrite Nat.add_1_r in IH. rewrite app_nil_r in IH. rewrite IH.
    by rewrite <- app_assoc.
  - rewrite list_lookup_middle by done.
    rewrite (proj2 (Nat.ltb_lt _ _)) by (rewrite length_app; simpl; lia).
    rewrite insert_app_r_alt by lia. rewrite Nat.sub_diag. simpl.
    specialize (IH (pre ++ [orZero d]) dst). rewrite length_app in IH. simpl in IH.
    rewrite Nat.add_1_r in IH. rewrite <- app_assoc in IH. simpl in IH. fold (orZero d). rewrite IH.
    by rewrite <- app_assoc.
Qed.

Lemma mapi_shift {A B} (f g : A -> nat -> B) (l : list A) : forall i j,
  (forall x k, f x (i + k) = g x (j + k)) ->
  JsArray.mapi f l i = JsArray.mapi g l j.
Proof.
  induction l as [|x l IH]; intros i j H; simpl; [done|].
  f_equal.
  - specialize (H x 0). by rewrite !Nat.add_0_r in H.
  - apply IH. intros y k. specialize (H y (S k)). by rewrite <- !Nat.add_succ_comm in H.
Qed.

Lemma mapi_deltas v1 : forall v2,
  JsArray.mapi
    (fun num idx => Js.sub num (match v2 !! idx with Some y => y | None => Js.NaN end))
    v1 0
  = deltas v1 v2.
Proof.
  induction v1 as [|x v1 IH]; intros v2; simpl; [done|].
  destruct v2 as [|y v2]; simpl.
  - f_equal. rewrite <- IH. apply mapi_shift. intros z k. simpl. by destruct k.
  - f_equal. rewrite <- IH. apply mapi_shift. intros z k. by simpl.
Qed.

Lemma compareParsed_unfold v1 v2 :
  compareParsed v1 v2 =
  let v2' := padded v1 v2 in
  let v1' := padded v2' v1 in
  match filter (fun num => Js.strict_ne num Js.pzero = true) (deltas v1' v2') with
  | d :: _ => Js.or d Js.pzero
  | [] => Js.pzero
  end.
Proof.
  unfold compareParsed.
  pose proof (forEach_orZeroAt v1 [] v2) as H1. simpl in H1. rewrite H1.
  pose proof (forEach_orZeroAt (padded v1 v2) [] v1) as H2. simpl in H2. rewrite H2.
  by rewrite mapi_deltas.
Qed.

Lemma filter_cons_firstDelta d ds :
  match filter (fun num => Js.strict_ne num Js.pzero = true) (d :: ds) with
  | d :: _ => Js.or d Js.pzero
  | [] => Js.pzero
  end =
  firstDelta d (match filter (fun num => Js.strict_ne num Js.pzero = true) ds with
  | d :: _ => Js.or d Js.pzero
  | [] => Js.pzero
  end).
Proof.
  rewrite filter_cons. unfold firstDelta.
  destruct (Js.strict_ne d Js.pzero) eqn:E.
  - rewrite decide_True by done. done.
  - rewrite decide_False by (by intros ?). done.
Qed.

Lemma compareParsed_lexCompare v1 : forall v2,
  compareParsed v1 v2 = lexCompare v1 v2.
Proof.
  intros v2. rewrite compareParsed_unfold. cbv zeta. revert v2.
  induction v1 as [|x v1 IH]; intros v2.
  - simpl. induction v2 as [|y v2 IH2]; [done|].
    simpl. rewrite filter_cons_firstDelta. simpl in IH2. by rewrite IH2.
  - destruct v2 as [|y v2]; simpl.
    + rewrite filter_cons_firstDelta. f_equal. specialize (IH []).
      destruct v1; simpl in *; apply IH.
    + rewrite filter_cons_firstDelta. f_equal. apply IH.
Qed.

Lemma lexCompare_not_nan v1 : forall v2, Js.is_nan (lexCompare v1 v2) = false.
Proof.
  assert (F : forall d r, Js.is_nan r = false -> Js.is_nan (firstDelta d r) = false).
  { intros d r Hr. unfold firstDelta. destruct (Js.strict_ne d Js.pzero); [|done]. by destruct d. }
  assert (R : forall v2, Js.is_nan (lexRight v2) = false).
  { induction v2; simpl; [done|]. by apply F. }
  induction v1 as [|x v1 IH]; intros v2; simpl; [apply R|].
  destruct v2; apply F; apply IH.
Qed.

Lemma orZero_nanToZero x : orZero (nanToZero x) = orZero x.
Proof. by destruct x. Qed.

Lemma lexCompare_nanToZero v1 : forall v2,
  Forall (fun y => Js.is_nan y = false) (drop (length v1) v2) ->
  lexCompare v1 v2 = lexCompare (map nanToZero v1) (map nanToZero v2).
Proof.
  induction v1 as [|x v1 IH]; intros v2 H; simpl.
  - rewrite drop_0 in H. induction H as [|y w Hy H IH2]; simpl; [done|].
    rewrite IH2. by destruct y.
  - destruct v2 as [|y v2]; simpl.
    + rewrite orZero_nanToZero. f_equal. apply (IH []). rewrite drop_nil. constructor.
    + rewrite !orZero_nanToZero. f_equal. by apply IH.
Qed.

Lemma lexCompare_prefix_nanToZero v1 : forall v2,
  lexCompare v1 v2 =
  lexCompare (map nanToZero v1) (map nanToZero (take (length v1) v2) ++ drop (length v1) v2).
Proof.
  induction v1 as [|x v1 IH]; intros v2; simpl.
  - by rewrite ?take_0, ?drop_0.
  - destruct v2 as [|y v2]; simpl.
    + rewrite orZero_nanToZero. f_equal. specialize (IH []). by rewrite ?take_nil, ?drop_nil in IH.
    + rewrite !orZero_nanToZero. f_equal. apply IH.
Qed.

Lemma lexCompare_masked v1 : forall pre post,
  length v1 <= length pre ->
  lexCompare v1 (pre ++ Js.NaN :: post) = lexCompare v1 (pre ++ [Js.NaN]).
Proof.
  induction v1 as [|x v1 IH]; intros pre post H; simpl.
  - clear H. induction pre as [|y pre IH2]; simpl; [done|]. by rewrite IH2.
  - destruct pre as [|y pre]; simpl in *; [lia|]. f_equal. apply IH. lia.
Qed.






Lemma sub_diag x : Js.is_zero (Js.sub x x) = true \/ Js.sub x x = Js.NaN.
Proof.
  destruct x as [s|s| |s m e]; simpl; auto.
  - left. by destruct s.
  - right. by destruct s.
  - left. unfold Js.sub, SFsub. by rewrite Z.sub_diag.
Qed.

Lemma lexCompare_diag v : lexCompare v v = Js.pzero.
Proof.
  induction v as [|x v IH]; simpl; [done|]. rewrite IH.
  destruct (sub_diag (orZero x)) as [H|H].
  - by destruct (Js.sub _ _).
  - by rewrite H.
Qed.



(* ===================================================================== *)
(** * Facts about the patterns of [parseVersionNumber] *)
(* ===================================================================== *)

#[local] Arguments char_eq : simpl never.
#[local] Arguments is_digit : simpl never.
#[local] Arguments Ascii.eqb : simpl never.

Lemma ci_eqb_length p : forall s, ci_eqb p s = true -> length s = length p.
Proof.
  induction p as [|c p IH]; intros [|d s] H; simpl in *; try done.
  apply andb_true_iff in H as [_ H]. f_equal. by apply IH.
Qed.

Lemma run_Lit p : forall i s k,
  run true (Lit p) i s k =
  if starts_with_ci p s then k (i + length p) (drop (length p) s) else None.
Proof.
  unfold starts_with_ci.
  induction p as [|c p IH]; intros i s k; simpl.
  - rewrite ?take_0, ?drop_0, Nat.add_0_r. done.
  - destruct s as [|d s]; simpl; [done|].
    destruct (char_eq true c d); simpl; [|done].
    rewrite IH. by rewrite Nat.add_succ_r.
Qed.

Lemma starts_with_ci_exact p s :
  starts_with_ci p s && bool_decide (drop (length p) s = []) = ci_eqb p s.
Proof.
  unfold starts_with_ci. revert s.
  induction p as [|c p IH]; intros [|d s]; simpl; try done.
  rewrite <- (IH s). by rewrite andb_assoc.
Qed.

Lemma exec_firstGood ic r (good : list ascii -> bool) :
  (forall i t, run ic r i t K0 = if good t then Some (i + length t, @nil ascii) else None) ->
  forall s i,
    exec ic r i s =
    match firstGood good s with
    | Some k => Some (i + k, i + length s, [])
    | None => None
    end.
Proof.
  intros Hrun. induction s as [|c s IH]; intros i; simpl; fold K0; rewrite Hrun.
  - destruct (good []); simpl; [by rewrite Nat.add_0_r|done].
  - destruct (good (c :: s)); simpl; [by rewrite Nat.add_0_r|].
    rewrite IH. destruct (firstGood good s); simpl; [|done].
    by rewrite !Nat.add_succ_r.
Qed.

Lemma firstGood_fixed n (test : list ascii -> bool) :
  (forall t, test t = true -> length t = n) ->
  forall s,
    firstGood test s =
    if (n <=? length s) && test (drop (length s - n) s)
    then Some (length s - n) else None.
Proof.
  intros Hlen. induction s as [|c s IH].
  - simpl. destruct (test []) eqn:E.
    + pose proof (Hlen _ E) as L. simpl in L. subst n. done.
    + destruct n; simpl; [|done]. by rewrite ?E.
  - cbn [firstGood]. destruct (test (c :: s)) eqn:E.
    + pose proof (Hlen _ E) as L. subst n.
      rewrite Nat.leb_refl, Nat.sub_diag, drop_0, E. done.
    + rewrite IH. cbn [length]. destruct (Nat.leb_spec n (length s)) as [L|L].
      * rewrite (proj2 (Nat.leb_le n (S (length s)))) by lia.
        replace (S (length s) - n) with (S (length s - n)) by lia.
        rewrite skipn_cons. cbn [andb]. by destruct (test _).
      * cbn [andb option_map]. destruct (Nat.leb_spec n (S (length s))) as [L'|L']; [|done].
        assert (n = S (length s)) as -> by lia. rewrite Nat.sub_diag, drop_0, E. done.
Qed.

Lemma replace_suffix r n (test : list ascii -> bool) :
  (forall t, test t = true -> length t = n) ->
  (forall i t, run true r i t K0 = if test t then Some (i + length t, @nil ascii) else None) ->
  forall s, replace true r [] s = stripSuffixBy n test s.
Proof.
  intros Hlen Hrun s. unfold replace, stripSuffixBy.
  rewrite (exec_firstGood true r test Hrun), (firstGood_fixed n test Hlen).
  destruct (_ && _); [|done]. simpl. by rewrite app_nil_r.
Qed.

Lemma replace_Lit_Eol p s : replace true (Seq (Lit p) Eol) [] s = stripSuffix p s.
Proof.
  apply replace_suffix.
  - apply ci_eqb_length.
  - intros i t. cbn [run]. rewrite run_Lit. unfold K0. rewrite <- starts_with_ci_exact.
    destruct (starts_with_ci p t) eqn:E; simpl; [|done].
    destruct (drop (length p) t) eqn:D; simpl; [|done].
    f_equal. f_equal. apply drop_nil_inv in D.
    unfold starts_with_ci in E. apply ci_eqb_length in E. rewrite length_take in E. lia.
Qed.

Lemma replace_service_pack s :
  replace true re_service_pack [] s = stripSuffixBy 15 isServicePack s.
Proof.
  apply replace_suffix.
  - intros t H. unfold isServicePack in H. apply andb_true_iff in H as [H1 H2].
    apply ci_eqb_length in H1. rewrite length_take in H1.
    destruct (drop 14 t) as [|d [|]] eqn:D; try done.
    apply (f_equal length) in D. rewrite length_drop in D. simpl in *. lia.
  - intros i t. unfold re_service_pack. cbn [run]. rewrite run_Lit.
    unfold isServicePack, starts_with_ci. change (length (chars " Service Pack ")) with 14.
    destruct (ci_eqb _ (take 14 t)) eqn:E; simpl; [|done].
    apply ci_eqb_length in E. rewrite length_take in E.
    destruct (drop 14 t) as [|d [|]] eqn:D; try done.
    + destruct (is_digit d); [|done]. unfold K0. f_equal. f_equal.
      apply (f_equal length) in D. rewrite length_drop in D. simpl in *. lia.
    + by destruct (is_digit d).
Qed.

Lemma run_Seq ic r1 r2 i s k :
  run ic (Seq r1 r2) i s k = run ic r1 i s (fun j t => run ic r2 j t k).
Proof. reflexivity. Qed.

Lemma run_Opt ic r i s k :
  run ic (Opt r) i s k =
  match run ic r i s (fun j t => if j =? i then None else k j t) with
  | Some x => Some x
  | None => k i s
  end.
Proof. reflexivity. Qed.

Lemma run_Alt ic r1 r2 i s k :
  run ic (Alt r1 r2) i s k =
  match run ic r1 i s k with
  | Some x => Some x
  | None => run ic r2 i s k
  end.
Proof. reflexivity. Qed.

Lemma exec_Bol_pos ic r : forall s i, 0 < i -> exec ic (Seq Bol r) i s = None.
Proof.
  induction s as [|c s IH]; intros i Hi; cbn [exec run];
    rewrite (proj2 (Nat.eqb_neq i 0)) by lia; [done|].
  apply IH. lia.
Qed.

Lemma replace_Bol ic r repl s :
  replace ic (Seq Bol r) repl s =
  match run ic r 0 s K0 with
  | Some (_, t) => repl ++ t
  | None => s
  end.
Proof.
  unfold replace. destruct s as [|c s]; cbn [exec run Nat.eqb]; fold K0.
  - destruct (run ic r 0 [] K0) as [[j t]|]; [|done]. by rewrite take_0.
  - destruct (run ic r 0 (c :: s) K0) as [[j t]|]; [by rewrite take_0|].
    by rewrite exec_Bol_pos by lia.
Qed.

Lemma char_eq_space d : char_eq true " " d = Ascii.eqb " " d.
Proof. by destruct d as [[] [] [] [] [] [] [] []]. Qed.

Lemma dropSpace_eqb d t :
  dropSpace (d :: t) = if Ascii.eqb " " d then t else d :: t.
Proof. by destruct d as [[] [] [] [] [] [] [] []]. Qed.

Lemma run_opt_space j t :
  exists j', run true (Opt (Chr " ")) j t K0 = Some (j', dropSpace t).
Proof.
  cbn [run]. destruct t as [|d t]; [by exists j|].
  rewrite char_eq_space, dropSpace_eqb.
  rewrite (proj2 (Nat.eqb_neq (S j) j)) by lia.
  destruct (Ascii.eqb " " d); [by exists (S j)|by exists j].
Qed.

Lemma starts_with_ci_app p q s :
  starts_with_ci (p ++ q) s =
  starts_with_ci p s && starts_with_ci q (drop (length p) s).
Proof.
  unfold starts_with_ci. revert s.
  induction p as [|c p IH]; intros s; cbn [app length]; [by rewrite drop_0|].
  destruct s as [|d s].
  - cbn. destruct q; reflexivity.
  - rewrite firstn_cons, skipn_cons. cbn [ci_eqb]. rewrite (firstn_cons (length p) d s).
    cbn [ci_eqb]. rewrite IH. by rewrite andb_assoc.
Qed.

(** [(?:p)?q ?] at the start of the text. *)
Lemma replace_opt_prefix p q repl s :
  p <> [] ->
  replace true (Seq Bol (Seq (Opt (Lit p)) (Seq (Lit q) (Opt (Chr " "))))) repl s =
  mapPrefix [p ++ q; q] repl s.
Proof.
  intros Hp. rewrite replace_Bol. unfold mapPrefix. cbn [List.find].
  rewrite starts_with_ci_app.
  assert (Hq : forall j t, exists j',
    run true (Seq (Lit q) (Opt (Chr " "))) j t K0 =
    if starts_with_ci q t then Some (j', dropSpace (drop (length q) t)) else None).
  { intros j t. rewrite run_Seq, run_Lit. destruct (starts_with_ci q t); [|by exists 0].
    destruct (run_opt_space (j + length q) (drop (length q) t)) as [j' ->]. by exists j'. }
  rewrite run_Seq, run_Opt, run_Lit.
  destruct (starts_with_ci p s) eqn:E1; cbn [andb].
  - rewrite (proj2 (Nat.eqb_neq (0 + length p) 0)) by (destruct p; [done|simpl; lia]).
    destruct (Hq (0 + length p) (drop (length p) s)) as [j' ->].
    destruct (starts_with_ci q (drop (length p) s)).
    + by rewrite length_app, drop_drop.
    + destruct (Hq 0 s) as [j'' ->]. by destruct (starts_with_ci q s).
  - destruct (Hq 0 s) as [j'' ->]. by destruct (starts_with_ci q s).
Qed.

Lemma run_altLits (k : cont) :
  (forall j t, is_Some (k j t)) ->
  forall alts p i s,
    run true (altLits p alts) i s k =
    match List.find (fun p => starts_with_ci p s) (p :: alts) with
    | Some p => k (i + length p) (drop (length p) s)
    | None => None
    end.
Proof.
  intros Hk. induction alts as [|q alts IH]; intros p i s; cbn [altLits List.find].
  - rewrite run_Lit. by destruct (starts_with_ci p s).
  - rewrite run_Alt, run_Lit. destruct (starts_with_ci p s).
    + by destruct (Hk (i + length p) (drop (length p) s)) as [x ->].
    + apply IH.
Qed.

(** [(?:p|alts...) ?] at the start of the text. *)
Lemma replace_alt_prefix p alts repl s :
  replace true (Seq Bol (Seq (altLits p alts) (Opt (Chr " ")))) repl s =
  mapPrefix (p :: alts) repl s.
Proof.
  rewrite replace_Bol. unfold mapPrefix. rewrite run_Seq.
  rewrite (run_altLits (fun j t => run true (Opt (Chr " ")) j t K0)).
  - destruct (List.find _ _) as [p'|]; [|done].
    by destruct (run_opt_space (0 + length p') (drop (length p') s)) as [j' ->].
  - intros j t. destruct (run_opt_space j t) as [j' ->]. done.
Qed.

Lemma run_Plus ic r i s k :
  run ic (Plus r) i s k = run ic r i s (fun j t => more (run ic r) k (length t) j t).
Proof. reflexivity. Qed.

Lemma dropZeros_length t : length (dropZeros t) <= length t.
Proof. induction t as [|c t IH]; simpl; [done|]. destruct (Ascii.eqb "0" c); simpl; lia. Qed.

Lemma run_Chr_false c i s k :
  run false (Chr c) i s k =
  match s with
  | d :: s' => if Ascii.eqb c d then k (S i) s' else None
  | [] => None
  end.
Proof. reflexivity. Qed.

Lemma more_zeros k : averse k ->
  forall fuel j t, length t <= fuel ->
    exists j', more (run false (Chr "0")) k fuel j t = k j' (dropZeros t) /\
               j' + length (dropZeros t) = j + length t.
Proof.
  intros Hk. induction fuel as [|fuel IH]; intros j t Hlen.
  - destruct t; [|simpl in Hlen; lia]. by exists j.
  - cbn [more]. rewrite run_Chr_false. destruct t as [|c t]; [by exists j|].
    cbn [dropZeros]. destruct (Ascii.eqb "0" c) eqn:E.
    + rewrite (proj2 (Nat.eqb_neq (S j) j)) by lia.
      destruct (IH (S j) t) as (j' & -> & Hj); [simpl in Hlen; lia|].
      exists j'. split; [|simpl; lia].
      destruct (k j' (dropZeros t)); [done|].
      apply Ascii.eqb_eq in E. subst c. apply Hk.
    + by exists j.
Qed.

Lemma run_zeroGroupRe k : averse k ->
  forall j t, exists j',
    run false zeroGroupRe j t k =
    match t with
    | c :: d :: t2 =>
        if Ascii.eqb "." c && Ascii.eqb "0" d then k j' (dropZeros t2) else None
    | _ => None
    end /\
    j' + length (dropZeros (drop 2 t)) = j + length t.
Proof.
  intros Hk j t. unfold zeroGroupRe. rewrite run_Seq, run_Chr_false.
  destruct t as [|c [|d t2]].
  - exists j. done.
  - exists (S j). split; [|simpl; lia]. destruct (Ascii.eqb "." c); [|done].
    by rewrite run_Plus, run_Chr_false.
  - destruct (more_zeros k Hk (length t2) (S (S j)) t2) as (j' & Hm & Hj); [done|].
    exists j'. split; [|simpl; rewrite ?drop_0; lia].
    destruct (Ascii.eqb "." c); [|done]. rewrite run_Plus, run_Chr_false.
    destruct (Ascii.eqb "0" d); [|done]. done.
Qed.

Lemma more_groups : forall fuel j t, length t <= fuel ->
  more (run false zeroGroupRe) atEnd fuel j t =
  if isGroups fuel t then Some (j + length t, @nil ascii) else None.
Proof.
  induction fuel as [|fuel IH]; intros j t Hlen.
  - destruct t; [|simpl in Hlen; lia]. cbn. by rewrite Nat.add_0_r.
  - cbn [more].
    set (k := fun j' t' => if j' =? j then None else more (run false zeroGroupRe) atEnd fuel j' t').
    assert (Hk : averse k).
    { intros j1 t1. unfold k. destruct (j1 =? j); [done|].
      destruct fuel; [done|]. cbn [more].
      destruct (run_zeroGroupRe
                  (fun j' t' => if j' =? j1 then None
                                else more (run false zeroGroupRe) atEnd fuel j' t'))
        with (j := j1) (t := "0"%char :: t1) as (j' & H & _).
      - intros j2 t2. destruct (j2 =? j1); [done|]. destruct fuel; [done|]. cbn [more].
        unfold zeroGroupRe at 1. by rewrite run_Seq, run_Chr_false.
      - rewrite H. by destruct t1. }
    destruct (run_zeroGroupRe k Hk j t) as (j' & -> & Hj).
    destruct t as [|c [|d t2]]; [by cbn; rewrite Nat.add_0_r|done|].
    cbn [isGroups]. destruct (Ascii.eqb "." c && Ascii.eqb "0" d); [|done]. cbn [andb].
    unfold k. simpl in Hj, Hlen. rewrite ?drop_0 in Hj.
    pose proof (dropZeros_length t2) as Hd.
    rewrite (proj2 (Nat.eqb_neq j' j)) by lia.
    rewrite IH by lia. destruct (isGroups fuel (dropZeros t2)); [|done].
    cbn [length]. do 2 f_equal. lia.
Qed.

Lemma isGroups_fuel : forall f1 f2 t,
  length t <= f1 -> length t <= f2 -> isGroups f1 t = isGroups f2 t.
Proof.
  induction f1 as [|f1 IH]; intros f2 t H1 H2.
  - destruct t; [|simpl in H1; lia]. by destruct f2.
  - destruct t as [|c [|d t2]]; [by destruct f2|by destruct f2|].
    destruct f2 as [|f2]; [simpl in H2; lia|].
    cbn [isGroups]. pose proof (dropZeros_length t2). simpl in H1, H2.
    by rewrite (IH f2) by lia.
Qed.

Lemma isGroups_step f c d t2 :
  isGroups (S f) (c :: d :: t2) =
  Ascii.eqb "." c && Ascii.eqb "0" d && isGroups f (dropZeros t2).
Proof. reflexivity. Qed.

Lemma run_zero_groups i t :
  run false re_zero_groups i t K0 =
  if isTrailer t then Some (i + length t, @nil ascii) else None.
Proof.
  unfold re_zero_groups. rewrite run_Seq, run_Plus. fold atEnd. fold zeroGroupRe.
  set (k := fun j t => more (run false zeroGroupRe) atEnd (length t) j t).
  assert (Hk : averse k).
  { intros j1 t1. unfold k. cbn [length more]. unfold zeroGroupRe at 1.
    by rewrite run_Seq, run_Chr_false. }
  destruct (run_zeroGroupRe k Hk i t) as (j' & -> & Hj).
  destruct t as [|c [|d t2]]; [done|done|].
  unfold isTrailer. cbn [length]. rewrite isGroups_step.
  destruct (Ascii.eqb "." c && Ascii.eqb "0" d); [|done]. cbn [andb].
  unfold k. rewrite more_groups by done. simpl in Hj. rewrite ?drop_0 in Hj.
  pose proof (dropZeros_length t2) as Hd.
  rewrite (isGroups_fuel (length (dropZeros t2)) (S (length t2)) (dropZeros t2)) by lia.
  destruct (isGroups _ _); [|done]. do 2 f_equal. lia.
Qed.

Lemma dropZeros_split t :
  exists n, t = replicate n "0"%char ++ dropZeros t.
Proof.
  induction t as [|c t [n IH]]; [by exists 0|]. cbn [dropZeros].
  destruct (Ascii.eqb "0" c) eqn:E; [|by exists 0].
  apply Ascii.eqb_eq in E. subst c. exists (S n). simpl. by f_equal.
Qed.

Lemma Groups_head t : Groups t -> t = [] \/ exists t', t = "."%char :: t'.
Proof. intros [|z t' _]; [by left|right]. by eexists. Qed.

Lemma dropZeros_Groups t : Groups t -> dropZeros t = t.
Proof. intros H. by destruct (Groups_head t H) as [->|[t' ->]]. Qed.

Lemma dropZeros_replicate n t : dropZeros (replicate n "0"%char ++ t) = dropZeros t.
Proof. induction n as [|n IH]; [done|]. simpl. by rewrite IH. Qed.

Lemma isGroups_Groups : forall fuel t,
  length t <= fuel -> (isGroups fuel t = true <-> Groups t).
Proof.
  induction fuel as [|fuel IH]; intros t Hlen.
  - destruct t; [|simpl in Hlen; lia]. split; [constructor|done].
  - destruct t as [|c [|d t2]].
    + split; [constructor|done].
    + split; [done|]. intros H. inversion H.
    + cbn [isGroups]. pose proof (dropZeros_length t2) as Hd. simpl in Hlen. split.
      * intros H. apply andb_true_iff in H as [H H3]. apply andb_true_iff in H as [H1 H2].
        apply Ascii.eqb_eq in H1, H2. subst c d.
        destruct (dropZeros_split t2) as [n Hn]. rewrite Hn.
        apply (Groups_cons n). apply IH; [lia|done].
      * intros H. inversion H as [|z t' Ht' E]. unfold group in E. simpl in E.
        inversion E; subst. rewrite !Ascii.eqb_refl. simpl.
        rewrite dropZeros_replicate, (dropZeros_Groups _ Ht').
        apply IH; [|done]. rewrite length_app in Hlen. lia.
Qed.

Lemma isTrailer_Groups t : isTrailer t = true <-> t <> [] /\ Groups t.
Proof.
  destruct t as [|c t]; [split; [done|by intros [? _]]|].
  unfold isTrailer. rewrite isGroups_Groups by done. split; [done|by intros [_ ?]].
Qed.

Lemma Groups_app a b : Groups a -> Groups b -> Groups (a ++ b).
Proof.
  induction 1 as [|z t Ht IH]; intros Hb; [done|].
  rewrite <- app_assoc. constructor. by apply IH.
Qed.

Lemma Groups_group z : Groups (group z).
Proof. rewrite <- (app_nil_r (group z)). constructor. constructor. Qed.

Lemma Groups_snoc_inv t :
  Groups t -> t <> [] -> exists t' z, t = t' ++ group z /\ Groups t'.
Proof.
  induction 1 as [|z t Ht IH]; intros Hne; [done|].
  destruct t as [|c t].
  - exists [], z. split; [by rewrite app_nil_r|constructor].
  - destruct IH as (t' & z' & E & Ht'); [done|]. rewrite E.
    exists (group z ++ t'), z'. split; [by rewrite app_assoc|by constructor].
Qed.

Lemma not_dot_in_zeros n a b : replicate n "0"%char <> a ++ "."%char :: b.
Proof.
  intros E. assert (H : "."%char ∈ replicate n "0"%char).
  { rewrite E. apply elem_of_app. right. left. }
  apply elem_of_replicate in H as [H _]. discriminate.
Qed.

Lemma Groups_app_group_inv x : Groups x -> forall a z, x = a ++ group z -> Groups a.
Proof.
  induction 1 as [|z' t Ht IH]; intros a z E.
  - by destruct a.
  - destruct a as [|c a]; [constructor|].
    unfold group in E. simpl in E. injection E as <- E.
    change ("0"%char :: replicate z' "0"%char ++ t) with (replicate (S z') "0"%char ++ t) in E.
    apply app_eq_inv in E as [(k & E1 & E2)|(k & E1 & E2)].
    + destruct k as [|c' k].
      * rewrite app_nil_r in E1. subst a. simpl in E2. subst t.
        change ("."%char :: replicate (S z') "0"%char) with (group z').
        apply Groups_group.
      * simpl in E2. injection E2 as <- E2. exfalso.
        by apply (not_dot_in_zeros (S z') a k).
    + subst a. change ("."%char :: replicate (S z') "0"%char ++ k) with (group z' ++ k).
      constructor. by apply (IH k z).
Qed.

Lemma zeroGroup_zeros n r seen :
  zeroGroup (replicate n "0"%char ++ "."%char :: r) seen =
  if seen || (0 <? n) then Some r else None.
Proof.
  revert seen. induction n as [|n IH]; intros seen; cbn [replicate app zeroGroup].
  - by rewrite orb_false_r.
  - rewrite Ascii.eqb_refl, IH. simpl. by rewrite orb_true_r.
Qed.

Lemma zeroGroup_inv r : forall seen r',
  zeroGroup r seen = Some r' ->
  exists n, r = replicate n "0"%char ++ "."%char :: r' /\ (seen = true \/ 0 < n).
Proof.
  induction r as [|c r IH]; intros seen r' H; [done|]. cbn [zeroGroup] in H.
  destruct (Ascii.eqb c "0") eqn:E0.
  - apply Ascii.eqb_eq in E0. subst c. destruct (IH _ _ H) as (n & -> & _).
    exists (S n). split; [done|right; lia].
  - destruct (Ascii.eqb c ".") eqn:E1; [|done]. apply Ascii.eqb_eq in E1. subst c.
    destruct seen; [|done]. injection H as <-. exists 0. split; [done|by left].
Qed.

Lemma rev_group z : rev (group z) = replicate (S z) "0"%char ++ ["."%char].
Proof.
  unfold group.
  change ("."%char :: replicate (S z) "0"%char)
    with (["."%char] ++ replicate (S z) "0"%char).
  rewrite rev_app_distr. f_equal. clear. induction (S z) as [|n IH]; [done|].
  simpl. rewrite IH. clear. induction n as [|n IH]; [done|]. simpl. by rewrite IH.
Qed.

Lemma zeroGroup_snoc s' z : zeroGroup (rev (s' ++ group z)) false = Some (rev s').
Proof.
  rewrite rev_app_distr, rev_group, <- app_assoc. simpl app at 2.
  by rewrite zeroGroup_zeros.
Qed.

Lemma zeroGroup_rev_inv s r' :
  zeroGroup (rev s) false = Some r' ->
  exists s' z, s = s' ++ group z /\ r' = rev s'.
Proof.
  intros H. apply zeroGroup_inv in H as (n & E & [?|Hn]); [done|].
  destruct n as [|z]; [lia|]. exists (rev r'), z. split; [|by rewrite rev_involutive].
  apply (f_equal (@rev ascii)) in E. rewrite rev_involutive in E. rewrite E.
  rewrite rev_app_distr. cbn [rev]. rewrite <- app_assoc. f_equal.
  rewrite <- (rev_involutive (["."%char] ++ rev (replicate (S z) "0"%char))).
  rewrite rev_app_distr, rev_involutive. change (rev ["."%char]) with ["."%char].
  rewrite <- rev_group. by rewrite rev_involutive.
Qed.

Lemma firstGood_Some (good : list ascii -> bool) : forall s i,
  firstGood good s = Some i ->
  i <= length s /\ good (drop i s) = true /\ forall j, j < i -> good (drop j s) = false.
Proof.
  induction s as [|c s IH]; intros i H; cbn [firstGood] in H.
  - destruct (good []) eqn:E; [|done]. injection H as <-.
    split; [done|]. split; [done|]. intros j Hj. lia.
  - destruct (good (c :: s)) eqn:E.
    + injection H as <-. split; [simpl; lia|]. split; [done|]. intros j Hj. lia.
    + destruct (firstGood good s) as [i'|] eqn:F; [|done]. injection H as <-.
      destruct (IH i' eq_refl) as (H1 & H2 & H3).
      split; [simpl; lia|]. split; [done|].
      intros [|j] Hj; [done|]. rewrite skipn_cons. apply H3. lia.
Qed.

Lemma firstGood_None (good : list ascii -> bool) : forall s,
  firstGood good s = None -> forall i, good (drop i s) = false.
Proof.
  induction s as [|c s IH]; intros H i; cbn [firstGood] in H.
  - destruct (good []) eqn:E; [done|]. by rewrite drop_nil.
  - destruct (good (c :: s)) eqn:E; [done|].
    destruct (firstGood good s) eqn:F; [done|].
    destruct i as [|i]; [done|]. rewrite skipn_cons. by apply IH.
Qed.

Lemma firstGood_intro (good : list ascii -> bool) : forall s i,
  good (drop i s) = true -> (forall j, j < i -> good (drop j s) = false) ->
  i <= length s -> firstGood good s = Some i.
Proof.
  induction s as [|c s IH]; intros i H1 H2 H3; cbn [firstGood].
  - simpl in H3. assert (i = 0) as -> by lia. rewrite drop_0 in H1. by rewrite H1.
  - destruct i as [|i].
    + rewrite drop_0 in H1. by rewrite H1.
    + assert (H0 : good (c :: s) = false) by (by apply (H2 0); lia).
      rewrite H0. rewrite skipn_cons in H1.
      rewrite (IH i); [done|done| |simpl in H3; lia].
      intros j Hj. specialize (H2 (S j)). rewrite skipn_cons in H2. apply H2. lia.
Qed.

(** With a trailing group [g], the suffixes of [s' ++ g] that are trailers
    are the suffixes of [s'] made of groups, followed by [g]. *)
Lemma isTrailer_drop_snoc s' z i :
  isTrailer (drop i (s' ++ group z)) = true <->
  i <= length s' /\ Groups (drop i s').
Proof.
  rewrite isTrailer_Groups. split.
  - intros [Hne HG]. destruct (Nat.le_gt_cases i (length s')) as [Hi|Hi].
    + split; [done|]. rewrite drop_app_le in HG by done.
      by apply (Groups_app_group_inv _ HG (drop i s') z).
    + exfalso. rewrite drop_app_ge in HG, Hne by lia.
      destruct (i - length s') as [|n] eqn:En; [lia|].
      unfold group in HG, Hne. rewrite skipn_cons in HG, Hne.
      rewrite drop_replicate in HG, Hne.
      destruct (S z - n) as [|m]; [done|].
      apply Groups_head in HG as [?|[t' ?]]; done.
  - intros [Hi HG]. rewrite drop_app_le by done. split.
    + intros E. apply app_eq_nil in E as [_ E]. done.
    + apply Groups_app; [done|apply Groups_group].
Qed.

Lemma strip_firstGood : forall fuel s, length s <= fuel ->
  rev (stripGroups fuel (rev s)) =
  match firstGood isTrailer s with
  | Some i => take i s
  | None => s
  end.
Proof.
  induction fuel as [|fuel IH]; intros s Hlen.
  - destruct s; [done|simpl in Hlen; lia].
  - cbn [stripGroups]. destruct (zeroGroup (rev s) false) as [r'|] eqn:Z.
    + apply zeroGroup_rev_inv in Z as (s' & z & -> & ->).
      rewrite IH by (rewrite length_app in Hlen; simpl in Hlen; lia).
      destruct (firstGood isTrailer s') as [i|] eqn:F.
      * apply firstGood_Some in F as (F1 & F2 & F3).
        rewrite (firstGood_intro isTrailer (s' ++ group z) i).
        -- by rewrite take_app_le.
        -- apply isTrailer_drop_snoc. split; [done|]. by apply isTrailer_Groups in F2 as [_ ?].
        -- intros j Hj. destruct (isTrailer (drop j (s' ++ group z))) eqn:E; [|done].
           apply isTrailer_drop_snoc in E as [E1 E2].
           rewrite <- (F3 j Hj). symmetry. apply isTrailer_Groups. split; [|done].
           intros E. apply (f_equal length) in E. rewrite length_drop in E. simpl in E. lia.
        -- rewrite length_app. lia.
      * rewrite (firstGood_intro isTrailer (s' ++ group z) (length s')).
        -- by rewrite take_app_length.
        -- apply isTrailer_drop_snoc. split; [done|]. rewrite drop_all. constructor.
        -- intros j Hj. destruct (isTrailer (drop j (s' ++ group z))) eqn:E; [|done].
           apply isTrailer_drop_snoc in E as [E1 E2].
           rewrite <- (firstGood_None isTrailer s' F j). symmetry.
           apply isTrailer_Groups. split; [|done].
           intros E. apply (f_equal length) in E. rewrite length_drop in E. simpl in E. lia.
        -- rewrite length_app. lia.
    + rewrite rev_involutive.
      destruct (firstGood isTrailer s) as [i|] eqn:F; [|done]. exfalso.
      apply firstGood_Some in F as (F1 & F2 & F3).
      apply isTrailer_Groups in F2 as [Hne HG].
      destruct (Groups_snoc_inv _ HG Hne) as (t' & z & E & _).
      rewrite <- (take_drop i s), E, app_assoc, zeroGroup_snoc in Z. done.
Qed.

Lemma replace_all_zero_groups s :
  replace_all false re_zero_groups [] s = stripZeroGroups s.
Proof.
  unfold stripZeroGroups. rewrite strip_firstGood by done.
  unfold replace_all. cbn [replace_from].
  rewrite (exec_firstGood false re_zero_groups isTrailer run_zero_groups).
  destruct (firstGood isTrailer s) as [i|] eqn:F; [|done].
  apply firstGood_Some in F as (F1 & F2 & F3).
  assert (Hi : i < length s).
  { apply isTrailer_Groups in F2 as [Hne _]. destruct (Nat.eq_dec i (length s)) as [->|]; [|lia].
    by rewrite drop_all in Hne. }
  simpl. rewrite Nat.sub_0_r.
  rewrite (proj2 (Nat.eqb_neq (length s) i)) by lia.
  destruct (length s) as [|f]; [lia|]. cbn [replace_from exec].
  rewrite run_zero_groups. simpl. by rewrite app_nil_r.
Qed.

Lemma normalizeVersion_described s :
  normalizeVersion s = Pipeline.normalize sourceMacPrefixes s.
Proof.
  unfold normalizeVersion, Pipeline.normalize. cbv zeta.
  unfold re_64bit, re_beta, re_preview, re_home.
  rewrite !replace_Lit_Eol, replace_service_pack.
  rewrite (replace_opt_prefix (chars "Windows ") (chars "XP")) by done.
  rewrite (replace_opt_prefix (chars "Windows ") (chars "Vista")) by done.
  rewrite (replace_alt_prefix (chars "Windows") [chars "Win"]).
  rewrite (replace_alt_prefix (chars "Mac OS X")
             [chars "Mac OSX"; chars "MacOS"; chars "OSX"; chars "Mac"]).
  by rewrite replace_all_zero_groups.
Qed.

(* ===================================================================== *)
(** * Facts about the candidates and their ranking *)
(* ===================================================================== *)

Lemma allBrowserApiNames_spec allCbtDevices name :
  name ∈ allBrowserApiNames allCbtDevices <->
  exists d b, d ∈ allCbtDevices /\ b ∈ dev_browsers d /\ br_api_name b = name.
Proof.
  unfold allBrowserApiNames.
  assert (Inner : forall bs (acc : gset string),
    name ∈ fold_left (fun names cbtBrowser => names ∪ {[ br_api_name cbtBrowser ]}) bs acc <->
    name ∈ acc \/ exists b, b ∈ bs /\ br_api_name b = name).
  { induction bs as [|b bs IH]; intros acc; simpl.
    - split; [by left|]. intros [?|(b & Hb & _)]; [done|]. by apply elem_of_nil in Hb.
    - rewrite IH. rewrite elem_of_union, elem_of_singleton. split.
      + intros [[?|?]|(b' & Hb' & ?)]; [by left| |].
        * right. exists b. split; [left|done].
        * right. exists b'. split; [by right|done].
      + intros [?|(b' & Hb' & ?)]; [by left; left|].
        apply elem_of_cons in Hb' as [->|Hb']; [by left; right|].
        right. by exists b'. }
  assert (Outer : forall ds (acc : gset string),
    name ∈ fold_left (fun names cbtDevice =>
       fold_left (fun names cbtBrowser => names ∪ {[ br_api_name cbtBrowser ]})
                 (dev_browsers cbtDevice) names) ds acc <->
    name ∈ acc \/ exists d b, d ∈ ds /\ b ∈ dev_browsers d /\ br_api_name b = name).
  { induction ds as [|d ds IH]; intros acc; simpl.
    - split; [by left|]. intros [?|(d & b & Hd & _)]; [done|]. by apply elem_of_nil in Hd.
    - rewrite IH, Inner. split.
      + intros [[?|(b & Hb & ?)]|(d' & b & Hd' & Hb & ?)]; [by left| |].
        * right. exists d, b. split; [left|done].
        * right. exists d', b. split; [by right|done].
      + intros [?|(d' & b & Hd' & Hb & ?)]; [by left; left|].
        apply elem_of_cons in Hd' as [->|Hd'].
        * left. right. by exists b.
        * right. by exists d', b. }
  rewrite Outer. split; [|by right]. intros [H|H]; [|done]. by apply elem_of_empty in H.
Qed.

Lemma collect_elem {A B} (f : A -> option (list B)) (l : list A) : forall r,
  collect f l = Some r ->
  forall y, y ∈ r <-> exists x ys, x ∈ l /\ f x = Some ys /\ y ∈ ys.
Proof.
  induction l as [|x l IH]; intros r H y; cbn [collect] in H.
  - injection H as <-. split; [by intros ?%elem_of_nil|].
    by intros (x & ys & ?%elem_of_nil & _).
  - destruct (f x) as [ys|] eqn:Ex; [|done]. simpl in H.
    destruct (collect f l) as [rest|]; [|done]. injection H as <-.
    rewrite elem_of_app, (IH rest eq_refl). split.
    + intros [Hy|(x' & ys' & Hx' & E & Hy)].
      * exists x, ys. split; [by left|done].
      * exists x', ys'. split; [by right|done].
    + intros (x' & ys' & Hx' & E & Hy).
      apply elem_of_cons in Hx' as [-> | Hx'].
      * left. congruence.
      * right. by exists x', ys'.
Qed.

Lemma collect_None {A B} (f : A -> option (list B)) (l : list A) :
  collect f l = None <-> exists x, x ∈ l /\ f x = None.
Proof.
  induction l as [|x l IH]; cbn [collect].
  - split; [done|]. by intros (x & ?%elem_of_nil & _).
  - destruct (f x) as [ys|] eqn:Ex; simpl.
    + destruct (collect f l) as [rest|]; simpl.
      * split; [done|]. intros (x' & Hx' & E).
        apply elem_of_cons in Hx' as [-> | Hx']; [congruence|].
        assert (H : Some rest = None) by (apply IH; by exists x').
        done.
      * split; [|done]. intros _. destruct (proj1 IH eq_refl) as (x' & Hx' & E).
        exists x'. split; [by right|done].
    + split; [|done]. intros _. exists x. split; [by left|done].
Qed.

Lemma fold_left_collect {A B} (f : A -> option (list B))
  (g : option (list B) -> A -> option (list B)) :
  (forall acc x, g acc x = (acc' ← acc; ys ← f x; Some (acc' ++ ys))) ->
  forall l acc,
    fold_left g l acc = (acc' ← acc; rest ← collect f l; Some (acc' ++ rest)).
Proof.
  intros Hg. induction l as [|x l IH]; intros acc; cbn [fold_left collect].
  - destruct acc as [acc'|]; simpl; [by rewrite app_nil_r|done].
  - rewrite IH, Hg. destruct acc as [acc'|]; simpl; [|done].
    destruct (f x) as [ys|]; simpl; [|done].
    destruct (collect f l) as [rest|]; simpl; [|done]. by rewrite app_assoc.
Qed.

Lemma matchingCbtUserAgents_collect userAgent allCbtDevices :
  matchingCbtUserAgents userAgent allCbtDevices =
  collect (selectDevice userAgent (allBrowserApiNames allCbtDevices)) allCbtDevices.
Proof.
  unfold matchingCbtUserAgents. cbv zeta.
  rewrite (fold_left_collect (selectDevice userAgent (allBrowserApiNames allCbtDevices))).
  { simpl. by destruct (collect _ _). }
  intros acc d. destruct acc as [matching|]; simpl; [|done]. unfold selectDevice.
  destruct (andAlso _ _) as [isMatchingDevice|]; simpl; [|done].
  destruct isMatchingDevice; simpl; [|by rewrite app_nil_r].
  rewrite (fold_left_collect
             (selectBrowser (browserVendorMap (browser_vendor_type userAgent))
                            (allBrowserApiNames allCbtDevices) d)); [done|].
  intros acc' b. destruct acc' as [matching'|]; simpl; [|done]. unfold selectBrowser.
  destruct (includes _ _) as [isRequiredVendor|]; simpl; [|done].
  destruct isRequiredVendor; simpl; [|by rewrite app_nil_r].
  destruct (bool_decide _); [by rewrite app_nil_r|done].
Qed.

Lemma includes_true arr x :
  includes arr x = Some true <-> exists l, arr = Some l /\ x ∈ l.
Proof.
  unfold includes. destruct arr as [l|].
  - split.
    + intros [= H]. apply bool_decide_eq_true in H. by exists l.
    + intros (l' & [= <-] & H). by rewrite bool_decide_true.
  - split; [done|]. by intros (l & ? & _).
Qed.

Lemma selectBrowser_elem requiredBrowserVendors names d b ys c :
  selectBrowser requiredBrowserVendors names d b = Some ys ->
  c ∈ ys <->
  c = {| device := d; browser := b |} /\
  includes requiredBrowserVendors (br_type b) = Some true /\
  (br_api_name b +:+ "x64")%string ∉ names.
Proof.
  unfold selectBrowser. destruct (includes _ _) as [[|]|]; simpl; [| |done].
  - case_bool_decide as E; intros [= <-].
    + split; [by intros ?%elem_of_nil|]. by intros (_ & _ & ?).
    + rewrite list_elem_of_singleton. split; [done|]. by intros (? & _).
  - intros [= <-]. split; [by intros ?%elem_of_nil|]. by intros (_ & ? & _).
Qed.

Lemma selectDevice_elem userAgent names d ys c :
  selectDevice userAgent names d = Some ys ->
  c ∈ ys <->
  device c = d /\
  browser c ∈ dev_browsers d /\
  includes (formFactorMap (form_factor_type userAgent)) (dev_device d) = Some true /\
  includes (osVendorMap (os_vendor_type userAgent)) (dev_type d) = Some true /\
  includes (browserVendorMap (browser_vendor_type userAgent)) (br_type (browser c)) =
    Some true /\
  (br_api_name (browser c) +:+ "x64")%string ∉ names.
Proof.
  unfold selectDevice.
  destruct (includes _ (dev_device d)) as [[|]|]; simpl; [| |done].
  - destruct (includes _ (dev_type d)) as [[|]|]; simpl; [| |done].
    + intros H. rewrite (collect_elem _ _ _ H). split.
      * intros (b & ys' & Hb & E & Hc).
        apply (selectBrowser_elem _ _ _ _ _ c E) in Hc as (-> & E3 & E4). done.
      * intros (<- & Hb & _ & _ & E3 & E4).
        destruct (selectBrowser (browserVendorMap (browser_vendor_type userAgent))
                                names (device c) (browser c)) as [ys'|] eqn:E.
        -- exists (browser c), ys'. split; [done|]. split; [done|].
           apply (selectBrowser_elem _ _ _ _ _ c E). by destruct c.
        -- unfold selectBrowser in E. by rewrite E3 in E.
    + intros [= <-]. split; [by intros ?%elem_of_nil|]. by intros (_ & _ & _ & ? & _).
  - intros [= <-]. split; [by intros ?%elem_of_nil|]. by intros (_ & _ & ? & _).
Qed.

Lemma matchingCbtUserAgents_spec userAgent allCbtDevices matching c :
  matchingCbtUserAgents userAgent allCbtDevices = Some matching ->
  c ∈ matching <->
  device c ∈ allCbtDevices /\
  browser c ∈ dev_browsers (device c) /\
  includes (formFactorMap (form_factor_type userAgent)) (dev_device (device c)) =
    Some true /\
  includes (osVendorMap (os_vendor_type userAgent)) (dev_type (device c)) = Some true /\
  includes (browserVendorMap (browser_vendor_type userAgent)) (br_type (browser c)) =
    Some true /\
  (br_api_name (browser c) +:+ "x64")%string ∉ allBrowserApiNames allCbtDevices.
Proof.
  rewrite matchingCbtUserAgents_collect. intros H.
  rewrite (collect_elem _ _ _ H). split.
  - intros (d & ys & Hd & E & Hc).
    apply (selectDevice_elem _ _ _ _ c E) in Hc as (<- & Hc). done.
  - intros (Hd & Hc).
    destruct (selectDevice userAgent (allBrowserApiNames allCbtDevices) (device c))
      as [ys|] eqn:E.
    + exists (device c), ys. split; [done|]. split; [done|].
      by apply (selectDevice_elem _ _ _ _ c E).
    + assert (N : collect (selectDevice userAgent (allBrowserApiNames allCbtDevices))
                          allCbtDevices = None).
      { apply collect_None. by exists (device c). }
      congruence.
Qed.

Lemma selectBrowser_None requiredBrowserVendors names d b :
  selectBrowser requiredBrowserVendors names d b = None <-> requiredBrowserVendors = None.
Proof.
  unfold selectBrowser, includes. by destruct requiredBrowserVendors.
Qed.

Lemma selectDevice_None userAgent names d :
  selectDevice userAgent names d = None <->
  match formFactorMap (form_factor_type userAgent) with
  | None => True
  | Some requiredFormFactors =>
      dev_device d ∈ requiredFormFactors /\
      match osVendorMap (os_vendor_type userAgent) with
      | None => True
      | Some requiredOsVendors =>
          dev_type d ∈ requiredOsVendors /\
          dev_browsers d <> [] /\
          browserVendorMap (browser_vendor_type userAgent) = None
      end
  end.
Proof.
  unfold selectDevice, includes.
  destruct (formFactorMap _) as [ff|]; simpl; [|done].
  case_bool_decide as E1; simpl; [|split; [done|by intros [? _]]].
  destruct (osVendorMap _) as [os|]; simpl; [|done].
  case_bool_decide as E2; simpl; [|split; [done|by intros (_ & ? & _)]].
  rewrite collect_None. split.
  - intros (b & Hb & E). apply selectBrowser_None in E.
    repeat split; try done. intros N. rewrite N in Hb. by apply elem_of_nil in Hb.
  - intros (_ & _ & Hne & E). destruct (dev_browsers d) as [|b bs]; [done|].
    exists b. split; [by left|]. by apply selectBrowser_None.
Qed.

Lemma matchingCbtUserAgents_None userAgent allCbtDevices :
  matchingCbtUserAgents userAgent allCbtDevices = None <->
  consultsUndefined userAgent allCbtDevices.
Proof.
  rewrite matchingCbtUserAgents_collect, collect_None. unfold consultsUndefined.
  setoid_rewrite selectDevice_None.
  destruct (formFactorMap _) as [ff|].
  - split.
    + intros (d & Hd & H1 & H2). by exists d.
    + intros (d & Hd & H1 & H2). by exists d.
  - split.
    + intros (d & Hd & _) N. rewrite N in Hd. by apply elem_of_nil in Hd.
    + intros Hne. destruct allCbtDevices as [|d ds]; [done|]. exists d. split; [by left|done].
Qed.

Section Sort.
Context {A : Type} (comparefn : A -> A -> Js.number).

Lemma insert_Permutation x l : JsArray.insert comparefn x l ≡ₚ x :: l.
Proof.
  induction l as [|t l IH]; simpl; [done|].
  destruct (Js.gt _ _); [|done]. rewrite IH. apply Permutation_swap.
Qed.

Lemma fold_insert_Permutation l : forall acc,
  fold_left (fun sorted_rev x => JsArray.insert comparefn x sorted_rev) l acc ≡ₚ acc ++ l.
Proof.
  induction l as [|x l IH]; intros acc; simpl; [by rewrite app_nil_r|].
  rewrite IH, insert_Permutation. simpl. apply Permutation_middle.
Qed.

Lemma insertionSort_Permutation l : JsArray.insertionSort comparefn l ≡ₚ l.
Proof.
  unfold JsArray.insertionSort. rewrite <- Permutation_rev.
  by rewrite fold_insert_Permutation.
Qed.

Lemma gt_sort_value r :
  Js.gt (JsArray.sort_value r) Js.pzero = Js.gt r Js.pzero.
Proof. by destruct r. Qed.

Lemma insert_descending x l :
  descending comparefn l -> descending comparefn (JsArray.insert comparefn x l).
Proof.
  induction l as [|t l IH]; intros Hd; [done|].
  cbn [JsArray.insert]. rewrite gt_sort_value.
  destruct (Js.gt (comparefn t x) Js.pzero) eqn:E.
  - assert (Hd' : descending comparefn l) by (destruct l; [done|by destruct Hd]).
    specialize (IH Hd'). destruct l as [|u l].
    + simpl. split; [by left|done].
    + cbn [JsArray.insert] in *. destruct (Js.gt (JsArray.sort_value (comparefn u x)) _).
      * split; [by destruct Hd|done].
      * split; [by left|done].
  - split; [by right|done].
Qed.

Lemma fold_insert_descending l : forall acc,
  descending comparefn acc ->
  descending comparefn
    (fold_left (fun sorted_rev x => JsArray.insert comparefn x sorted_rev) l acc).
Proof.
  induction l as [|x l IH]; intros acc Hd; [done|].
  simpl. by apply IH, insert_descending.
Qed.

Lemma rev_insertionSort_descending l :
  descending comparefn (rev (JsArray.insertionSort comparefn l)).
Proof.
  unfold JsArray.insertionSort. rewrite rev_involutive. by apply fold_insert_descending.
Qed.

Lemma descending_lookup l i x y :
  descending comparefn l -> l !! i = Some x -> l !! S i = Some y ->
  inOrder comparefn x y.
Proof.
  revert i. induction l as [|a l IH]; intros i Hd Hx Hy; [done|].
  destruct l as [|b l]; [done|]. destruct Hd as [Hab Hd].
  destruct i as [|i]; simpl in *; [by simplify_eq|]. by apply (IH i).
Qed.

(** What a consistent comparator implies: for two of the values exactly one
    of [<CF], [=CF] and [>CF] holds, and [>CF] is the converse of [<CF]. *)
Section Consistent.
Variable values : list A.
Hypothesis Hc : JsArray.consistent comparefn values.

Lemma consistent_cases a b :
  a ∈ values -> b ∈ values ->
  (JsArray.ltCF comparefn a b /\ ~ JsArray.eqCF comparefn a b /\ ~ JsArray.gtCF comparefn a b) \/
  (~ JsArray.ltCF comparefn a b /\ JsArray.eqCF comparefn a b /\ ~ JsArray.gtCF comparefn a b) \/
  (~ JsArray.ltCF comparefn a b /\ ~ JsArray.eqCF comparefn a b /\ JsArray.gtCF comparefn a b).
Proof.
  intros Ha Hb. pose proof (JsArray.consistent_number _ _ Hc a b Ha Hb) as N.
  unfold JsArray.ltCF, JsArray.eqCF, JsArray.gtCF, Js.lt, Js.strict_eq, Js.gt.
  destruct (comparefn a b) as [s|s| |s m e]; try done.
  - right. left. by destruct s.
  - destruct s; simpl; [left|right; right]; done.
  - destruct s; simpl; [left|right; right]; done.
Qed.

Lemma consistent_gt_lt a b :
  a ∈ values -> b ∈ values ->
  JsArray.gtCF comparefn a b -> JsArray.ltCF comparefn b a.
Proof.
  intros Ha Hb H.
  destruct (consistent_cases b a Hb Ha) as [(? & _)|[(_ & E & _)|(_ & _ & G)]]; [done| |].
  - apply (JsArray.consistent_sym _ _ Hc b a Hb Ha) in E.
    destruct (consistent_cases a b Ha Hb) as [(_ & _ & ?)|[(_ & _ & ?)|(_ & ? & _)]]; done.
  - pose proof (JsArray.consistent_gt_trans _ _ Hc a b a Ha Hb Ha H G) as G'.
    pose proof (JsArray.consistent_refl _ _ Hc a Ha) as R.
    destruct (consistent_cases a a Ha Ha) as [(_ & ? & _)|[(_ & _ & ?)|(_ & ? & _)]]; done.
Qed.

Lemma consistent_lt_gt a b :
  a ∈ values -> b ∈ values ->
  JsArray.ltCF comparefn a b -> JsArray.gtCF comparefn b a.
Proof.
  intros Ha Hb H.
  destruct (consistent_cases b a Hb Ha) as [(L & _)|[(_ & E & _)|(_ & _ & ?)]]; [| |done].
  - pose proof (JsArray.consistent_lt_trans _ _ Hc a b a Ha Hb Ha H L) as L'.
    pose proof (JsArray.consistent_refl _ _ Hc a Ha) as R.
    destruct (consistent_cases a a Ha Ha) as [(_ & ? & _)|[(? & _ & _)|(? & _ & _)]]; done.
  - apply (JsArray.consistent_sym _ _ Hc b a Hb Ha) in E.
    destruct (consistent_cases a b Ha Hb) as [(_ & ? & _)|[(? & _ & _)|(? & _ & _)]]; done.
Qed.

(** [a] is not below [b]. *)
Definition notBelow (a b : A) : Prop := Js.lt (comparefn a b) Js.pzero = false.

Lemma notBelow_cases a b :
  a ∈ values -> b ∈ values ->
  notBelow a b <-> JsArray.eqCF comparefn a b \/ JsArray.gtCF comparefn a b.
Proof.
  intros Ha Hb. unfold notBelow.
  destruct (consistent_cases a b Ha Hb) as [(L & E & G)|[(L & E & G)|(L & E & G)]];
    unfold JsArray.ltCF in L.
  - rewrite L. split; [done|]. by intros [?|?].
  - apply not_true_is_false in L. rewrite L. split; [by left|done].
  - apply not_true_is_false in L. rewrite L. split; [by right|done].
Qed.

Lemma notBelow_refl a : a ∈ values -> notBelow a a.
Proof.
  intros Ha. apply notBelow_cases; [done|done|]. left.
  by apply (JsArray.consistent_refl _ _ Hc).
Qed.

Lemma notBelow_trans a b c :
  a ∈ values -> b ∈ values -> c ∈ values ->
  notBelow a b -> notBelow b c -> notBelow a c.
Proof.
  intros Ha Hb Hc' Hab Hbc.
  apply notBelow_cases in Hab; [|done|done]. apply notBelow_cases in Hbc; [|done|done].
  apply notBelow_cases; [done|done|].
  destruct Hab as [Eab|Gab], Hbc as [Ebc|Gbc].
  - left. by apply (JsArray.consistent_eq_trans _ _ Hc a b c).
  - right. destruct (consistent_cases a c Ha Hc') as [(L & _)|[(_ & E & _)|(_ & _ & G)]];
      [| |done]; exfalso.
    + (* a < c, c < b: a < b *)
      pose proof (consistent_gt_lt b c Hb Hc' Gbc) as Lcb.
      pose proof (JsArray.consistent_lt_trans _ _ Hc a c b Ha Hc' Hb L Lcb) as Lab.
      destruct (consistent_cases a b Ha Hb) as [(_ & ? & _)|[(? & _ & _)|(? & _ & _)]]; done.
    + (* a = c, a = b: b = c *)
      apply (JsArray.consistent_sym _ _ Hc a b Ha Hb) in Eab.
      pose proof (JsArray.consistent_eq_trans _ _ Hc b a c Hb Ha Hc' Eab E) as Ebc.
      destruct (consistent_cases b c Hb Hc') as [(_ & _ & ?)|[(_ & _ & ?)|(_ & ? & _)]]; done.
  - right. destruct (consistent_cases a c Ha Hc') as [(L & _)|[(_ & E & _)|(_ & _ & G)]];
      [| |done]; exfalso.
    + (* a < c, b < a: b < c *)
      pose proof (consistent_gt_lt a b Ha Hb Gab) as Lba.
      pose proof (JsArray.consistent_lt_trans _ _ Hc b a c Hb Ha Hc' Lba L) as Lbc.
      destruct (consistent_cases b c Hb Hc') as [(_ & ? & _)|[(? & _ & _)|(? & _ & _)]]; done.
    + (* a = c, b = c: a = b *)
      apply (JsArray.consistent_sym _ _ Hc b c Hb Hc') in Ebc.
      pose proof (JsArray.consistent_eq_trans _ _ Hc a c b Ha Hc' Hb E Ebc) as Eab.
      destruct (consistent_cases a b Ha Hb) as [(_ & _ & ?)|[(_ & _ & ?)|(_ & ? & _)]]; done.
  - right. by apply (JsArray.consistent_gt_trans _ _ Hc a b c).
Qed.

Lemma inOrder_notBelow a b :
  a ∈ values -> b ∈ values -> inOrder comparefn a b -> notBelow a b.
Proof.
  intros Ha Hb [G|G].
  - apply notBelow_cases; [done|done|by right].
  - unfold notBelow. destruct (Js.lt (comparefn a b) Js.pzero) eqn:L; [|done].
    apply (consistent_lt_gt a b Ha Hb) in L. unfold JsArray.gtCF in L. congruence.
Qed.

End Consistent.

Lemma descending_notBelow (values l : list A) :
  JsArray.consistent comparefn values -> l ⊆ values -> descending comparefn l ->
  forall i j x y, i <= j -> l !! i = Some x -> l !! j = Some y -> notBelow x y.
Proof.
  intros Hc Hsub Hd i j x y Hij Hx. revert y.
  assert (Hin : forall k z, l !! k = Some z -> z ∈ values).
  { intros k z Hz. apply Hsub. by apply list_elem_of_lookup_2 in Hz. }
  induction Hij as [|j Hij IH]; intros y Hy.
  - assert (x = y) as -> by congruence. apply (notBelow_refl values Hc). by apply (Hin i).
  - destruct (l !! j) as [z|] eqn:Ez.
    + apply (notBelow_trans values Hc x z y); [by apply (Hin i)|by apply (Hin j)|
                                              by apply (Hin (S j))|by apply IH|].
      apply (inOrder_notBelow values Hc); [by apply (Hin j)|by apply (Hin (S j))|].
      by apply (descending_lookup l j).
    + apply lookup_ge_None in Ez. apply lookup_lt_Some in Hy. lia.
Qed.

Lemma rev_lookup (l : list A) i :
  i < length l -> rev l !! i = l !! (length l - S i).
Proof.
  intros H. rewrite <- (reverse_lookup l i H). f_equal.
  clear. induction l as [|x l IH]; [done|]. simpl. by rewrite IH, reverse_cons.
Qed.

Lemma insertionSort_ascending (arr : list A) :
  JsArray.consistent comparefn arr ->
  forall i j x y, i < j ->
    JsArray.insertionSort comparefn arr !! i = Some x ->
    JsArray.insertionSort comparefn arr !! j = Some y ->
    Js.lt (comparefn y x) Js.pzero = false.
Proof.
  intros Hc i j x y Hij Hx Hy.
  pose proof (lookup_lt_Some _ _ _ Hx) as Li. pose proof (lookup_lt_Some _ _ _ Hy) as Lj.
  set (s := JsArray.insertionSort comparefn arr) in *.
  apply (descending_notBelow arr (rev s) Hc) with (i := length s - S j) (j := length s - S i).
  - intros z Hz. apply list_elem_of_In, in_rev, list_elem_of_In in Hz.
    unfold s in Hz. by rewrite insertionSort_Permutation in Hz.
  - apply rev_insertionSort_descending.
  - lia.
  - rewrite rev_lookup by lia. rewrite <- Hy. f_equal. lia.
  - rewrite rev_lookup by lia. rewrite <- Hx. f_equal. lia.
Qed.

End Sort.

(** The insertion sort is the [sort] of an engine. *)
Definition insertionEngine : JsArray.Engine :=
  {| JsArray.sort := @JsArray.insertionSort;
     JsArray.sort_permutation := @insertionSort_Permutation;
     JsArray.sort_ascending := @insertionSort_ascending |}.

(* ===================================================================== *)
(** * Facts about the differ *)
(* ===================================================================== *)

Section DifferFacts.
Variable env : Env.

Lemma compareOneImage_inv rd a e res :
  compareOneImage env rd a e = Some res ->
  exists r bm,
    Jimp_read env (getBuffer r) = Some bm /\
    (exists b1 b2, compareImages env b1 b2 = Some r) /\
    diff_pixel_fraction res = rawMisMatchPercentage r /\
    diff_pixel_count res =
      Js.mul (Js.mul (rawMisMatchPercentage r) (width bm)) (height bm) /\
    has_changed res = Js.ge (diff_pixel_count res) (min_diff_pixel_count env).
Proof.
  unfold compareOneImage, analyzeComparisonResult_, computeDiff_. intros H.
  destruct (fs_readFile env (absolute_path a)) as [b1|]; [|done]. simpl in H.
  destruct (fs_readFile env (absolute_path e)) as [b2|]; [|done]. simpl in H.
  destruct (compareImages env b1 b2) as [r|] eqn:Er; [|done]. simpl in H.
  destruct (Jimp_read env (getBuffer r)) as [bm|] eqn:Eb; [|done]. simpl in H.
  destruct (mkdirp_sync env _); [|done]. simpl in H.
  destruct (fs_writeFile env _ _); [|done]. simpl in H.
  injection H as <-. exists r, bm. simpl. eauto 10.
Qed.

Lemma compareOneImage_meta rd rd' a e :
  meta rd' = meta rd -> compareOneImage env rd' a e = compareOneImage env rd a e.
Proof. intros H. unfold compareOneImage. by rewrite H. Qed.

Lemma settled_start rd0 : settled env rd0 [] rd0 true [] [].
Proof.
  split; try done.
  - by rewrite app_nil_r.
  - by rewrite app_nil_r.
  - intros r Hr. by apply elem_of_nil in Hr.
  - intros r Hr. by apply elem_of_nil in Hr.
Qed.

Lemma outcome_after_diff rd r0 s0 res0 rd' r :
  heap rd !! r0 = Some s0 ->
  meta rd' = meta rd ->
  heap rd' = <[r0 := set_diffed res0 s0]> (heap rd) ->
  outcome env rd' r = outcome env rd r.
Proof.
  intros Hs Hm Hh. unfold outcome. rewrite Hh.
  destruct (decide (r = r0)) as [-> | Hne].
  - rewrite lookup_insert_eq, Hs. simpl. by apply compareOneImage_meta.
  - rewrite lookup_insert_ne by done. destruct (heap rd !! r); [|done]. simpl.
    by apply compareOneImage_meta.
Qed.

(** Diffing [r] again stores the same result on the same object, and leaves
    the other objects alone. *)
Lemma diffedAs_insert h r s res b r' res' :
  diffedAs h b r' res' -> (r' = r -> res' = res) ->
  diffedAs (<[r := set_diffed res s]> h) b r' res'.
Proof.
  intros (s' & H1 & H2 & H3 & H4 & H5) Hsame.
  destruct (decide (r' = r)) as [-> | Hne].
  - rewrite (Hsame eq_refl) in *. exists (set_diffed res s).
    by rewrite lookup_insert_eq.
  - exists s'. by rewrite lookup_insert_ne.
Qed.

Lemma diffedAs_new h r s res :
  diffedAs (<[r := set_diffed res s]> h) (has_changed res) r res.
Proof. exists (set_diffed res s). by rewrite lookup_insert_eq. Qed.

Lemma settled_step rd0 done rd ok nc nu r :
  settled env rd0 done rd ok nc nu ->
  match compareOneScreenshot_ env rd r with
  | Some rd' => exists nc' nu', settled env rd0 (done ++ [r]) rd' ok nc' nu'
  | None => settled env rd0 (done ++ [r]) rd false nc nu
  end.
Proof.
  intros [Hmeta Hmaps Hc Hu Hperm Hok Hout Hhc Hhu].
  assert (Hrun : compareOneScreenshot_ env rd r =
    s ← heap rd !! r;
    res ← compareOneImage env rd (actual_image_file s) (expected_image_file s);
    Some (let rd' := set_heap (<[r := set_diffed res s]> (heap rd)) rd in
          if has_changed res then push_changed r rd' else push_unchanged r rd'))
    by done.
  assert (Ho : outcome env rd0 r =
    s ← heap rd !! r;
    compareOneImage env rd (actual_image_file s) (expected_image_file s))
    by (by rewrite <- Hout).
  rewrite Hrun. clear Hrun.
  destruct (heap rd !! r) as [s|] eqn:Es; simpl in *; cycle 1.
  { split; try done.
    - rewrite filter_app, filter_cons, decide_False; [by rewrite filter_nil, app_nil_r|].
      rewrite Ho. by intros [? ?].
    - split; [done|]. rewrite Forall_app, Forall_singleton, Ho. by intros [_ [? ?]]. }
  destruct (compareOneImage env rd _ _) as [res|] eqn:Er; simpl in *; cycle 1.
  { split; try done.
    - rewrite filter_app, filter_cons, decide_False; [by rewrite filter_nil, app_nil_r|].
      rewrite Ho. by intros [? ?].
    - split; [done|]. rewrite Forall_app, Forall_singleton, Ho. by intros [_ [? ?]]. }
  assert (Hdone : filter (fun r => is_Some (outcome env rd0 r)) (done ++ [r]) =
                  filter (fun r => is_Some (outcome env rd0 r)) done ++ [r]).
  { rewrite filter_app. f_equal. rewrite filter_cons, decide_True by (by rewrite Ho). done. }
  assert (Hok' : ok = true <->
                 Forall (fun r => is_Some (outcome env rd0 r)) (done ++ [r])).
  { rewrite Hok, Forall_app, Forall_singleton, Ho. split; [by intros|by intros []]. }
  assert (Hout' : forall rd', meta rd' = meta rd ->
             heap rd' = <[r := set_diffed res s]> (heap rd) ->
             forall r', outcome env rd' r' = outcome env rd0 r').
  { intros rd' Hm Hh r'. rewrite <- Hout. by apply (outcome_after_diff rd r s res). }
  assert (Hold : forall b (l : list ref),
    (forall r', r' ∈ l -> exists res', outcome env rd0 r' = Some res' /\
                                       diffedAs (heap rd) b r' res') ->
    forall r', r' ∈ l -> exists res', outcome env rd0 r' = Some res' /\
      diffedAs (<[r := set_diffed res s]> (heap rd)) b r' res').
  { intros b l Hl r' Hr'. destruct (Hl r' Hr') as (res' & O & D). exists res'.
    split; [done|]. apply diffedAs_insert; [done|]. intros ->. congruence. }
  assert (Hnew : forall b (l : list ref),
    (forall r', r' ∈ l -> exists res', outcome env rd0 r' = Some res' /\
                                       diffedAs (heap rd) b r' res') ->
    has_changed res = b ->
    forall r', r' ∈ l ++ [r] -> exists res', outcome env rd0 r' = Some res' /\
      diffedAs (<[r := set_diffed res s]> (heap rd)) b r' res').
  { intros b l Hl Hb r' Hr'. apply elem_of_app in Hr' as [Hr'|Hr'].
    - by apply (Hold b l).
    - apply list_elem_of_singleton in Hr' as ->. exists res. split; [done|].
      rewrite <- Hb. apply diffedAs_new. }
  destruct (has_changed res) eqn:Ech.
  - exists (nc ++ [r]), nu. split; simpl; try done.
    + by rewrite Hc, app_assoc.
    + rewrite Hdone, <- Hperm, <- !app_assoc. apply Permutation_app_head.
      apply Permutation_app_comm.
    + by apply Hout'.
    + by apply Hnew.
    + by apply Hold.
  - exists nc, (nu ++ [r]). split; simpl; try done.
    + by rewrite Hu, app_assoc.
    + by rewrite Hdone, <- Hperm, app_assoc.
    + by apply Hout'.
    + by apply Hold.
    + by apply Hnew.
Qed.

Lemma settleAll_settled schedule rd0 :
  exists nc nu,
    settled env rd0 schedule (settleAll env schedule rd0).1 (settleAll env schedule rd0).2 nc nu.
Proof.
  unfold settleAll. induction schedule as [|r schedule IH] using rev_ind.
  - exists [], []. apply settled_start.
  - rewrite foldl_app. simpl.
    destruct IH as (nc & nu & IH).
    destruct (foldl _ _ schedule) as [rd ok]. simpl in IH.
    pose proof (settled_step rd0 schedule rd ok nc nu r IH) as Hstep.
    destruct (compareOneScreenshot_ env rd r) as [rd'|]; simpl.
    + destruct Hstep as (nc' & nu' & H). by exists nc', nu'.
    + by exists nc, nu.
Qed.

Lemma groupStep_elem key screenshot map map' :
  groupStep key screenshot map = Some map' ->
  forall k sl r, map' !! k = Some sl -> r ∈ screenshots sl ->
    r = screenshot \/ exists sl0, map !! k = Some sl0 /\ r ∈ screenshots sl0.
Proof.
  unfold groupStep. intros H k sl r Hk Hr.
  destruct (map !! key) as [l|] eqn:El.
  - injection H as <-. destruct (decide (k = key)) as [-> | Hne].
    + rewrite lookup_insert_eq in Hk. injection Hk as <-. simpl in Hr.
      apply elem_of_app in Hr as [Hr|Hr]; [right; by exists l|left].
      by apply list_elem_of_singleton in Hr.
    + rewrite lookup_insert_ne in Hk by done. right. by exists sl.
  - case_bool_decide; [done|]. injection H as <-. destruct (decide (k = key)) as [-> | Hne].
    + rewrite lookup_insert_eq in Hk. injection Hk as <-. simpl in Hr.
      left. by apply list_elem_of_singleton in Hr.
    + rewrite lookup_insert_ne in Hk by done. right. by exists sl.
Qed.

Lemma groupBy_elem (key : Screenshot -> string) (h : gmap ref Screenshot) : forall arr map0 map,
  foldl (fun acc screenshot =>
           map ← acc; s ← h !! screenshot; groupStep (key s) screenshot map)
        (Some map0) arr = Some map ->
  forall k sl r, map !! k = Some sl -> r ∈ screenshots sl ->
    r ∈ arr \/ exists sl0, map0 !! k = Some sl0 /\ r ∈ screenshots sl0.
Proof.
  induction arr as [|x arr IH] using rev_ind; intros map0 map H k sl r Hk Hr.
  - simpl in H. injection H as <-. right. by exists sl.
  - rewrite foldl_app in H. simpl in H.
    destruct (foldl _ _ arr) as [m1|] eqn:F; [|done]. simpl in H.
    destruct (h !! x) as [s|]; [|done]. simpl in H.
    destruct (groupStep_elem _ _ _ _ H k sl r Hk Hr) as [->|(sl0 & H1 & H2)].
    + left. apply elem_of_app. right. by left.
    + destruct (IH map0 m1 F k sl0 r H1 H2) as [?|?]; [|by right].
      left. apply elem_of_app. by left.
Qed.

Lemma groupByBrowser_elem h arr map :
  groupByBrowser_ h arr = Some map ->
  forall k sl r, map !! k = Some sl -> r ∈ screenshots sl -> r ∈ arr.
Proof.
  intros H k sl r Hk Hr. unfold groupByBrowser_, groupBy in H.
  destruct (groupBy_elem _ h arr ∅ map H k sl r Hk Hr) as [?|(sl0 & H0 & _)]; [done|].
  by rewrite lookup_empty in H0.
Qed.

(** [assignMaps] leaves the lists and the heap alone, and a browser map it
    assigns holds screenshots of the changed list only. *)
Lemma assignMaps_spec rd rd' c :
  assignMaps rd = (rd', c) ->
  heap rd' = heap rd /\
  changed_screenshot_list rd' = changed_screenshot_list rd /\
  unchanged_screenshot_list rd' = unchanged_screenshot_list rd /\
  (c = Fulfilled ->
   forall k sl r, changed_screenshot_browser_map rd' !! k = Some sl ->
     r ∈ screenshots sl -> r ∈ changed_screenshot_list rd').
Proof.
  unfold assignMaps. intros H.
  destruct (groupByBrowser_ (heap rd) (changed_screenshot_list rd)) as [cb|] eqn:E1;
    [|by injection H as <- <-].
  simpl in H.
  destruct (groupByPage_ (heap rd) (changed_screenshot_list rd)) as [cp|];
    [|by injection H as <- <-].
  simpl in H.
  destruct (groupByBrowser_ (heap rd) (unchanged_screenshot_list rd)) as [ub|];
    [|by injection H as <- <-].
  simpl in H.
  destruct (groupByPage_ (heap rd) (unchanged_screenshot_list rd)) as [up|];
    [|by injection H as <- <-].
  injection H as <- <-. simpl. repeat split; try done.
  intros _ k sl r. by apply (groupByBrowser_elem (heap rd) _ cb E1).
Qed.

End DifferFacts.

(* ===================================================================== *)
(** * Version comparison *)
(* ===================================================================== *)


Lemma compareVersions_not_nan a b : Js.is_nan (compareVersions a b) = false.
Proof. unfold compareVersions. rewrite compareParsed_lexCompare. apply lexCompare_not_nan. Qed.



(** C8, as stated, fails: the segment "x" parses to NaN, and yet "x"
    compares equal to "0", exactly as "0" does: the NaN does not reach the
    result, and the segment counts as the number 0. *)
Lemma nan_segment_not_a_mismatch :
  parseVersionNumber "x" = [Js.NaN] /\
  compareVersions "x" "0" = Js.pzero /\
  compareVersions "0" "x" = Js.pzero /\
  compareVersions "x" "0" = compareVersions "0" "0".
Proof. by vm_compute. Qed.

(** C8, amended: a segment that is no numeric literal parses to NaN, but
    the comparison never returns NaN; a NaN segment of the first version, or
    of the second at an index the first version has too, is replaced by 0
    before the subtraction; a NaN segment of the second version past the
    length of the first reaches the subtraction, and from there on the
    segments that follow it play no part. *)
Theorem nan_segments_compared (seg : list ascii) (v1 pre post : list Js.number) :
  Js.trim seg <> [] -> Js.numeric_literal (Js.trim seg) = None ->
  length v1 <= length pre ->
  Js.Number seg = Js.NaN /\
  (forall v2,
     Js.is_nan (compareParsed v1 v2) = false /\
     compareParsed v1 v2 =
       compareParsed (map nanToZero v1)
                     (map nanToZero (take (length v1) v2) ++ drop (length v1) v2)) /\
  compareParsed v1 (pre ++ Js.NaN :: post) = compareParsed v1 (pre ++ [Js.NaN]).
Proof.
  intros Hne Hlit Hlen. split; [|split].
  - unfold Js.Number. destruct (Js.trim seg); [done|]. by rewrite Hlit.
  - intros v2. rewrite !compareParsed_lexCompare. split.
    + apply lexCompare_not_nan.
    + apply lexCompare_prefix_nanToZero.
  - rewrite !compareParsed_lexCompare. by apply lexCompare_masked.
Qed.

Lemma nan_segments_compared_witness :
  Js.Number (chars "x") = Js.NaN /\
  (forall v2,
     Js.is_nan (compareParsed [Js.of_Z 1] v2) = false /\
     compareParsed [Js.of_Z 1] v2 =
       compareParsed (map nanToZero [Js.of_Z 1])
                     (map nanToZero (take 1 v2) ++ drop 1 v2)) /\
  compareParsed [Js.of_Z 1] ([Js.of_Z 1] ++ Js.NaN :: [Js.of_Z 5]) =
  compareParsed [Js.of_Z 1] ([Js.of_Z 1] ++ [Js.NaN]).
Proof.
  apply (nan_segments_compared (chars "x") [Js.of_Z 1] [Js.of_Z 1] [Js.of_Z 5]).
  - by vm_compute.
  - by vm_compute.
  - simpl. lia.
Defined.

Lemma firstDelta_pzero d rest rest' :
  firstDelta d rest = Js.pzero -> (rest = Js.pzero -> rest' = Js.pzero) ->
  firstDelta d rest' = Js.pzero.
Proof.
  unfold firstDelta. destruct (Js.strict_ne d Js.pzero); [done|]. intros H H'. by apply H'.
Qed.

(** A NaN of the second array that is reached with no difference before it
    gives [+0]: the NaN delta is the first that is not zero, and [|| 0]
    replaces it. *)
Lemma lexCompare_nan_fallback v1 : forall pre post,
  length v1 <= length pre ->
  lexCompare v1 pre = Js.pzero ->
  lexCompare v1 (pre ++ Js.NaN :: post) = Js.pzero.
Proof.
  induction v1 as [|x v1 IH]; intros pre post Hlen H.
  - clear Hlen. cbn [lexCompare] in *.
    induction pre as [|y pre IH2]; [done|]. cbn [app lexRight] in *.
    apply (firstDelta_pzero _ _ _ H). apply IH2.
  - destruct pre as [|y pre]; [simpl in Hlen; lia|]. cbn [app lexCompare] in *.
    apply (firstDelta_pzero _ _ _ H). intros H'. apply IH; [simpl in Hlen; lia|done].
Qed.

(** C10, as stated, fails: the non-numeric segment of "1.x.5" is not
    compared as 0. Against "1" the result is 0, where "1.0.5" gives -5. *)
Lemma nan_segment_not_as_zero :
  compareVersions "1" "1.x.5" = Js.pzero /\
  compareVersions "1" "1.0.5" = Js.neg (Js.of_Z 5) /\
  Js.lt (compareVersions "1" "1.0.5") Js.pzero = true /\
  Js.lt (compareVersions "1" "1.x.5") Js.pzero = false.
Proof. by vm_compute. Qed.

(** C10, amended: [compareVersions] is total and never returns NaN, for
    every pair of strings. A NaN segment of the first version, or of the
    second at an index the first has too, is replaced by 0 in the padding
    loops; a NaN segment of the second version past the length of the first
    stays, and when no difference comes before it, it gives the first delta,
    which [|| 0] turns into [+0]. So when the segments of the second version
    past the length of the first are all numeric, the two versions compare
    as if their non-numeric segments were 0. *)
Theorem compareVersions_total_no_nan (version1 version2 : string) :
  Js.is_nan (compareVersions version1 version2) = false /\
  compareVersions version1 version2 =
    compareParsed
      (map nanToZero (parseVersionNumber version1))
      (map nanToZero (take (length (parseVersionNumber version1))
                           (parseVersionNumber version2)) ++
       drop (length (parseVersionNumber version1)) (parseVersionNumber version2)) /\
  (forall pre post,
     parseVersionNumber version2 = pre ++ Js.NaN :: post ->
     length (parseVersionNumber version1) <= length pre ->
     compareParsed (parseVersionNumber version1) pre = Js.pzero ->
     compareVersions version1 version2 = Js.pzero) /\
  (Forall (fun y => Js.is_nan y = false)
          (drop (length (parseVersionNumber version1)) (parseVersionNumber version2)) ->
   compareVersions version1 version2 =
     compareParsed (map nanToZero (parseVersionNumber version1))
                   (map nanToZero (parseVersionNumber version2))).
Proof.
  split; [apply compareVersions_not_nan|]. unfold compareVersions.
  rewrite !compareParsed_lexCompare. split; [apply lexCompare_prefix_nanToZero|]. split.
  - intros pre post E Hlen H. rewrite compareParsed_lexCompare in H. rewrite E.
    by apply lexCompare_nan_fallback.
  - intros H. by apply lexCompare_nanToZero.
Qed.

Lemma compareVersions_total_no_nan_witness :
  parseVersionNumber "1.x.5" = [Js.of_Z 1] ++ Js.NaN :: [Js.of_Z 5] /\
  Js.is_nan (compareVersions "1" "1.x.5") = false /\
  compareVersions "1" "1.x.5" = Js.pzero /\
  compareVersions "10.x.2" "10.beta" =
    compareParsed (map nanToZero (parseVersionNumber "10.x.2"))
                  (map nanToZero (parseVersionNumber "10.beta")).
Proof.
  split; [by vm_compute|].
  destruct (compareVersions_total_no_nan "1" "1.x.5") as (H1 & _ & H3 & _).
  destruct (compareVersions_total_no_nan "10.x.2" "10.beta") as (_ & _ & _ & H4).
  split; [exact H1|]. split.
  - apply (H3 [Js.of_Z 1] [Js.of_Z 5]); [by vm_compute|simpl; lia|by vm_compute].
  - apply H4. vm_compute. constructor.
Defined.

(* ===================================================================== *)
(** * Normalization *)
(* ===================================================================== *)

(** C7, as stated, fails: the specification lists the prefix "MacOSX",
    where the pattern of the source has "Mac OSX". From "MacOSX 10" the
    source strips "MacOS" and parses "X 10" to NaN; the pipeline of the
    specification gives 10. *)
Lemma parse_MacOSX_differs :
  parseVersionNumber "MacOSX 10" = [Js.NaN] /\
  Pipeline.parse specMacPrefixes "MacOSX 10" = [Js.of_Z 10].
Proof. by vm_compute. Qed.

(** C7, amended: [parseVersionNumber] is the pipeline of the specification
    with the Mac prefixes "Mac OS X", "Mac OSX", "MacOS", "OSX", "Mac": the
    suffixes " 64-bit", " Beta", " Preview", " Home" and " Service Pack N"
    (one digit) are stripped once each in this order, to case; a leading
    "XP" or "Vista", with "Windows " before it or not, becomes "5.1" or
    "6.0"; a leading "Windows" or "Win" and then a leading Mac prefix are
    stripped, each prefix with one space after it; the trailing groups of a
    dot and zeros are stripped; the text is split at the dots and each
    segment converted with [Number]. *)
Theorem parseVersionNumber_pipeline (version : string) :
  parseVersionNumber version = Pipeline.parse sourceMacPrefixes version.
Proof.
  unfold parseVersionNumber, Pipeline.parse. cbv zeta.
  by rewrite normalizeVersion_described.
Qed.

(* ===================================================================== *)
(** * Resolution *)
(* ===================================================================== *)


Lemma ranked_inv engine userAgent allCbtDevices ranked :
  rankedCbtUserAgents engine userAgent allCbtDevices = Some ranked ->
  exists matching,
    matchingCbtUserAgents userAgent allCbtDevices = Some matching /\
    ranked = rev (JsArray.sort engine rankCompare matching) /\
    ranked ≡ₚ matching.
Proof.
  unfold rankedCbtUserAgents.
  destruct (matchingCbtUserAgents userAgent allCbtDevices) as [matching|]; [|done].
  simpl. intros [= <-]. exists matching. split; [done|]. split; [done|].
  rewrite <- Permutation_rev. apply JsArray.sort_permutation.
Qed.

Lemma ranked_Some engine userAgent allCbtDevices matching :
  matchingCbtUserAgents userAgent allCbtDevices = Some matching ->
  rankedCbtUserAgents engine userAgent allCbtDevices =
    Some (rev (JsArray.sort engine rankCompare matching)) /\
  rev (JsArray.sort engine rankCompare matching) ≡ₚ matching.
Proof.
  intros H. unfold rankedCbtUserAgents. rewrite H. split; [done|].
  rewrite <- Permutation_rev. apply JsArray.sort_permutation.
Qed.


Lemma getMatchingCbtUserAgent_inv engine userAgent allCbtDevices result :
  getMatchingCbtUserAgent_ engine userAgent allCbtDevices = Some result ->
  exists ranked,
    rankedCbtUserAgents engine userAgent allCbtDevices = Some ranked /\
    result =
      match browser_version_type userAgent with
      | EXACT => List.find (isExactMatch userAgent) ranked
      | PREVIOUS => ranked !! 1
      | LATEST => ranked !! 0
      end.
Proof.
  unfold getMatchingCbtUserAgent_.
  destruct (rankedCbtUserAgents engine userAgent allCbtDevices) as [ranked|]; [|done].
  simpl. intros [= <-]. by exists ranked.
Qed.


(** A candidate that is returned is one of the ranked list, and so one of
    the matching list. *)
Lemma getMatchingCbtUserAgent_elem engine userAgent allCbtDevices c :
  getMatchingCbtUserAgent_ engine userAgent allCbtDevices = Some (Some c) ->
  exists matching ranked,
    matchingCbtUserAgents userAgent allCbtDevices = Some matching /\
    rankedCbtUserAgents engine userAgent allCbtDevices = Some ranked /\
    c ∈ ranked /\ c ∈ matching.
Proof.
  intros H. apply getMatchingCbtUserAgent_inv in H as (ranked & Hr & H).
  destruct (ranked_inv _ _ _ _ Hr) as (matching & Hm & _ & Hp).
  exists matching, ranked. split; [done|]. split; [done|].
  assert (Hc : c ∈ ranked).
  { destruct (browser_version_type userAgent).
    - symmetry in H. apply find_some in H as [H _]. by apply list_elem_of_In.
    - symmetry in H. by apply list_elem_of_lookup_2 in H.
    - symmetry in H. by apply list_elem_of_lookup_2 in H. }
  split; [done|]. by rewrite <- Hp.
Qed.

Lemma every_spec {A} (p : A -> nat -> bool) (l : list A) : forall i0,
  JsArray.every p l i0 = true <->
  forall i x, l !! i = Some x -> p x (i0 + i) = true.
Proof.
  induction l as [|a l IH]; intros i0; simpl.
  - split; [|done]. intros _ i x H. by rewrite lookup_nil in H.
  - rewrite andb_true_iff, IH. split.
    + intros [H0 H] [|i] x Hx; simpl in Hx.
      * injection Hx as <-. by rewrite Nat.add_0_r.
      * rewrite <- Nat.add_succ_comm. by apply H.
    + intros H. split.
      * specialize (H 0 a eq_refl). by rewrite Nat.add_0_r in H.
      * intros i x Hx. specialize (H (S i) x Hx). by rewrite <- Nat.add_succ_comm in H.
Qed.

Lemma isExactMatch_agrees userAgent c :
  isExactMatch userAgent c = true <-> agrees userAgent c.
Proof.
  unfold isExactMatch, agrees. cbv zeta. rewrite every_spec. simpl. split.
  - intros H i x Hx. specialize (H i x Hx).
    destruct (parseVersionNumber (br_version (browser c)) !! i) as [y|]; [|done].
    by exists y.
  - intros H i x Hx. destruct (H i x Hx) as (y & -> & Hy). done.
Qed.

Lemma find_first {A} (p : A -> bool) (l : list A) :
  match List.find p l with
  | Some x =>
      exists before after,
        l = before ++ x :: after /\ p x = true /\ Forall (fun y => p y = false) before
  | None => Forall (fun y => p y = false) l
  end.
Proof.
  induction l as [|a l IH]; simpl; [constructor|].
  destruct (p a) eqn:E.
  - exists [], l. by repeat split.
  - destruct (List.find p l) as [x|].
    + destruct IH as (before & after & -> & Hx & Hb).
      exists (a :: before), after. repeat split; [done|by constructor].
    + by constructor.
Qed.

(** C3: under the EXACT policy the result is the first ranked candidate
    whose parsed browser version agrees with the parsed target at every
    index of the target, and [undefined] when no candidate does; the target
    "64" matches the browser version "64.0.3282" and not "63.0.1". There is
    no result only when the loops before the ranking throw. *)
Theorem exact_policy_prefix_match (engine : JsArray.Engine) (userAgent : UserAgent)
  (allCbtDevices : list CbtDevice) :
  browser_version_type userAgent = EXACT ->
  match rankedCbtUserAgents engine userAgent allCbtDevices,
        getMatchingCbtUserAgent_ engine userAgent allCbtDevices with
  | Some ranked, Some (Some c) =>
      exists before after,
        ranked = before ++ c :: after /\
        agrees userAgent c /\
        Forall (fun c' => ~ agrees userAgent c') before
  | Some ranked, Some None => Forall (fun c' => ~ agrees userAgent c') ranked
  | None, None => True
  | _, _ => False
  end /\
  (forall device,
     isExactMatch (Sample.chromeOnWindows EXACT "64")
                  {| device := device; browser := Sample.chrome64 |} = true /\
     isExactMatch (Sample.chromeOnWindows EXACT "64")
                  {| device := device; browser := Sample.chrome63 |} = false).
Proof.
  intros E. split; [|by intros d; vm_compute].
  unfold getMatchingCbtUserAgent_. rewrite E.
  destruct (rankedCbtUserAgents engine userAgent allCbtDevices) as [ranked|]; [|done].
  simpl.
  pose proof (find_first (isExactMatch userAgent) ranked) as H.
  assert (Hneg : forall l, Forall (fun y => isExactMatch userAgent y = false) l ->
                           Forall (fun c' => ~ agrees userAgent c') l).
  { intros l Hl. induction Hl as [|c' l Hc' Hl IH]; constructor; [|done].
    intros Ha. apply isExactMatch_agrees in Ha. congruence. }
  destruct (List.find _ _) as [c|].
  - destruct H as (before & after & H1 & H2 & H3). exists before, after.
    split; [done|]. split; [by apply isExactMatch_agrees|by apply Hneg].
  - by apply Hneg.
Qed.

Lemma exact_policy_prefix_match_witness :
  getMatchingCbtUserAgent_ insertionEngine (Sample.chromeOnWindows EXACT "63")
                           Sample.catalog =
    Some (Some {| device := Sample.win10; browser := Sample.chrome63 |}) /\
  match rankedCbtUserAgents insertionEngine (Sample.chromeOnWindows EXACT "63")
                            Sample.catalog,
        getMatchingCbtUserAgent_ insertionEngine (Sample.chromeOnWindows EXACT "63")
                                 Sample.catalog with
  | Some ranked, Some (Some c) =>
      exists before after,
        ranked = before ++ c :: after /\
        agrees (Sample.chromeOnWindows EXACT "63") c /\
        Forall (fun c' => ~ agrees (Sample.chromeOnWindows EXACT "63") c') before
  | Some ranked, Some None =>
      Forall (fun c' => ~ agrees (Sample.chromeOnWindows EXACT "63") c') ranked
  | None, None => True
  | _, _ => False
  end /\
  (forall device,
     isExactMatch (Sample.chromeOnWindows EXACT "64")
                  {| device := device; browser := Sample.chrome64 |} = true /\
     isExactMatch (Sample.chromeOnWindows EXACT "64")
                  {| device := device; browser := Sample.chrome63 |} = false).
Proof.
  split; [by vm_compute|].
  apply (exact_policy_prefix_match insertionEngine (Sample.chromeOnWindows EXACT "63")
           Sample.catalog).
  reflexivity.
Defined.

(** C4: a browser whose API name followed by "x64" is the API name of a
    browser anywhere in the catalog is no candidate: it is neither in the
    matching list, nor in the ranked list, nor the result. *)
Theorem x64_sibling_excluded (engine : JsArray.Engine) (userAgent : UserAgent)
  (allCbtDevices : list CbtDevice)
  (cbtDevice : CbtDevice) (cbtBrowser : CbtBrowser)
  (otherDevice : CbtDevice) (sibling : CbtBrowser) :
  otherDevice ∈ allCbtDevices ->
  sibling ∈ dev_browsers otherDevice ->
  br_api_name sibling = (br_api_name cbtBrowser +:+ "x64")%string ->
  (forall matching,
     matchingCbtUserAgents userAgent allCbtDevices = Some matching ->
     {| device := cbtDevice; browser := cbtBrowser |} ∉ matching) /\
  (forall ranked,
     rankedCbtUserAgents engine userAgent allCbtDevices = Some ranked ->
     {| device := cbtDevice; browser := cbtBrowser |} ∉ ranked) /\
  (getMatchingCbtUserAgent_ engine userAgent allCbtDevices <>
     Some (Some {| device := cbtDevice; browser := cbtBrowser |})).
Proof.
  intros Hd Hb Hn.
  assert (H1 : forall matching,
             matchingCbtUserAgents userAgent allCbtDevices = Some matching ->
             {| device := cbtDevice; browser := cbtBrowser |} ∉ matching).
  { intros matching Hm Hc.
    apply (matchingCbtUserAgents_spec _ _ _ _ Hm) in Hc as (_ & _ & _ & _ & _ & Hx).
    apply Hx. apply allBrowserApiNames_spec. by exists otherDevice, sibling. }
  split; [done|]. split.
  - intros ranked Hr Hc. destruct (ranked_inv _ _ _ _ Hr) as (matching & Hm & _ & Hp).
    apply (H1 matching Hm). by rewrite <- Hp.
  - intros Hr. apply getMatchingCbtUserAgent_elem in Hr as (matching & _ & Hm & _ & _ & Hc).
    by apply (H1 matching Hm).
Qed.

Lemma x64_sibling_excluded_witness :
  matchingCbtUserAgents (Sample.chromeOnWindows LATEST "") Sample.catalog =
    Some [ {| device := Sample.win7; browser := Sample.chrome63 |};
           {| device := Sample.win10; browser := Sample.chrome63 |};
           {| device := Sample.win10; browser := Sample.chrome64x64 |} ] /\
  (forall matching,
     matchingCbtUserAgents (Sample.chromeOnWindows LATEST "") Sample.catalog =
       Some matching ->
     {| device := Sample.win10; browser := Sample.chrome64 |} ∉ matching) /\
  (forall ranked,
     rankedCbtUserAgents insertionEngine (Sample.chromeOnWindows LATEST "")
                         Sample.catalog = Some ranked ->
     {| device := Sample.win10; browser := Sample.chrome64 |} ∉ ranked) /\
  (getMatchingCbtUserAgent_ insertionEngine (Sample.chromeOnWindows LATEST "")
                            Sample.catalog <>
     Some (Some {| device := Sample.win10; browser := Sample.chrome64 |})).
Proof.
  split; [by vm_compute|].
  apply (x64_sibling_excluded insertionEngine (Sample.chromeOnWindows LATEST "")
           Sample.catalog Sample.win10 Sample.chrome64 Sample.win10 Sample.chrome64x64).
  - unfold Sample.catalog. repeat constructor.
  - simpl. repeat constructor.
  - reflexivity.
Defined.

(* ===================================================================== *)
(** * Diffing *)
(* ===================================================================== *)

(** C1: in every result of [compareOneImage], [has_changed] is true exactly
    when [diff_pixel_count] is at least the configured
    [min_diff_pixel_count]; two results with the same count under the same
    threshold have the same verdict, whatever their fractions are. *)
Theorem has_changed_iff_count_reaches_threshold (env : Env) (reportData : ReportData)
  (actualImageFile expectedImageFile : TestFile) (result : DiffImageResult) :
  compareOneImage env reportData actualImageFile expectedImageFile = Some result ->
  (has_changed result = true <->
   Js.ge (diff_pixel_count result) (min_diff_pixel_count env) = true) /\
  (forall env' reportData' actual' expected' result',
     compareOneImage env' reportData' actual' expected' = Some result' ->
     min_diff_pixel_count env' = min_diff_pixel_count env ->
     diff_pixel_count result' = diff_pixel_count result ->
     has_changed result' = has_changed result).
Proof.
  intros H. apply compareOneImage_inv in H as (r & bm & _ & _ & _ & _ & Hc).
  split; [by rewrite Hc|].
  intros env' rd' a' e' res' H' Hmin Hcount.
  apply compareOneImage_inv in H' as (r' & bm' & _ & _ & _ & _ & Hc').
  by rewrite Hc, Hc', Hmin, Hcount.
Qed.

Lemma has_changed_iff_count_reaches_threshold_witness :
  (has_changed Sample.fivePixels = true <->
   Js.ge (diff_pixel_count Sample.fivePixels) (Js.of_Z 3) = true) /\
  (forall env' reportData' actual' expected' result',
     compareOneImage env' reportData' actual' expected' = Some result' ->
     min_diff_pixel_count env' = Js.of_Z 3 ->
     diff_pixel_count result' = diff_pixel_count Sample.fivePixels ->
     has_changed result' = has_changed Sample.fivePixels).
Proof.
  apply (has_changed_iff_count_reaches_threshold
           (Sample.env "0.05" 10 10 3) Sample.report
           (Sample.file "a.png") (Sample.file "golden.png") Sample.fivePixels).
  by vm_compute.
Defined.

(** C9, as stated, fails: for an image of 1 by 3 pixels with one pixel that
    differs, the mismatch resemblejs reports is (1 / 3) * 100, and the
    count is that times 1 times 3, which falls short of 100 by one unit in
    the last place: it is no integer. *)
Lemma diff_pixel_count_fractional :
  Sample.mismatch 1 1 3 = Js.Number (chars "33.33333333333333") /\
  option_map (fun result => diff_pixel_count result)
    (compareOneImage (Sample.envPixels 1 1 3 1) Sample.report
                     (Sample.file "a.png") (Sample.file "golden.png"))
  = Some (Js.Number (chars "99.99999999999999")) /\
  option_map (fun result => Js.is_integer (diff_pixel_count result))
    (compareOneImage (Sample.envPixels 1 1 3 1) Sample.report
                     (Sample.file "a.png") (Sample.file "golden.png"))
  = Some false.
Proof. by vm_compute. Qed.

Lemma positiveFinite_inv x :
  positiveFinite x -> exists m e, x = S754_finite false m e.
Proof.
  intros [H1 H2]. destruct x as [s|s| |s m e]; try done.
  destruct s; [done|]. by exists m, e.
Qed.

(** The calls a comparison that resolves has made, and what it returns. *)
Lemma compareOneImage_steps env rd a e res :
  compareOneImage env rd a e = Some res ->
  exists actualImageBuffer expectedImageBuffer resembleComparisonResult jimpImage,
    fs_readFile env (absolute_path a) = Some actualImageBuffer /\
    fs_readFile env (absolute_path e) = Some expectedImageBuffer /\
    compareImages env actualImageBuffer expectedImageBuffer =
      Some resembleComparisonResult /\
    Jimp_read env (getBuffer resembleComparisonResult) = Some jimpImage /\
    diff_pixel_fraction res = rawMisMatchPercentage resembleComparisonResult /\
    diff_pixel_count res =
      Js.mul (Js.mul (rawMisMatchPercentage resembleComparisonResult) (width jimpImage))
             (height jimpImage).
Proof.
  unfold compareOneImage, analyzeComparisonResult_, computeDiff_. intros H.
  destruct (fs_readFile env (absolute_path a)) as [b1|]; [|done]. simpl in H.
  destruct (fs_readFile env (absolute_path e)) as [b2|]; [|done]. simpl in H.
  destruct (compareImages env b1 b2) as [r|] eqn:Er; [|done]. simpl in H.
  destruct (Jimp_read env (getBuffer r)) as [bm|] eqn:Eb; [|done]. simpl in H.
  destruct (mkdirp_sync env _); [|done]. simpl in H.
  destruct (fs_writeFile env _ _); [|done]. simpl in H.
  injection H as <-. exists b1, b2, r, bm. simpl. eauto 10.
Qed.

(** C9, amended: in every result of [compareOneImage], [diff_pixel_count]
    is the product [diff_pixel_fraction * width * height] of binary64
    numbers, not rounded to an integer, where the fraction is the mismatch
    [compareImages] reported for the two files and the width and the height
    are those of the image Jimp reads from the diff buffer; it is not NaN
    and not negative when the fraction is not negative and the width and the
    height are positive and finite. *)
Theorem diff_pixel_count_nonnegative_product (env : Env) (reportData : ReportData)
  (actualImageFile expectedImageFile : TestFile) (result : DiffImageResult) :
  compareOneImage env reportData actualImageFile expectedImageFile = Some result ->
  exists actualImageBuffer expectedImageBuffer resembleComparisonResult jimpImage,
    fs_readFile env (absolute_path actualImageFile) = Some actualImageBuffer /\
    fs_readFile env (absolute_path expectedImageFile) = Some expectedImageBuffer /\
    compareImages env actualImageBuffer expectedImageBuffer =
      Some resembleComparisonResult /\
    Jimp_read env (getBuffer resembleComparisonResult) = Some jimpImage /\
    diff_pixel_fraction result = rawMisMatchPercentage resembleComparisonResult /\
    diff_pixel_count result =
      Js.mul (Js.mul (diff_pixel_fraction result) (width jimpImage))
             (height jimpImage) /\
    (Js.ge (diff_pixel_fraction result) Js.pzero = true ->
     positiveFinite (width jimpImage) -> positiveFinite (height jimpImage) ->
     Js.ge (diff_pixel_count result) Js.pzero = true /\
     Js.is_nan (diff_pixel_count result) = false).
Proof.
  intros H.
  apply compareOneImage_steps in H as (b1 & b2 & r & bm & H1 & H2 & H3 & H4 & Hf & Hc).
  exists b1, b2, r, bm. repeat (split; [done|]).
  split; [by rewrite Hf|].
  intros Hge Hw Hh.
  assert (G : Js.ge (diff_pixel_count result) Js.pzero = true).
  { rewrite Hc. apply mul_nonneg; [|by apply positiveFinite_inv].
    apply mul_nonneg; [by rewrite <- Hf|by apply positiveFinite_inv]. }
  split; [done|]. by destruct (diff_pixel_count result).
Qed.

Lemma diff_pixel_count_nonnegative_product_witness :
  compareOneImage (Sample.env "0.05" 10 10 3) Sample.report
                  (Sample.file "a.png") (Sample.file "golden.png") =
    Some Sample.fivePixels /\
  Js.mul (Js.mul (diff_pixel_fraction Sample.fivePixels) (Js.of_Z 10)) (Js.of_Z 10) =
    Js.of_Z 5 /\
  exists actualImageBuffer expectedImageBuffer resembleComparisonResult jimpImage,
    fs_readFile (Sample.env "0.05" 10 10 3) (absolute_path (Sample.file "a.png")) =
      Some actualImageBuffer /\
    fs_readFile (Sample.env "0.05" 10 10 3) (absolute_path (Sample.file "golden.png")) =
      Some expectedImageBuffer /\
    compareImages (Sample.env "0.05" 10 10 3) actualImageBuffer expectedImageBuffer =
      Some resembleComparisonResult /\
    Jimp_read (Sample.env "0.05" 10 10 3) (getBuffer resembleComparisonResult) =
      Some jimpImage /\
    diff_pixel_fraction Sample.fivePixels =
      rawMisMatchPercentage resembleComparisonResult /\
    diff_pixel_count Sample.fivePixels =
      Js.mul (Js.mul (diff_pixel_fraction Sample.fivePixels) (width jimpImage))
             (height jimpImage) /\
    (Js.ge (diff_pixel_fraction Sample.fivePixels) Js.pzero = true ->
     positiveFinite (width jimpImage) -> positiveFinite (height jimpImage) ->
     Js.ge (diff_pixel_count Sample.fivePixels) Js.pzero = true /\
     Js.is_nan (diff_pixel_count Sample.fivePixels) = false).
Proof.
  split; [by vm_compute|]. split; [by vm_compute|].
  apply (diff_pixel_count_nonnegative_product
           (Sample.env "0.05" 10 10 3) Sample.report
           (Sample.file "a.png") (Sample.file "golden.png") Sample.fivePixels).
  by vm_compute.
Defined.

Lemma filter_all {A} (P : A -> Prop) `{forall x, Decision (P x)} (l : list A) :
  Forall P l -> filter P l = l.
Proof.
  induction 1 as [|x l Hx Hl IH]; [done|].
  by rewrite filter_cons, decide_True, IH.
Qed.

(** C6: every run appends each screenshot whose comparison resolves to
    exactly one of the two lists, to the changed list exactly when the diff
    result of the comparison, which the screenshot then holds, has
    [has_changed] set; when the run completes, the two appended parts hold
    the comparable screenshots once each, and every screenshot of
    [changed_screenshot_browser_map] is in [changed_screenshot_list]. *)
Theorem compareAllScreenshots_partitions (env : Env) (schedule : list ref)
  (reportData reportData' : ReportData) (completion : Completion) :
  schedule ≡ₚ comparable_screenshot_list reportData ->
  compareAllScreenshots env schedule reportData = (reportData', completion) ->
  exists newChanged newUnchanged,
    changed_screenshot_list reportData' =
      changed_screenshot_list reportData ++ newChanged /\
    unchanged_screenshot_list reportData' =
      unchanged_screenshot_list reportData ++ newUnchanged /\
    newChanged ++ newUnchanged ≡ₚ
      filter (fun r => is_Some (outcome env reportData r))
             (comparable_screenshot_list reportData) /\
    (forall r, r ∈ newChanged ->
       exists result, outcome env reportData r = Some result /\
                      diffedAs (heap reportData') true r result) /\
    (forall r, r ∈ newUnchanged ->
       exists result, outcome env reportData r = Some result /\
                      diffedAs (heap reportData') false r result) /\
    (completion = Fulfilled ->
       newChanged ++ newUnchanged ≡ₚ comparable_screenshot_list reportData /\
       forall key list r,
         changed_screenshot_browser_map reportData' !! key = Some list ->
         r ∈ screenshots list -> r ∈ changed_screenshot_list reportData').
Proof.
  intros Hperm Hrun. unfold compareAllScreenshots in Hrun.
  destruct (settleAll_settled env schedule reportData) as (nc & nu & Hs).
  destruct (settleAll env schedule reportData) as [rd ok]. simpl in Hs.
  destruct Hs as [Hmeta Hmap Hc Hu Hp Hok Hout Hhc Hhu].
  exists nc, nu. destruct ok.
  - destruct (assignMaps_spec rd reportData' completion Hrun) as (Hh & Hcl & Hul & Hm).
    rewrite Hcl, Hul, Hh. split; [done|]. split; [done|].
    split; [by rewrite Hp, Hperm|]. split; [done|]. split; [done|].
    intros Hf. split.
    + rewrite Hp, filter_all; [done|]. by apply Hok.
    + rewrite <- Hcl. by apply Hm.
  - injection Hrun as <- <-. split; [done|]. split; [done|].
    split; [by rewrite Hp, Hperm|]. by split.
Qed.

(** On the sample report, with the comparisons completing in the order 2,
    0, 1: the screenshot 1 is appended to the changed list and the
    screenshots 2 and 0 to the unchanged list. *)
Lemma compareAllScreenshots_partitions_witness :
  Sample.settled = (Sample.settledReport, Fulfilled) /\
  changed_screenshot_list Sample.settledReport = [1] /\
  unchanged_screenshot_list Sample.settledReport = [2; 0] /\
  exists newChanged newUnchanged,
    changed_screenshot_list Sample.settledReport =
      changed_screenshot_list Sample.report ++ newChanged /\
    unchanged_screenshot_list Sample.settledReport =
      unchanged_screenshot_list Sample.report ++ newUnchanged /\
    newChanged ++ newUnchanged ≡ₚ
      filter (fun r => is_Some (outcome Sample.envBySize Sample.report r))
             (comparable_screenshot_list Sample.report) /\
    (forall r, r ∈ newChanged ->
       exists result, outcome Sample.envBySize Sample.report r = Some result /\
                      diffedAs (heap Sample.settledReport) true r result) /\
    (forall r, r ∈ newUnchanged ->
       exists result, outcome Sample.envBySize Sample.report r = Some result /\
                      diffedAs (heap Sample.settledReport) false r result) /\
    (Fulfilled = Fulfilled ->
       newChanged ++ newUnchanged ≡ₚ comparable_screenshot_list Sample.report /\
       forall key list r,
         changed_screenshot_browser_map Sample.settledReport !! key = Some list ->
         r ∈ screenshots list -> r ∈ changed_screenshot_list Sample.settledReport).
Proof.
  split; [by vm_compute|]. split; [by vm_compute|]. split; [by vm_compute|].
  apply (compareAllScreenshots_partitions Sample.envBySize [2; 0; 1] Sample.report
           Sample.settledReport Fulfilled).
  - simpl. etrans; [apply perm_swap|]. apply perm_skip, perm_swap.
  - by vm_compute.
Defined.

(* ===================================================================== *)
(** * Further facts about the differ *)
(* ===================================================================== *)

Section MoreDifferFacts.
Variable env : Env.

Lemma set_diffed_diffedObject rd schedule r s res :
  set_diffed res (diffedObject env rd schedule r s) = set_diffed res s.
Proof.
  unfold diffedObject. destruct (outcome env rd r); [|done].
  by case_bool_decide.
Qed.

Lemma diffedObject_files rd schedule r s :
  html_file_path (diffedObject env rd schedule r s) = html_file_path s /\
  user_agent (diffedObject env rd schedule r s) = user_agent s /\
  actual_image_file (diffedObject env rd schedule r s) = actual_image_file s /\
  expected_image_file (diffedObject env rd schedule r s) = expected_image_file s.
Proof.
  unfold diffedObject. destruct (outcome env rd r); [|done].
  by case_bool_decide.
Qed.

Lemma diffedObject_nil rd r s : diffedObject env rd [] r s = s.
Proof.
  unfold diffedObject. destruct (outcome env rd r); [|done].
  case_bool_decide as H; [|done]. by apply elem_of_nil in H.
Qed.

Lemma diffedObject_snoc_ne rd schedule x r s :
  r <> x -> diffedObject env rd (schedule ++ [x]) r s = diffedObject env rd schedule r s.
Proof.
  intros Hne. unfold diffedObject. destruct (outcome env rd r); [|done].
  rewrite (bool_decide_ext (r ∈ schedule ++ [x]) (r ∈ schedule)); [done|].
  rewrite elem_of_app, list_elem_of_singleton. tauto.
Qed.

Lemma filter_snoc_if {A} (P : A -> Prop) `{forall x, Decision (P x)} (l : list A) x :
  filter P (l ++ [x]) = filter P l ++ (if decide (P x) then [x] else []).
Proof. rewrite filter_app, filter_cons, filter_nil. by destruct (decide (P x)). Qed.

(** What the settling loop leaves. *)
Lemma settleAll_exact schedule rd :
  let rd' := (settleAll env schedule rd).1 in
  meta rd' = meta rd /\
  comparable_screenshot_list rd' = comparable_screenshot_list rd /\
  changed_screenshot_browser_map rd' = changed_screenshot_browser_map rd /\
  changed_screenshot_page_map rd' = changed_screenshot_page_map rd /\
  unchanged_screenshot_browser_map rd' = unchanged_screenshot_browser_map rd /\
  unchanged_screenshot_page_map rd' = unchanged_screenshot_page_map rd /\
  changed_screenshot_list rd' =
    changed_screenshot_list rd ++ filter (fun r => verdict env rd r = Some true) schedule /\
  unchanged_screenshot_list rd' =
    unchanged_screenshot_list rd ++ filter (fun r => verdict env rd r = Some false) schedule /\
  (forall r, heap rd' !! r = diffedObject env rd schedule r <$> heap rd !! r) /\
  ((settleAll env schedule rd).2 = true <->
   Forall (fun r => is_Some (outcome env rd r)) schedule).
Proof.
  unfold settleAll. induction schedule as [|x schedule IH] using rev_ind.
  - simpl. rewrite !app_nil_r. repeat split; try done.
    intros r. destruct (heap rd !! r) as [s|]; [|done]. simpl.
    by rewrite diffedObject_nil.
  - rewrite foldl_app. simpl.
    destruct (foldl _ _ schedule) as [rd1 ok]. simpl in IH.
    destruct IH as (Hm & Hcmp & M1 & M2 & M3 & M4 & Hc & Hu & Hh & Hok).
    assert (Ho : outcome env rd x =
              s ← heap rd1 !! x;
              compareOneImage env rd1 (actual_image_file s) (expected_image_file s)).
    { unfold outcome. rewrite Hh. destruct (heap rd !! x) as [s|]; [|done]. simpl.
      destruct (diffedObject_files rd schedule x s) as (_ & _ & -> & ->).
      symmetry. by apply compareOneImage_meta. }
    unfold compareOneScreenshot_.
    destruct (heap rd1 !! x) as [s1|] eqn:E1; simpl in *; cycle 1.
    { assert (Hv : verdict env rd x = None) by (unfold verdict; by rewrite Ho).
      rewrite !filter_snoc_if, !decide_False, !app_nil_r by (by rewrite Hv).
      repeat split; try done.
      - intros r. rewrite Hh. destruct (heap rd !! r) as [s|] eqn:Es; [|done]. simpl.
        f_equal. destruct (decide (r = x)) as [-> | Hne].
        + unfold diffedObject. by rewrite Ho.
        + by rewrite diffedObject_snoc_ne.
      - rewrite Forall_app, Forall_singleton, Ho. by intros [_ [? ?]]. }
    destruct (compareOneImage env rd1 _ _) as [res|] eqn:Er; simpl in *; cycle 1.
    { assert (Hv : verdict env rd x = None) by (unfold verdict; by rewrite Ho).
      rewrite !filter_snoc_if, !decide_False, !app_nil_r by (by rewrite Hv).
      repeat split; try done.
      - intros r. rewrite Hh. destruct (heap rd !! r) as [s|] eqn:Es; [|done]. simpl.
        f_equal. destruct (decide (r = x)) as [-> | Hne].
        + unfold diffedObject. by rewrite Ho.
        + by rewrite diffedObject_snoc_ne.
      - rewrite Forall_app, Forall_singleton, Ho. by intros [_ [? ?]]. }
    assert (Hheap : forall r,
      <[x := set_diffed res s1]> (heap rd1) !! r =
      diffedObject env rd (schedule ++ [x]) r <$> heap rd !! r).
    { intros r. destruct (decide (r = x)) as [-> | Hne].
      - rewrite lookup_insert_eq. rewrite Hh in E1.
        destruct (heap rd !! x) as [s|]; [|done]. simpl in *. injection E1 as <-.
        rewrite set_diffed_diffedObject. unfold diffedObject. rewrite Ho.
        rewrite bool_decide_true; [done|]. apply elem_of_app. right. by left.
      - rewrite lookup_insert_ne by done. rewrite Hh.
        destruct (heap rd !! r) as [s|]; [|done]. simpl. by rewrite diffedObject_snoc_ne. }
    assert (Hok' : ok = true <->
                   Forall (fun r => is_Some (outcome env rd r)) (schedule ++ [x])).
    { rewrite Hok, Forall_app, Forall_singleton, Ho. split; [by intros|by intros []]. }
    assert (Hv : verdict env rd x = Some (has_changed res))
      by (unfold verdict; by rewrite Ho).
    rewrite !filter_snoc_if.
    destruct (has_changed res) eqn:Ech; simpl.
    + rewrite decide_True, decide_False, app_nil_r by (by rewrite Hv).
      rewrite Hc, <- app_assoc. repeat split; try done; by apply Hok'.
    + rewrite decide_False, decide_True, app_nil_r by (by rewrite Hv).
      rewrite Hu, <- app_assoc. repeat split; try done; by apply Hok'.
Qed.
End MoreDifferFacts.

Section Grouping.
Variable key : Screenshot -> string.
Variable h : gmap ref Screenshot.

Lemma members_snoc k l x :
  members key h k (l ++ [x]) =
  members key h k l ++ (if decide (keyOf key h x = Some k) then [x] else []).
Proof. unfold members. by rewrite filter_snoc_if. Qed.

Lemma members_elem k l r :
  r ∈ members key h k l <-> r ∈ l /\ keyOf key h r = Some k.
Proof. unfold members. rewrite list_elem_of_filter. tauto. Qed.

Lemma groupOf_None k l : groupOf key h k l = None <-> members key h k l = [].
Proof. unfold groupOf. by destruct (members key h k l). Qed.

Lemma groupOf_Some k l g :
  groupOf key h k l = Some g <->
  members key h k l <> [] /\ g = {| screenshots := members key h k l |}.
Proof.
  unfold groupOf. destruct (members key h k l) eqn:E.
  - split; [done|]. by intros [? _].
  - split; [by intros [= <-]|by intros [_ ->]].
Qed.

(** The grouping loop files every screenshot under its key, in the order of
    the array; it throws exactly when a reference is not groupable. *)
Lemma groupBy_spec l :
  match groupBy key h l with
  | Some m => Forall (groupable key h) l /\ forall k, m !! k = groupOf key h k l
  | None => ~ Forall (groupable key h) l
  end.
Proof.
  unfold groupBy. induction l as [|x l IH] using rev_ind.
  - simpl. split; [constructor|]. intros k. by rewrite lookup_empty.
  - rewrite foldl_app. simpl.
    destruct (foldl _ _ l) as [m|]; simpl; cycle 1.
    { rewrite Forall_app. tauto. }
    destruct IH as [Hl Hm].
    destruct (h !! x) as [s|] eqn:Es; simpl; cycle 1.
    { rewrite Forall_app, Forall_singleton. intros [_ (s & Hs & _)]. congruence. }
    assert (Hkx : keyOf key h x = Some (key s)) by (unfold keyOf; by rewrite Es).
    unfold groupStep. rewrite Hm.
    destruct (groupOf key h (key s) l) as [g|] eqn:Eg.
    + apply groupOf_Some in Eg as [Hne ->]. simpl. split.
      * rewrite Forall_app, Forall_singleton. split; [done|].
        destruct (members key h (key s) l) as [|r g] eqn:Em; [done|].
        assert (Hr : r ∈ members key h (key s) l) by (rewrite Em; left).
        apply members_elem in Hr as [Hr Hk].
        rewrite Forall_forall in Hl. destruct (Hl r Hr) as (s' & Hs' & Hp).
        exists s. split; [done|]. unfold keyOf in Hk. rewrite Hs' in Hk.
        simpl in Hk. injection Hk as Hk. by rewrite <- Hk.
      * intros k. unfold groupOf. rewrite members_snoc.
        destruct (decide (k = key s)) as [-> | Hne'].
        -- rewrite lookup_insert_eq, decide_True by done.
           destruct (members key h (key s) l); [done|]. done.
        -- rewrite lookup_insert_ne by done. rewrite decide_False by congruence.
           rewrite app_nil_r. apply Hm.
    + apply groupOf_None in Eg. case_bool_decide as Hp.
      * rewrite Forall_app, Forall_singleton. intros [_ (s' & Hs' & Hp')]. congruence.
      * split.
        -- rewrite Forall_app, Forall_singleton. split; [done|]. by exists s.
        -- intros k. unfold groupOf. rewrite members_snoc.
           destruct (decide (k = key s)) as [-> | Hne'].
           ++ rewrite lookup_insert_eq, decide_True by done. by rewrite Eg.
           ++ rewrite lookup_insert_ne by done. rewrite decide_False by congruence.
              rewrite app_nil_r. apply Hm.
Qed.

End Grouping.

Lemma assignMaps_exact rd :
  let rd' := (assignMaps rd).1 in
  meta rd' = meta rd /\
  heap rd' = heap rd /\
  comparable_screenshot_list rd' = comparable_screenshot_list rd /\
  changed_screenshot_list rd' = changed_screenshot_list rd /\
  unchanged_screenshot_list rd' = unchanged_screenshot_list rd /\
  ((assignMaps rd).2 = Fulfilled <->
   allGroupable byAlias rd /\ allGroupable html_file_path rd) /\
  ((assignMaps rd).2 = Fulfilled ->
   forall k,
     changed_screenshot_browser_map rd' !! k =
       groupOf byAlias (heap rd) k (changed_screenshot_list rd) /\
     changed_screenshot_page_map rd' !! k =
       groupOf html_file_path (heap rd) k (changed_screenshot_list rd) /\
     unchanged_screenshot_browser_map rd' !! k =
       groupOf byAlias (heap rd) k (unchanged_screenshot_list rd) /\
     unchanged_screenshot_page_map rd' !! k =
       groupOf html_file_path (heap rd) k (unchanged_screenshot_list rd)).
Proof.
  unfold assignMaps, allGroupable, groupByBrowser_, groupByPage_. rewrite !Forall_app.
  pose proof (groupBy_spec byAlias (heap rd) (changed_screenshot_list rd)) as H1.
  pose proof (groupBy_spec html_file_path (heap rd) (changed_screenshot_list rd)) as H2.
  pose proof (groupBy_spec byAlias (heap rd) (unchanged_screenshot_list rd)) as H3.
  pose proof (groupBy_spec html_file_path (heap rd) (unchanged_screenshot_list rd)) as H4.
  unfold byAlias in *.
  destruct (groupBy _ (heap rd) (changed_screenshot_list rd)) as [cb|]; simpl;
    [|repeat split; try done; tauto].
  destruct (groupBy html_file_path (heap rd) (changed_screenshot_list rd)) as [cp|]; simpl;
    [|repeat split; try done; tauto].
  destruct (groupBy _ (heap rd) (unchanged_screenshot_list rd)) as [ub|]; simpl;
    [|repeat split; try done; tauto].
  destruct (groupBy html_file_path (heap rd) (unchanged_screenshot_list rd)) as [up|]; simpl;
    [|repeat split; try done; tauto].
  repeat split; try done; try tauto.
  - apply H1. - apply H2. - apply H3. - apply H4.
Qed.

Section RunFacts.
Variable env : Env.

End RunFacts.

(* ===================================================================== *)
(** * The run of [compareAllScreenshots] *)
(* ===================================================================== *)

(** X1: the two result lists grow by the screenshots whose comparison
    resolved, in the order in which the comparisons completed: the changed
    list by those that changed, the unchanged list by the others. *)
Theorem lists_grow_in_completion_order (env : Env) (schedule : list ref)
  (reportData : ReportData) :
  let reportData' := (compareAllScreenshots env schedule reportData).1 in
  changed_screenshot_list reportData' =
    changed_screenshot_list reportData ++
    filter (fun r => verdict env reportData r = Some true) schedule /\
  unchanged_screenshot_list reportData' =
    unchanged_screenshot_list reportData ++
    filter (fun r => verdict env reportData r = Some false) schedule.
Proof.
  intros rd'. subst rd'. unfold compareAllScreenshots.
  pose proof (settleAll_exact env schedule reportData) as H. cbv zeta in H.
  destruct (settleAll env schedule reportData) as [rd ok]. simpl in H.
  destruct H as (_ & _ & _ & _ & _ & _ & Hc & Hu & _ & _).
  destruct ok; [|done].
  pose proof (assignMaps_exact rd) as H. cbv zeta in H.
  destruct H as (_ & _ & _ & -> & -> & _). done.
Qed.

(** X2: a run changes neither the meta data nor the comparable list, and
    adds or removes no screenshot object; the object of a screenshot that was
    diffed holds the diff result, and every object keeps its page, its user
    agent and its two image files; an object that is not compared, or whose
    comparison rejects, is left as it was. *)
Theorem compareAllScreenshots_frame (env : Env) (schedule : list ref)
  (reportData : ReportData) :
  let reportData' := (compareAllScreenshots env schedule reportData).1 in
  meta reportData' = meta reportData /\
  comparable_screenshot_list reportData' = comparable_screenshot_list reportData /\
  (forall r, heap reportData' !! r =
             diffedObject env reportData schedule r <$> heap reportData !! r) /\
  (forall r s', heap reportData' !! r = Some s' ->
     exists s, heap reportData !! r = Some s /\
       html_file_path s' = html_file_path s /\
       user_agent s' = user_agent s /\
       actual_image_file s' = actual_image_file s /\
       expected_image_file s' = expected_image_file s /\
       (r ∉ schedule \/ outcome env reportData r = None -> s' = s)).
Proof.
  intros rd'.
  assert (H : meta rd' = meta reportData /\
              comparable_screenshot_list rd' = comparable_screenshot_list reportData /\
              forall r, heap rd' !! r =
                        diffedObject env reportData schedule r <$> heap reportData !! r).
  { subst rd'. unfold compareAllScreenshots.
    pose proof (settleAll_exact env schedule reportData) as H. cbv zeta in H.
    destruct (settleAll env schedule reportData) as [rd ok]. simpl in H.
    destruct H as (Hm & Hcmp & _ & _ & _ & _ & _ & _ & Hh & _).
    destruct ok; [|done].
    pose proof (assignMaps_exact rd) as H. cbv zeta in H.
    destruct H as (-> & -> & -> & _). done. }
  destruct H as (Hm & Hcmp & Hh). split; [done|]. split; [done|]. split; [done|].
  intros r s' Hs'. rewrite Hh in Hs'.
  destruct (heap reportData !! r) as [s|]; [|done]. simpl in Hs'. injection Hs' as <-.
  exists s. split; [done|].
  destruct (diffedObject_files env reportData schedule r s) as (-> & -> & -> & ->).
  repeat split. unfold diffedObject. intros [Hr|Ho].
  - destruct (outcome env reportData r); [|done]. by rewrite bool_decide_false.
  - by rewrite Ho.
Qed.

(** X3: the promise of a run fulfils exactly when every comparison
    resolves and no screenshot of the two result lists has a user agent alias
    or a page path that names a property of [Object.prototype]. *)
Theorem compareAllScreenshots_fulfils_iff (env : Env) (schedule : list ref)
  (reportData : ReportData) :
  let reportData' := (compareAllScreenshots env schedule reportData).1 in
  (compareAllScreenshots env schedule reportData).2 = Fulfilled <->
  Forall (fun r => is_Some (outcome env reportData r)) schedule /\
  allGroupable byAlias reportData' /\
  allGroupable html_file_path reportData'.
Proof.
  intros rd'. subst rd'. unfold compareAllScreenshots.
  pose proof (settleAll_exact env schedule reportData) as H. cbv zeta in H.
  destruct (settleAll env schedule reportData) as [rd ok]. simpl in H.
  destruct H as (_ & _ & _ & _ & _ & _ & _ & _ & _ & Hok).
  destruct ok; simpl.
  - pose proof (assignMaps_exact rd) as H. cbv zeta in H.
    destruct H as (_ & Hh & _ & Hc & Hu & Hiff & _).
    rewrite Hiff. unfold allGroupable. rewrite Hh, Hc, Hu.
    split; [|tauto]. intros ?. split; [by apply Hok|done].
  - split; [done|]. intros [H _]. by apply Hok in H.
Qed.

(** X4: when the run fulfils, each of the four maps files the screenshots
    of its list under their key (the user agent alias, or the page path):
    the entry of a key holds the screenshots of the list with that key, in
    the order of the list, and a key no screenshot has is absent. *)
Theorem maps_group_lists_by_key (env : Env) (schedule : list ref)
  (reportData : ReportData) :
  (compareAllScreenshots env schedule reportData).2 = Fulfilled ->
  let reportData' := (compareAllScreenshots env schedule reportData).1 in
  forall key,
    changed_screenshot_browser_map reportData' !! key =
      groupOf byAlias (heap reportData') key (changed_screenshot_list reportData') /\
    changed_screenshot_page_map reportData' !! key =
      groupOf html_file_path (heap reportData') key
              (changed_screenshot_list reportData') /\
    unchanged_screenshot_browser_map reportData' !! key =
      groupOf byAlias (heap reportData') key (unchanged_screenshot_list reportData') /\
    unchanged_screenshot_page_map reportData' !! key =
      groupOf html_file_path (heap reportData') key
              (unchanged_screenshot_list reportData').
Proof.
  intros Hf rd' key. subst rd'. revert Hf. unfold compareAllScreenshots.
  destruct (settleAll env schedule reportData) as [rd ok].
  destruct ok; [|done]. intros Hf.
  pose proof (assignMaps_exact rd) as H. cbv zeta in H.
  destruct H as (_ & -> & _ & -> & -> & _ & Hmaps). by apply Hmaps.
Qed.

Lemma maps_group_lists_by_key_witness :
  (compareAllScreenshots Sample.envBySize [2; 0; 1] Sample.report).2 = Fulfilled /\
  unchanged_screenshot_browser_map Sample.settledReport
    !! "desktop_windows_chrome@latest"%string = Some {| screenshots := [2; 0] |} /\
  forall key,
    changed_screenshot_browser_map Sample.settledReport !! key =
      groupOf byAlias (heap Sample.settledReport) key
              (changed_screenshot_list Sample.settledReport) /\
    changed_screenshot_page_map Sample.settledReport !! key =
      groupOf html_file_path (heap Sample.settledReport) key
              (changed_screenshot_list Sample.settledReport) /\
    unchanged_screenshot_browser_map Sample.settledReport !! key =
      groupOf byAlias (heap Sample.settledReport) key
              (unchanged_screenshot_list Sample.settledReport) /\
    unchanged_screenshot_page_map Sample.settledReport !! key =
      groupOf html_file_path (heap Sample.settledReport) key
              (unchanged_screenshot_list Sample.settledReport).
Proof.
  split; [by vm_compute|]. split; [by vm_compute|].
  apply (maps_group_lists_by_key Sample.envBySize [2; 0; 1] Sample.report).
  by vm_compute.
Defined.

(** X5: when a comparison rejects, the run rejects and assigns none of the
    four maps: they are the maps the report came with. *)
Theorem rejected_comparison_leaves_maps (env : Env) (schedule : list ref)
  (reportData : ReportData) (r : ref) :
  r ∈ schedule ->
  outcome env reportData r = None ->
  let reportData' := (compareAllScreenshots env schedule reportData).1 in
  (compareAllScreenshots env schedule reportData).2 = Rejected /\
  changed_screenshot_browser_map reportData' =
    changed_screenshot_browser_map reportData /\
  changed_screenshot_page_map reportData' = changed_screenshot_page_map reportData /\
  unchanged_screenshot_browser_map reportData' =
    unchanged_screenshot_browser_map reportData /\
  unchanged_screenshot_page_map reportData' =
    unchanged_screenshot_page_map reportData.
Proof.
  intros Hr Ho rd'. subst rd'. unfold compareAllScreenshots.
  pose proof (settleAll_exact env schedule reportData) as H. cbv zeta in H.
  destruct (settleAll env schedule reportData) as [rd ok]. simpl in H.
  destruct H as (_ & _ & M1 & M2 & M3 & M4 & _ & _ & _ & Hok).
  destruct ok; [|done].
  destruct Hok as [Hok _]. specialize (Hok eq_refl).
  rewrite Forall_forall in Hok. specialize (Hok r Hr). rewrite Ho in Hok.
  by destruct Hok.
Qed.

Lemma rejected_comparison_leaves_maps_witness :
  changed_screenshot_list
    (compareAllScreenshots Sample.envUnreadable [2; 0; 1] Sample.report).1 = [] /\
  unchanged_screenshot_list
    (compareAllScreenshots Sample.envUnreadable [2; 0; 1] Sample.report).1 = [2; 0] /\
  (compareAllScreenshots Sample.envUnreadable [2; 0; 1] Sample.report).2 = Rejected /\
  changed_screenshot_browser_map
    (compareAllScreenshots Sample.envUnreadable [2; 0; 1] Sample.report).1 =
    changed_screenshot_browser_map Sample.report /\
  changed_screenshot_page_map
    (compareAllScreenshots Sample.envUnreadable [2; 0; 1] Sample.report).1 =
    changed_screenshot_page_map Sample.report /\
  unchanged_screenshot_browser_map
    (compareAllScreenshots Sample.envUnreadable [2; 0; 1] Sample.report).1 =
    unchanged_screenshot_browser_map Sample.report /\
  unchanged_screenshot_page_map
    (compareAllScreenshots Sample.envUnreadable [2; 0; 1] Sample.report).1 =
    unchanged_screenshot_page_map Sample.report.
Proof.
  split; [by vm_compute|]. split; [by vm_compute|].
  apply (rejected_comparison_leaves_maps Sample.envUnreadable [2; 0; 1] Sample.report 1).
  - repeat constructor.
  - by vm_compute.
Defined.

(* ===================================================================== *)
(** * The diff image file *)
(* ===================================================================== *)

Lemma chars_app a b : chars (a +:+ b) = chars a ++ chars b.
Proof.
  unfold chars. induction a as [|c a IH]; simpl; [done|]. by rewrite <- IH.
Qed.

Lemma chars_inj a b : chars a = chars b -> a = b.
Proof.
  unfold chars. intros H.
  by rewrite <- (string_of_list_ascii_of_string a), H, string_of_list_ascii_of_string.
Qed.

Lemma run_Lit_exact p : forall i s k,
  run false (Lit p) i s k =
  if bool_decide (take (length p) s = p) then k (i + length p) (drop (length p) s)
  else None.
Proof.
  induction p as [|c p IH]; intros i s k; simpl.
  - rewrite ?take_0, ?drop_0, Nat.add_0_r. done.
  - destruct s as [|d s]; simpl; [done|].
    unfold char_eq. destruct (Ascii.eqb_spec c d) as [-> | Hne].
    + rewrite IH, Nat.add_succ_r. simpl.
      destruct (decide (take (length p) s = p)) as [E|E].
      * rewrite !bool_decide_true; [done| by rewrite E |done].
      * rewrite !bool_decide_false; [done| |done]. intros [= ?]. done.
    + rewrite bool_decide_false; [done|]. intros [= ? ?]. done.
Qed.

Lemma suffix_drop (p s : list ascii) :
  p `suffix_of` s <-> length p <= length s /\ drop (length s - length p) s = p.
Proof.
  split.
  - intros [k ->]. rewrite length_app. split; [lia|].
    replace (length k + length p - length p) with (length k) by lia.
    by rewrite drop_app_length.
  - intros [Hl Hd]. exists (take (length s - length p) s).
    by rewrite <- Hd at 2; rewrite take_drop.
Qed.

Lemma replace_Lit_Eol_exact p repl s :
  replace false (Seq (Lit p) Eol) repl s = withSuffix p repl s.
Proof.
  unfold replace, withSuffix.
  rewrite (exec_firstGood false _ (fun t => bool_decide (t = p))).
  - rewrite (firstGood_fixed (length p)).
    + destruct (Nat.leb_spec (length p) (length s)) as [L|L]; simpl.
      * destruct (decide (drop (length s - length p) s = p)) as [E|E].
        -- rewrite bool_decide_true by done.
           rewrite bool_decide_true by (apply suffix_drop; done).
           by rewrite app_nil_r.
        -- rewrite bool_decide_false by done.
           rewrite bool_decide_false; [done|]. rewrite suffix_drop. tauto.
      * rewrite bool_decide_false; [done|]. rewrite suffix_drop. lia.
    + intros t Ht. apply bool_decide_eq_true in Ht. by subst.
  - intros i t. cbn [run]. rewrite run_Lit_exact. unfold K0.
    destruct (decide (t = p)) as [-> | Hne].
    + rewrite !bool_decide_true; [|done|by rewrite take_ge].
      by rewrite drop_all.
    + rewrite (bool_decide_false (t = p)) by done.
      case_bool_decide as E; [|done].
      destruct (drop (length p) t) eqn:D; [|done].
      exfalso. apply Hne. rewrite <- (take_drop (length p) t), D, app_nil_r. done.
Qed.

Lemma withSuffix_inj (old new s t : list ascii) :
  old `suffix_of` new ->
  withSuffix old new s = withSuffix old new t -> s = t.
Proof.
  intros Hon. unfold withSuffix.
  case_bool_decide as Hs; case_bool_decide as Ht; intros E.
  - destruct Hs as [a ->], Ht as [b ->].
    rewrite !length_app in E.
    replace (length a + length old - length old) with (length a) in E by lia.
    replace (length b + length old - length old) with (length b) in E by lia.
    rewrite !take_app_length in E. apply app_inv_tail in E. by subst.
  - exfalso. apply Ht. rewrite <- E. destruct Hon as [k ->].
    rewrite app_assoc. by eexists.
  - exfalso. apply Hs. rewrite E. destruct Hon as [k ->].
    rewrite app_assoc. by eexists.
  - done.
Qed.

(** X6: the relative path of the diff image is the relative path of the
    actual image with a final ".png" replaced by ".diff.png", and that path
    unchanged when it does not end with ".png" (in lower case); the public
    URL is the upload base URL, the upload directory and that path, and the
    absolute path joins the diff image directory and that path. *)
Theorem createDiffImageFile_paths (env : Env) (reportMeta : ReportMeta)
  (actualImageFile : TestFile) :
  let diffImageFile := createDiffImageFile_ env reportMeta actualImageFile in
  (forall stem, relative_path actualImageFile = (stem +:+ ".png")%string ->
     relative_path diffImageFile = (stem +:+ ".diff.png")%string) /\
  ((forall stem, relative_path actualImageFile <> (stem +:+ ".png")%string) ->
     relative_path diffImageFile = relative_path actualImageFile) /\
  public_url diffImageFile =
    (remote_upload_base_url reportMeta +:+ remote_upload_base_dir reportMeta +:+
     relative_path diffImageFile)%string /\
  absolute_path diffImageFile =
    path_join env (local_diff_image_base_dir reportMeta) (relative_path diffImageFile).
Proof.
  intros d. subst d. unfold createDiffImageFile_. simpl.
  unfold re_png. rewrite replace_Lit_Eol_exact. repeat split.
  - intros stem E. rewrite E, chars_app. unfold withSuffix.
    rewrite bool_decide_true by (by eexists).
    rewrite length_app. replace (length (chars stem) + _ - _) with (length (chars stem)) by lia.
    rewrite take_app_length.
    change (chars stem ++ _) with (chars stem ++ chars ".diff.png").
    rewrite <- chars_app. apply string_of_list_ascii_of_string.
  - intros Hno. unfold withSuffix. case_bool_decide as Hs.
    + exfalso. destruct Hs as [k Hk]. apply (Hno (string_of_list_ascii k)).
      apply chars_inj. rewrite chars_app, Hk. unfold chars at 2.
      by rewrite list_ascii_of_string_of_list_ascii.
    + apply string_of_list_ascii_of_string.
Qed.

(** X7: two actual images with different relative paths never get the same
    relative diff image path. *)
Theorem createDiffImageFile_injective (env env' : Env) (reportMeta reportMeta' : ReportMeta)
  (actualImageFile actualImageFile' : TestFile) :
  relative_path (createDiffImageFile_ env reportMeta actualImageFile) =
  relative_path (createDiffImageFile_ env' reportMeta' actualImageFile') ->
  relative_path actualImageFile = relative_path actualImageFile'.
Proof.
  unfold createDiffImageFile_. simpl. unfold re_png.
  rewrite !replace_Lit_Eol_exact. intros E.
  apply (f_equal list_ascii_of_string) in E.
  rewrite !list_ascii_of_string_of_list_ascii in E.
  apply withSuffix_inj in E; [by apply chars_inj|].
  by exists (chars ".diff").
Qed.

Lemma createDiffImageFile_injective_witness :
  relative_path (createDiffImageFile_ Sample.envBySize (meta Sample.report)
                                      (Sample.file "a.png")) = "a.diff.png"%string /\
  relative_path (Sample.file "a.png") = relative_path (Sample.file "a.png").
Proof.
  split; [by vm_compute|].
  apply (createDiffImageFile_injective Sample.envBySize Sample.envBySize
           (meta Sample.report) (meta Sample.report)).
  reflexivity.
Defined.

(* ===================================================================== *)
(** * The threshold *)
(* ===================================================================== *)

Lemma compare_cont_trans_gt m1 m2 m3 :
  Pos.compare_cont Eq m1 m2 <> Lt -> Pos.compare_cont Eq m2 m3 <> Lt ->
  Pos.compare_cont Eq m1 m3 <> Lt.
Proof.
  change (Pos.compare_cont Eq) with Pos.compare.
  rewrite !Pos.compare_nlt_iff. lia.
Qed.

Lemma compare_cont_trans_lt m1 m2 m3 :
  Pos.compare_cont Eq m1 m2 <> Gt -> Pos.compare_cont Eq m2 m3 <> Gt ->
  Pos.compare_cont Eq m1 m3 <> Gt.
Proof.
  change (Pos.compare_cont Eq) with Pos.compare.
  rewrite !Pos.compare_ngt_iff. lia.
Qed.

(** [>=] is transitive. *)
Lemma ge_trans x y z :
  Js.ge x y = true -> Js.ge y z = true -> Js.ge x z = true.
Proof.
  unfold Js.ge.
  destruct x as [sx|sx| |sx mx ex], y as [sy|sy| |sy my ey], z as [sz|sz| |sz mz ez];
    simpl; try done;
    try (destruct sx; try done; destruct sy; try done; destruct sz; done).
  destruct sx, sy, sz; try done.
  - destruct (Z.compare_spec ex ey), (Z.compare_spec ey ez); try done;
      destruct (Z.compare_spec ex ez); try done; try lia.
    subst. pose proof (compare_cont_trans_lt mx my mz).
    destruct (Pos.compare_cont Eq mx my), (Pos.compare_cont Eq my mz); try done;
      destruct (Pos.compare_cont Eq mx mz); try done; exfalso; by apply H.
  - destruct (Z.compare_spec ex ey), (Z.compare_spec ey ez); try done;
      destruct (Z.compare_spec ex ez); try done; try lia.
    subst. pose proof (compare_cont_trans_gt mx my mz).
    destruct (Pos.compare_cont Eq mx my), (Pos.compare_cont Eq my mz); try done;
      destruct (Pos.compare_cont Eq mx mz); try done; exfalso; by apply H.
Qed.

Lemma compareOneImage_withThreshold env t rd a e :
  compareOneImage (withThreshold t env) rd a e =
  option_map (fun res => withVerdict (Js.ge (diff_pixel_count res) t) res)
             (compareOneImage env rd a e).
Proof.
  unfold compareOneImage, analyzeComparisonResult_, computeDiff_, createDiffImageFile_.
  simpl.
  destruct (fs_readFile env (absolute_path a)); [|done]. simpl.
  destruct (fs_readFile env (absolute_path e)); [|done]. simpl.
  destruct (compareImages env _ _) as [r|]; [|done]. simpl.
  destruct (Jimp_read env _); [|done]. simpl.
  destruct (mkdirp_sync env _); [|done]. simpl.
  by destruct (fs_writeFile env _ _).
Qed.

(** X8: a screenshot that counts as changed under a threshold counts as
    changed under every lower threshold, with the same diff image, count and
    fraction. *)
Theorem has_changed_monotone_in_threshold (env : Env) (threshold' : Js.number)
  (reportData : ReportData) (actualImageFile expectedImageFile : TestFile)
  (result : DiffImageResult) :
  Js.ge (min_diff_pixel_count env) threshold' = true ->
  compareOneImage env reportData actualImageFile expectedImageFile = Some result ->
  has_changed result = true ->
  compareOneImage (withThreshold threshold' env) reportData
                  actualImageFile expectedImageFile = Some result.
Proof.
  intros Ht Hr Hc. rewrite compareOneImage_withThreshold, Hr. simpl.
  apply compareOneImage_inv in Hr as (_ & _ & _ & _ & _ & _ & Hch).
  rewrite Hc in Hch. symmetry in Hch.
  rewrite (ge_trans _ _ _ Hch Ht). destruct result. simpl in *. by subst.
Qed.

Lemma has_changed_monotone_in_threshold_witness :
  compareOneImage (withThreshold (Js.of_Z 2) (Sample.env "0.05" 10 10 3)) Sample.report
                  (Sample.file "a.png") (Sample.file "golden.png") =
  Some Sample.fivePixels.
Proof.
  apply (has_changed_monotone_in_threshold (Sample.env "0.05" 10 10 3) (Js.of_Z 2)).
  - by vm_compute.
  - by vm_compute.
  - reflexivity.
Defined.

(** X9: under a threshold that is zero or negative every comparison that
    resolves counts as changed, identical images included, as long as the
    mismatch is not negative and the image has a positive finite size. *)
Theorem nonpositive_threshold_flags_everything (env : Env) (reportData : ReportData)
  (actualImageFile expectedImageFile : TestFile) (result : DiffImageResult) :
  Js.ge Js.pzero (min_diff_pixel_count env) = true ->
  (forall b1 b2 r, compareImages env b1 b2 = Some r ->
     Js.ge (rawMisMatchPercentage r) Js.pzero = true) ->
  (forall b bm, Jimp_read env b = Some bm ->
     positiveFinite (width bm) /\ positiveFinite (height bm)) ->
  compareOneImage env reportData actualImageFile expectedImageFile = Some result ->
  has_changed result = true.
Proof.
  intros Ht Hf Hb H.
  apply compareOneImage_inv in H as (r & bm & Hbm & (b1 & b2 & Hr) & _ & Hc & ->).
  destruct (Hb _ _ Hbm) as [Hw Hh].
  apply (ge_trans _ Js.pzero); [|done]. rewrite Hc.
  apply mul_nonneg; [|by apply positiveFinite_inv].
  apply mul_nonneg; [by apply (Hf b1 b2)|by apply positiveFinite_inv].
Qed.

Lemma nonpositive_threshold_flags_everything_witness :
  option_map diff_pixel_count
    (compareOneImage (Sample.env "0" 10 10 0) Sample.report
                     (Sample.file "a.png") (Sample.file "golden.png")) = Some Js.pzero /\
  option_map has_changed
    (compareOneImage (Sample.env "0" 10 10 0) Sample.report
                     (Sample.file "a.png") (Sample.file "golden.png")) = Some true.
Proof.
  split; [by vm_compute|].
  destruct (compareOneImage (Sample.env "0" 10 10 0) Sample.report
              (Sample.file "a.png") (Sample.file "golden.png")) as [res|] eqn:E;
    [|by vm_compute in E].
  simpl. f_equal.
  apply (nonpositive_threshold_flags_everything (Sample.env "0" 10 10 0) Sample.report
           (Sample.file "a.png") (Sample.file "golden.png") res).
  - by vm_compute.
  - intros b1 b2 r H. injection H as <-. by vm_compute.
  - intros b bm H. injection H as <-. by vm_compute.
  - done.
Defined.

(** X10: a comparison whose mismatch is NaN, or that is judged against a
    threshold that is NaN, never counts as changed. *)
Theorem nan_is_never_changed (env : Env) (reportData : ReportData)
  (actualImageFile expectedImageFile : TestFile) (result : DiffImageResult) :
  compareOneImage env reportData actualImageFile expectedImageFile = Some result ->
  Js.is_nan (diff_pixel_fraction result) = true \/
  Js.is_nan (min_diff_pixel_count env) = true ->
  has_changed result = false.
Proof.
  intros H Hn.
  apply compareOneImage_inv in H as (r & bm & _ & _ & Hf & Hc & ->).
  unfold Js.ge. destruct Hn as [Hn|Hn].
  - rewrite Hc, <- Hf. by destruct (diff_pixel_fraction result).
  - destruct (min_diff_pixel_count env); try done.
    by destruct (diff_pixel_count result).
Qed.

Lemma nan_is_never_changed_witness :
  option_map has_changed
    (compareOneImage (Sample.env "n/a" 10 10 3) Sample.report
                     (Sample.file "a.png") (Sample.file "golden.png")) = Some false.
Proof.
  destruct (compareOneImage (Sample.env "n/a" 10 10 3) Sample.report
              (Sample.file "a.png") (Sample.file "golden.png")) as [res|] eqn:E;
    [|by vm_compute in E].
  simpl. f_equal.
  apply (nan_is_never_changed (Sample.env "n/a" 10 10 3) Sample.report
           (Sample.file "a.png") (Sample.file "golden.png") res E).
  left. vm_compute in E. injection E as <-. reflexivity.
Defined.

(* ===================================================================== *)
(** * Further properties of the resolution *)
(* ===================================================================== *)

Lemma split_length s : length (split "." s) = S (dots s).
Proof.
  unfold dots. induction s as [|c s IH]; [done|]. cbn [split].
  rewrite filter_cons. destruct (Ascii.eqb_spec c ".") as [-> | Hne].
  - rewrite decide_True by done. simpl. by rewrite IH.
  - rewrite decide_False by done. destruct (split "." s); simpl in *; [done|]. done.
Qed.

Lemma zeroGroup_shorter r : forall seen r',
  zeroGroup r seen = Some r' -> length r' < length r.
Proof.
  intros seen r' H. apply zeroGroup_inv in H as (n & -> & _).
  rewrite length_app. simpl. lia.
Qed.

Lemma stripGroups_done fuel : forall r,
  length r <= fuel -> zeroGroup (stripGroups fuel r) false = None.
Proof.
  induction fuel as [|fuel IH]; intros r H.
  - destruct r; [done|simpl in H; lia].
  - simpl. destruct (zeroGroup r false) as [r'|] eqn:E; [|done].
    apply IH. apply zeroGroup_shorter in E. lia.
Qed.

Lemma stripZeroGroups_final s stem zeros :
  stripZeroGroups s <> stem ++ "."%char :: replicate (S zeros) "0"%char.
Proof.
  intros E. pose proof (zeroGroup_snoc stem zeros) as Hz. unfold group in Hz.
  rewrite <- E in Hz. unfold stripZeroGroups in Hz.
  rewrite rev_involutive, stripGroups_done in Hz; [done|]. by rewrite length_rev.
Qed.

(** X11: the text [parseVersionNumber] splits never ends with a group of a
    dot and zeros, and the result holds one number for each of its
    segments: a version is never parsed to an empty array. *)
Theorem parseVersionNumber_segments (version : string) :
  (forall stem zeros,
     normalizeVersion (chars version) <> stem ++ "."%char :: replicate (S zeros) "0"%char) /\
  length (parseVersionNumber version) = S (dots (normalizeVersion (chars version))) /\
  parseVersionNumber version <> [].
Proof.
  assert (L : length (parseVersionNumber version) =
              S (dots (normalizeVersion (chars version)))).
  { unfold parseVersionNumber. cbv zeta. by rewrite length_map, split_length. }
  split; [|split; [done|]].
  - intros stem zeros. rewrite normalizeVersion_described.
    unfold Pipeline.normalize. cbv zeta. apply stripZeroGroups_final.
  - intros E. by rewrite E in L.
Qed.

(** X12: every candidate the resolution returns, under any policy, is a
    device of the catalog with one of its own browsers, and has the form
    factor, the operating system and the browser vendor that were asked
    for: the three lookup tables have an entry for the request, and its
    device name, device type and browser type are in these entries. *)
Theorem resolved_agent_matches_request (engine : JsArray.Engine)
  (userAgent : UserAgent) (allCbtDevices : list CbtDevice)
  (cbtUserAgent : CbtUserAgent) :
  getMatchingCbtUserAgent_ engine userAgent allCbtDevices = Some (Some cbtUserAgent) ->
  device cbtUserAgent ∈ allCbtDevices /\
  browser cbtUserAgent ∈ dev_browsers (device cbtUserAgent) /\
  exists requiredFormFactors requiredOsVendors requiredBrowserVendors,
    formFactorMap (form_factor_type userAgent) = Some requiredFormFactors /\
    osVendorMap (os_vendor_type userAgent) = Some requiredOsVendors /\
    browserVendorMap (browser_vendor_type userAgent) = Some requiredBrowserVendors /\
    dev_device (device cbtUserAgent) ∈ requiredFormFactors /\
    dev_type (device cbtUserAgent) ∈ requiredOsVendors /\
    br_type (browser cbtUserAgent) ∈ requiredBrowserVendors.
Proof.
  intros H. apply getMatchingCbtUserAgent_elem in H as (matching & _ & Hm & _ & _ & Hc).
  apply (matchingCbtUserAgents_spec _ _ _ _ Hm) in Hc as (H1 & H2 & H3 & H4 & H5 & _).
  apply includes_true in H3 as (ff & E3 & H3).
  apply includes_true in H4 as (os & E4 & H4).
  apply includes_true in H5 as (bv & E5 & H5).
  split; [done|]. split; [done|]. by exists ff, os, bv.
Qed.

Lemma resolved_agent_matches_request_witness :
  device {| device := Sample.win10; browser := Sample.chrome64x64 |} ∈ Sample.catalog /\
  browser {| device := Sample.win10; browser := Sample.chrome64x64 |} ∈
    dev_browsers (device {| device := Sample.win10; browser := Sample.chrome64x64 |}) /\
  exists requiredFormFactors requiredOsVendors requiredBrowserVendors,
    formFactorMap DESKTOP = Some requiredFormFactors /\
    osVendorMap WINDOWS = Some requiredOsVendors /\
    browserVendorMap CHROME = Some requiredBrowserVendors /\
    dev_device (device {| device := Sample.win10; browser := Sample.chrome64x64 |}) ∈
      requiredFormFactors /\
    dev_type (device {| device := Sample.win10; browser := Sample.chrome64x64 |}) ∈
      requiredOsVendors /\
    br_type (browser {| device := Sample.win10; browser := Sample.chrome64x64 |}) ∈
      requiredBrowserVendors.
Proof.
  apply (resolved_agent_matches_request insertionEngine
           (Sample.chromeOnWindows LATEST "") Sample.catalog).
  by vm_compute.
Defined.

(** X13: a version compares equal to itself and a candidate to itself,
    whatever their texts are: [compareVersions] gives [+0] also for a
    version with segments that are not numeric or are infinite, and the
    comparator of the ranking is neither above nor below zero. *)
Theorem compareVersions_reflexive (version : string) (cbtUserAgent : CbtUserAgent) :
  compareVersions version version = Js.pzero /\
  Js.gt (rankCompare cbtUserAgent cbtUserAgent) Js.pzero = false /\
  Js.lt (rankCompare cbtUserAgent cbtUserAgent) Js.pzero = false.
Proof.
  assert (R : forall v, compareVersions v v = Js.pzero).
  { intros v. unfold compareVersions. by rewrite compareParsed_lexCompare, lexCompare_diag. }
  split; [apply R|]. unfold rankCompare. rewrite !R. simpl.
  destruct (sub_diag (dev_sort_order (device cbtUserAgent))) as [H|H].
  - by destruct (Js.sub _ _) as [[]|[]| |[]].
  - by rewrite H.
Qed.

(** X20: under the LATEST policy a candidate is returned as soon as one
    browser of the catalog qualifies: its device has a required form factor
    and operating system, it is of a required vendor, and no browser of the
    catalog has its API name followed by "x64". *)
Theorem latest_finds_qualifying_browser (engine : JsArray.Engine)
  (userAgent : UserAgent) (allCbtDevices : list CbtDevice)
  (requiredFormFactors requiredOsVendors requiredBrowserVendors : list string)
  (cbtDevice : CbtDevice) (cbtBrowser : CbtBrowser) :
  browser_version_type userAgent = LATEST ->
  formFactorMap (form_factor_type userAgent) = Some requiredFormFactors ->
  osVendorMap (os_vendor_type userAgent) = Some requiredOsVendors ->
  browserVendorMap (browser_vendor_type userAgent) = Some requiredBrowserVendors ->
  cbtDevice ∈ allCbtDevices ->
  cbtBrowser ∈ dev_browsers cbtDevice ->
  dev_device cbtDevice ∈ requiredFormFactors ->
  dev_type cbtDevice ∈ requiredOsVendors ->
  br_type cbtBrowser ∈ requiredBrowserVendors ->
  (forall d b, d ∈ allCbtDevices -> b ∈ dev_browsers d ->
     br_api_name b <> (br_api_name cbtBrowser +:+ "x64")%string) ->
  exists cbtUserAgent,
    getMatchingCbtUserAgent_ engine userAgent allCbtDevices = Some (Some cbtUserAgent).
Proof.
  intros E E1 E2 E3 Hd Hb H1 H2 H3 Hx.
  destruct (matchingCbtUserAgents userAgent allCbtDevices) as [matching|] eqn:Hm.
  - assert (Hc : {| device := cbtDevice; browser := cbtBrowser |} ∈ matching).
    { apply (matchingCbtUserAgents_spec _ _ _ _ Hm). simpl.
      rewrite E1, E2, E3. unfold includes. rewrite !bool_decide_true by done.
      repeat split; try done.
      intros Hn. apply allBrowserApiNames_spec in Hn as (d & b & Hd' & Hb' & Hn).
      by apply (Hx d b). }
    destruct (ranked_Some engine _ _ _ Hm) as [Hr Hp].
    unfold getMatchingCbtUserAgent_. rewrite Hr, E. simpl.
    rewrite <- Hp in Hc.
    destruct (rev (JsArray.sort engine rankCompare matching)) as [|c l]; [|by exists c].
    by apply elem_of_nil in Hc.
  - apply matchingCbtUserAgents_None in Hm. unfold consultsUndefined in Hm.
    rewrite E1 in Hm. destruct Hm as (d & _ & _ & Hm). rewrite E2 in Hm.
    destruct Hm as (_ & _ & Hm). congruence.
Qed.

Lemma latest_finds_qualifying_browser_witness :
  getMatchingCbtUserAgent_ insertionEngine (Sample.chromeOnWindows LATEST "")
                           [Sample.win7] =
    Some (Some {| device := Sample.win7; browser := Sample.chrome63 |}) /\
  exists cbtUserAgent,
    getMatchingCbtUserAgent_ insertionEngine (Sample.chromeOnWindows LATEST "")
                             [Sample.win7] = Some (Some cbtUserAgent).
Proof.
  split; [by vm_compute|].
  apply (latest_finds_qualifying_browser insertionEngine
           (Sample.chromeOnWindows LATEST "") [Sample.win7]
           ["desktop"%string] ["Windows"%string]
           ["Chrome"%string; "Chrome Mobile"%string]
           Sample.win7 Sample.chrome63).
  - reflexivity.
  - reflexivity.
  - reflexivity.
  - reflexivity.
  - by left.
  - by left.
  - by left.
  - by left.
  - by left.
  - intros d b Hd Hb. apply list_elem_of_singleton in Hd as ->.
    apply list_elem_of_singleton in Hb as ->. done.
Defined.

(* ===================================================================== *)
(** * Dotted decimal versions *)
(* ===================================================================== *)

Lemma is_digit_cases c :
  is_digit c = true ->
  c ∈ ["0"; "1"; "2"; "3"; "4"; "5"; "6"; "7"; "8"; "9"]%char.
Proof.
  unfold is_digit. intros H. apply andb_true_iff in H as [H1 H2].
  apply Nat.leb_le in H1, H2.
  rewrite <- (ascii_nat_embedding c).
  assert (Hn : exists k, k < 10 /\ nat_of_ascii c = 48 + k).
  { exists (nat_of_ascii c - 48). lia. }
  destruct Hn as (k & Hk & ->).
  do 10 (destruct k as [|k]; [vm_compute; set_solver|]). lia.
Qed.

Ltac by_digit c H :=
  let D := fresh "D" in
  pose proof (is_digit_cases c H) as D;
  repeat (apply elem_of_cons in D as [-> | D]; [try done|]);
  try (by apply elem_of_nil in D).

Lemma digit_value_digit c :
  is_digit c = true ->
  Js.digit_value 10 c = Some (Z.of_nat (nat_of_ascii c) - 48)%Z.
Proof. intros H. by_digit c H. Qed.

Lemma digits_from_digits seg : forall acc,
  Forall (fun c => is_digit c = true) seg ->
  Js.digits_from 10 acc seg = Some (decimalFrom acc seg).
Proof.
  induction seg as [|c seg IH]; intros acc H; [done|].
  inversion H as [|? ? Hc H']; subst. cbn [Js.digits_from decimalFrom].
  rewrite digit_value_digit by done. by apply IH.
Qed.

Lemma break_at_none (p : ascii -> bool) s :
  Forall (fun c => p c = false) s -> Js.break_at p s = (s, None).
Proof.
  induction 1 as [|c s Hc H IH]; [done|]. cbn [Js.break_at]. by rewrite Hc, IH.
Qed.

Lemma digit_not_ws c : is_digit c = true -> Js.is_ws c = false.
Proof. intros H. by_digit c H. Qed.

Lemma trim_digits seg : isDigits seg -> Js.trim seg = seg.
Proof.
  intros [Hne H]. unfold Js.trim.
  assert (D : forall l, l <> [] -> Forall (fun c => is_digit c = true) l ->
                        Js.drop_ws l = l).
  { intros [|c l] Hl Hd; [done|]. inversion Hd; subst. cbn [Js.drop_ws].
    by rewrite digit_not_ws. }
  rewrite (D seg) by done. rewrite D.
  - apply rev_involutive.
  - intros E. apply Hne. by rewrite <- (rev_involutive seg), E.
  - apply Forall_forall. intros c Hc. rewrite Forall_forall in H. apply H.
    apply list_elem_of_In, in_rev. by apply list_elem_of_In.
Qed.

Lemma decimalFrom_nonneg seg : forall acc,
  Forall (fun c => is_digit c = true) seg -> (0 <= acc)%Z -> (0 <= decimalFrom acc seg)%Z.
Proof.
  induction seg as [|c seg IH]; intros acc H Ha; [done|].
  inversion H as [|? ? Hc H']; subst. cbn [decimalFrom]. apply IH; [done|].
  unfold is_digit in Hc. apply andb_true_iff in Hc as [H1 H2].
  apply Nat.leb_le in H1, H2. lia.
Qed.

Lemma numeric_literal_digits seg :
  isDigits seg -> Js.numeric_literal seg = Js.unsigned_decimal seg.
Proof.
  intros [Hne H]. destruct seg as [|c seg]; [done|].
  inversion H as [|? ? Hc H']; subst. clear H Hne.
  by_digit c Hc.
  destruct seg as [|x seg]; [done|]. inversion H' as [|? ? Hx H'']; subst.
  unfold Js.numeric_literal. by_digit x Hx.
Qed.

Lemma unsigned_decimal_digits seg :
  isDigits seg ->
  Js.unsigned_decimal seg = Some (Js.of_Z (decimalValue seg)).
Proof.
  intros [Hne H]. unfold Js.unsigned_decimal.
  rewrite decide_False; cycle 1.
  { intros ->. inversion H as [|? ? Hc _]; subst. done. }
  rewrite break_at_none; cycle 1.
  { eapply Forall_impl; [exact H|]. intros c Hc. simpl in Hc. by_digit c Hc. }
  rewrite break_at_none; cycle 1.
  { eapply Forall_impl; [exact H|]. intros c Hc. simpl in Hc. by_digit c Hc. }
  destruct seg as [|c seg]; [done|]. rewrite app_nil_r.
  rewrite digits_from_digits by done. fold (decimalValue (c :: seg)).
  cbn [length Z.of_nat Z.opp]. unfold Js.of_decimal.
  pose proof (decimalFrom_nonneg (c :: seg) 0 H ltac:(lia)) as Hn.
  fold (decimalValue (c :: seg)) in Hn.
  destruct (Z.eqb_spec (decimalValue (c :: seg)) 0) as [-> | Hz]; [done|].
  cbn [Z.leb Z.compare]. by rewrite Z.pow_0_r, Z.mul_1_r.
Qed.

Lemma Number_digits seg : isDigits seg -> Js.Number seg = Js.of_Z (decimalValue seg).
Proof.
  intros H. unfold Js.Number. rewrite trim_digits by done.
  destruct seg as [|c seg]; [by destruct H|].
  by rewrite numeric_literal_digits, unsigned_decimal_digits.
Qed.

Lemma plain_not_letter a c :
  plainChar c -> a ∈ [" "; "W"; "X"; "V"; "M"; "O"]%char -> char_eq true a c = false.
Proof.
  intros Hc Ha.
  repeat (apply elem_of_cons in Ha as [-> | Ha];
          [destruct Hc as [Hc| ->]; [by_digit c Hc|done]|]).
  by apply elem_of_nil in Ha.
Qed.

Lemma ci_eqb_plain a p t :
  a ∈ [" "; "W"; "X"; "V"; "M"; "O"]%char -> Forall plainChar t ->
  ci_eqb (a :: p) t = false.
Proof.
  intros Ha Ht. destruct t as [|c t]; [done|]. inversion Ht; subst.
  cbn [ci_eqb]. by rewrite plain_not_letter.
Qed.

Lemma stripSuffix_plain a p s :
  a ∈ [" "; "W"; "X"; "V"; "M"; "O"]%char -> Forall plainChar s ->
  stripSuffix (a :: p) s = s.
Proof.
  intros Ha Hs. unfold stripSuffix, stripSuffixBy.
  rewrite ci_eqb_plain by (done || by apply Forall_drop). by rewrite andb_false_r.
Qed.

Lemma servicePack_plain s :
  Forall plainChar s -> stripSuffixBy 15 isServicePack s = s.
Proof.
  intros Hs. unfold stripSuffixBy, isServicePack.
  change (chars " Service Pack ") with (" "%char :: chars "Service Pack ").
  rewrite ci_eqb_plain; [by rewrite andb_false_r|set_solver|].
  by apply Forall_take, Forall_drop.
Qed.

Lemma mapPrefix_plain alts repl s :
  Forall (fun p => exists a p', p = a :: p' /\ a ∈ [" "; "W"; "X"; "V"; "M"; "O"]%char) alts ->
  Forall plainChar s -> mapPrefix alts repl s = s.
Proof.
  intros Ha Hs. unfold mapPrefix.
  assert (F : List.find (fun p => starts_with_ci p s) alts = None).
  { induction Ha as [|p alts (a & p' & -> & Hp) Ha IH]; [done|]. cbn [List.find].
    unfold starts_with_ci at 1. rewrite ci_eqb_plain; [done|done|by apply Forall_take]. }
  by rewrite F.
Qed.

Lemma letter_space : " "%char ∈ [" "; "W"; "X"; "V"; "M"; "O"]%char.
Proof. by left. Qed.

Lemma normalize_plain s :
  Forall plainChar s -> Pipeline.normalize sourceMacPrefixes s = stripZeroGroups s.
Proof.
  intros Hs. unfold Pipeline.normalize. cbv zeta.
  change (chars " 64-bit") with (" "%char :: chars "64-bit").
  change (chars " Beta") with (" "%char :: chars "Beta").
  change (chars " Preview") with (" "%char :: chars "Preview").
  change (chars " Home") with (" "%char :: chars "Home").
  rewrite !(stripSuffix_plain " " _ s letter_space Hs).
  rewrite servicePack_plain by done.
  assert (L : forall alts : list (list ascii),
    Forall (fun p => match p with
                     | a :: _ => bool_decide (a ∈ [" "; "W"; "X"; "V"; "M"; "O"]%char)
                     | [] => false
                     end = true) alts ->
    Forall (fun p => exists a p', p = a :: p' /\ a ∈ [" "; "W"; "X"; "V"; "M"; "O"]%char) alts).
  { intros alts Ha. eapply Forall_impl; [exact Ha|]. intros [|a p] H; [done|].
    apply bool_decide_eq_true in H. by exists a, p. }
  assert (L' : forall alts repl,
    forallb (fun p => match p with
                      | a :: _ => bool_decide (a ∈ [" "; "W"; "X"; "V"; "M"; "O"]%char)
                      | [] => false
                      end) alts = true ->
    mapPrefix alts repl s = s).
  { intros alts repl H. apply mapPrefix_plain; [|done]. apply L.
    apply Forall_forall. intros p Hp. rewrite forallb_forall in H. apply H.
    by apply list_elem_of_In. }
  rewrite !L' by (by vm_compute). done.
Qed.

Lemma stripZeroGroups_group s z : stripZeroGroups (s ++ group z) = stripZeroGroups s.
Proof.
  unfold stripZeroGroups.
  rewrite (strip_firstGood (length s) s) by done.
  rewrite length_app. cbn [group length]. rewrite Nat.add_succ_r. cbn [stripGroups].
  rewrite zeroGroup_snoc. apply strip_firstGood. lia.
Qed.

Lemma stripZeroGroups_id s : zeroGroup (rev s) false = None -> stripZeroGroups s = s.
Proof.
  intros H. unfold stripZeroGroups. destruct s as [|c s]; [done|].
  cbn [length stripGroups]. rewrite H. apply rev_involutive.
Qed.

Lemma isZeros_replicate seg :
  isZeros seg = true -> seg = replicate (length seg) "0"%char.
Proof.
  induction seg as [|c seg IH]; [done|]. cbn [isZeros forallb]. intros H.
  apply andb_true_iff in H as [H1 H2]. apply Ascii.eqb_eq in H1. subst c.
  cbn [length replicate]. f_equal. by apply IH.
Qed.

(** Reading a segment of digits from its end: zeros lead on, another
    digit is no part of a zero group. *)
Lemma zeroGroup_digits seg : forall r seen,
  Forall (fun c => is_digit c = true) seg ->
  zeroGroup (rev seg ++ r) seen =
  if isZeros seg then zeroGroup r (seen || negb (bool_decide (seg = []))) else None.
Proof.
  induction seg as [|c seg IH] using rev_ind; intros r seen H.
  - cbn. by rewrite orb_false_r.
  - apply Forall_app in H as [H Hc]. inversion Hc as [|? ? Hc' _]; subst.
    rewrite rev_app_distr. cbn [rev app zeroGroup].
    unfold isZeros. rewrite forallb_app. cbn [forallb]. rewrite andb_true_r.
    fold (isZeros seg). rewrite (Ascii.eqb_sym c "0").
    destruct (Ascii.eqb_spec "0" c) as [<- | Hne].
    + rewrite IH by done. rewrite andb_true_r. destruct (isZeros seg); [|done].
      rewrite (bool_decide_false (seg ++ _ = [])) by (by destruct seg).
      by rewrite orb_true_r.
    + rewrite andb_false_r. by_digit c Hc'.
Qed.

Lemma dotted_snoc first rest seg :
  dotted first (rest ++ [seg]) = dotted first rest ++ "."%char :: seg.
Proof.
  revert first. induction rest as [|a rest IH]; intros first; [done|].
  cbn [dotted app]. by rewrite IH, <- app_assoc.
Qed.

Lemma dropZeroSegments_snoc rest seg :
  dropZeroSegments (rest ++ [seg]) =
  if isZeros seg then dropZeroSegments rest else rest ++ [seg].
Proof.
  induction rest as [|a rest IH]; cbn [app dropZeroSegments].
  - by destruct (isZeros seg).
  - rewrite IH. destruct (isZeros seg); [done|]. by destruct rest.
Qed.

Lemma dropZeroSegments_Forall (P : list ascii -> Prop) rest :
  Forall P rest -> Forall P (dropZeroSegments rest).
Proof.
  induction 1 as [|a rest Ha H IH]; cbn [dropZeroSegments]; [done|].
  destruct (dropZeroSegments rest).
  - destruct (isZeros a); by repeat constructor.
  - by constructor.
Qed.

Lemma stripZeroGroups_dotted first rest :
  isDigits first -> Forall isDigits rest ->
  stripZeroGroups (dotted first rest) = dotted first (dropZeroSegments rest).
Proof.
  intros [Hne Hf]. induction rest as [|seg rest IH] using rev_ind; intros H.
  - cbn [dotted dropZeroSegments]. apply stripZeroGroups_id.
    pose proof (zeroGroup_digits first [] false Hf) as Z. rewrite app_nil_r in Z.
    rewrite Z. by destruct (isZeros first).
  - apply Forall_app in H as [H Hs]. inversion Hs as [|? ? [Hsne Hsd] _]; subst.
    rewrite dotted_snoc, dropZeroSegments_snoc.
    destruct (isZeros seg) eqn:Ez.
    + apply isZeros_replicate in Ez. destruct seg as [|c seg]; [done|].
      cbn [length replicate] in Ez. rewrite Ez.
      change ("."%char :: "0"%char :: replicate (length seg) "0"%char)
        with (group (length seg)).
      rewrite stripZeroGroups_group. by apply IH.
    + rewrite <- dotted_snoc. apply stripZeroGroups_id. rewrite dotted_snoc.
      rewrite rev_app_distr. cbn [rev]. rewrite <- app_assoc.
      rewrite zeroGroup_digits by done. by rewrite Ez.
Qed.

Lemma split_plain seg :
  Forall (fun c => is_digit c = true) seg -> split "." seg = [seg].
Proof.
  induction 1 as [|c seg Hc H IH]; [done|]. cbn [split]. rewrite IH.
  by_digit c Hc.
Qed.

Lemma split_dotted first rest :
  isDigits first -> Forall isDigits rest ->
  split "." (dotted first rest) = first :: rest.
Proof.
  intros Hf H. revert first Hf.
  induction H as [|seg rest Hs H IH]; intros first [_ Hf]; cbn [dotted].
  - by apply split_plain.
  - induction Hf as [|c first Hc Hf IH2]; cbn [app split].
    + change (Ascii.eqb "." ".") with true. cbn. by rewrite IH.
    + rewrite IH2. by_digit c Hc.
Qed.

Lemma plain_dotted first rest :
  isDigits first -> Forall isDigits rest -> Forall plainChar (dotted first rest).
Proof.
  intros Hf H. revert first Hf.
  induction H as [|seg rest Hs H IH]; intros first [_ Hf]; cbn [dotted].
  - eapply Forall_impl; [exact Hf|]. intros c Hc. by left.
  - apply Forall_app. split.
    + eapply Forall_impl; [exact Hf|]. intros c Hc. by left.
    + constructor; [by right|]. by apply IH.
Qed.

(** X14: a version written as segments of decimal digits joined by dots
    parses to the values of its segments, without the segments of zeros at
    its end (the first segment always stays). *)
Theorem parseVersionNumber_dotted_decimal (first : list ascii)
  (rest : list (list ascii)) :
  isDigits first -> Forall isDigits rest ->
  parseVersionNumber (string_of_list_ascii (dotted first rest)) =
  map (fun seg => Js.of_Z (decimalValue seg)) (first :: dropZeroSegments rest).
Proof.
  intros Hf H. unfold parseVersionNumber. cbv zeta. unfold chars.
  rewrite list_ascii_of_string_of_list_ascii.
  rewrite normalizeVersion_described, normalize_plain by (by apply plain_dotted).
  rewrite stripZeroGroups_dotted by done.
  pose proof (dropZeroSegments_Forall isDigits rest H) as H'.
  rewrite split_dotted by done.
  apply map_ext_Forall. constructor; [by apply Number_digits|].
  eapply Forall_impl; [exact H'|]. intros seg Hs. by apply Number_digits.
Qed.

Lemma parseVersionNumber_dotted_decimal_witness :
  string_of_list_ascii (dotted (chars "64") [chars "0"; chars "3282"; chars "00"; chars "0"]) =
    "64.0.3282.00.0"%string /\
  map (fun seg => Js.of_Z (decimalValue seg))
      (chars "64" :: dropZeroSegments [chars "0"; chars "3282"; chars "00"; chars "0"]) =
    map Js.of_Z [64; 0; 3282]%Z /\
  parseVersionNumber
    (string_of_list_ascii
       (dotted (chars "64") [chars "0"; chars "3282"; chars "00"; chars "0"])) =
  map (fun seg => Js.of_Z (decimalValue seg))
      (chars "64" :: dropZeroSegments [chars "0"; chars "3282"; chars "00"; chars "0"]).
Proof.
  split; [reflexivity|]. split; [reflexivity|].
  apply parseVersionNumber_dotted_decimal.
  - split; [done|]. by repeat constructor.
  - repeat constructor; done.
Defined.

Lemma ci_eqb_lookup p : forall y i a,
  ci_eqb p y = true -> p !! i = Some a ->
  exists c, y !! i = Some c /\ char_eq true a c = true.
Proof.
  induction p as [|b p IH]; intros [|d y] i a H Hi; try done.
  cbn [ci_eqb] in H. apply andb_true_iff in H as [H1 H2].
  destruct i as [|i]; simpl in Hi.
  - injection Hi as <-. by exists d.
  - by apply (IH y i a).
Qed.

Lemma last_lookup_length {A} (l : list A) : last l = l !! (length l - 1).
Proof.
  induction l as [|x l IH]; [done|]. destruct l as [|y l]; [done|].
  cbn [last length] in *. rewrite IH. simpl. by rewrite Nat.sub_0_r.
Qed.

Lemma ci_eqb_last p y a c :
  ci_eqb p y = true -> last p = Some a -> last y = Some c -> char_eq true a c = true.
Proof.
  intros H Hp Hy. rewrite last_lookup_length in Hp, Hy.
  destruct (ci_eqb_lookup p y _ a H Hp) as (c' & Hc' & E).
  rewrite (ci_eqb_length p y H) in Hy. congruence.
Qed.

Lemma last_drop_lt {A} (l : list A) n : n < length l -> last (drop n l) = last l.
Proof.
  intros H. rewrite !last_lookup_length, lookup_drop, length_drop. f_equal. lia.
Qed.

Lemma stripSuffix_mismatch p x a c :
  last p = Some a -> last x = Some c -> char_eq true a c = false ->
  stripSuffix p x = x.
Proof.
  intros Hp Hx E. unfold stripSuffix, stripSuffixBy.
  destruct (Nat.leb_spec (length p) (length x)) as [L|L]; [|done]. cbn [andb].
  destruct (ci_eqb p (drop (length x - length p) x)) eqn:H; [|done]. exfalso.
  assert (Hn : 0 < length p) by (destruct p; [done|simpl; lia]).
  rewrite (ci_eqb_last p _ a c H Hp) in E; [done|].
  rewrite last_drop_lt by lia. done.
Qed.

Lemma stripSuffix_exact p u : ci_eqb p p = true -> stripSuffix p (u ++ p) = u.
Proof.
  intros H. unfold stripSuffix, stripSuffixBy. rewrite length_app.
  replace (length u + length p - length p) with (length u) by lia.
  rewrite drop_app_length, take_app_length, H.
  by rewrite (proj2 (Nat.leb_le _ _)) by lia.
Qed.

Lemma servicePack_noK x : noK x -> stripSuffixBy 15 isServicePack x = x.
Proof.
  intros Hx. unfold stripSuffixBy.
  destruct (isServicePack (drop (length x - 15) x)) eqn:H; [|by rewrite andb_false_r].
  exfalso. unfold isServicePack in H. apply andb_true_iff in H as [H _].
  destruct (ci_eqb_lookup _ _ 12 "k"%char H eq_refl) as (c & Hc & E).
  assert (Hin : c ∈ x).
  { apply list_elem_of_lookup_2 in Hc.
    by apply (subseteq_drop (length x - 15) x), (subseteq_take 14). }
  unfold noK in Hx. rewrite Forall_forall in Hx. rewrite (Hx c Hin) in E. done.
Qed.

Lemma servicePack_exact u d :
  is_digit d = true ->
  stripSuffixBy 15 isServicePack (u ++ chars " Service Pack " ++ [d]) = u.
Proof.
  intros Hd. unfold stripSuffixBy. rewrite !length_app.
  change (length (chars " Service Pack ") + length [d]) with 15.
  replace (length u + 15 - 15) with (length u) by lia.
  rewrite drop_app_length, take_app_length.
  rewrite (proj2 (Nat.leb_le _ _)) by lia. cbn [andb].
  unfold isServicePack. cbn. by rewrite Hd.
Qed.

Lemma last_app_cons_eq {A} (u : list A) a v : last (u ++ a :: v) = last (a :: v).
Proof.
  induction u as [|x u IH]; [done|].
  change ((x :: u) ++ a :: v) with (x :: (u ++ a :: v)).
  destruct (u ++ a :: v) eqn:E; [by destruct u|]. exact IH.
Qed.

Lemma stripSuffix_other p u b v a c :
  last p = Some a -> last (b :: v) = Some c -> char_eq true a c = false ->
  stripSuffix p (u ++ b :: v) = u ++ b :: v.
Proof.
  intros Hp Hv E. apply (stripSuffix_mismatch p _ a c); [done| |done].
  by rewrite last_app_cons_eq.
Qed.

Lemma stripSuffix_digit p u a c :
  last p = Some a -> a ∈ ["t"; "a"; "w"; "e"]%char ->
  last u = Some c -> is_digit c = true ->
  stripSuffix p u = u.
Proof.
  intros Hp Ha Hu Hc. apply (stripSuffix_mismatch p u a c); [done|done|].
  repeat (apply elem_of_cons in Ha as [-> | Ha]; [by_digit c Hc|]).
  by apply elem_of_nil in Ha.
Qed.

Lemma plain_noK s : Forall plainChar s -> noK s.
Proof.
  intros H. eapply Forall_impl; [exact H|].
  intros c [Hc| ->]; [by_digit c Hc|done].
Qed.

Lemma dotted_head first rest :
  isDigits first ->
  exists c t, is_digit c = true /\ dotted first rest = c :: t.
Proof.
  intros [Hne Hf]. destruct first as [|c first]; [done|]. inversion Hf; subst.
  destruct rest as [|seg rest]; cbn [dotted app]; eauto.
Qed.

Lemma dotted_last first rest :
  isDigits first -> Forall isDigits rest ->
  exists c, is_digit c = true /\ last (dotted first rest) = Some c.
Proof.
  intros Hf H. revert first Hf.
  induction H as [|seg rest Hs H IH]; intros first [Hne Hf]; cbn [dotted].
  - destruct (last first) as [c|] eqn:E.
    + exists c. split; [|done]. rewrite Forall_forall in Hf. apply Hf.
      rewrite last_lookup_length in E. by apply list_elem_of_lookup_2 in E.
    + by apply last_None in E.
  - destruct (IH seg Hs) as (c & Hc & E). exists c. split; [done|].
    rewrite last_app_cons_eq.
    destruct (dotted_head seg rest Hs) as (d & t & _ & Ed). by rewrite Ed in *.
Qed.

Ltac strip_suffixes u Hu Hc :=
  repeat match goal with
  | |- context [stripSuffix ?p (u ++ ?p)] =>
      rewrite (stripSuffix_exact p u) by reflexivity
  | |- context [stripSuffix ?p (u ++ ?b :: ?v)] =>
      rewrite (stripSuffix_other p u b v _ _ eq_refl eq_refl eq_refl)
  | |- context [stripSuffix ?p u] =>
      rewrite (stripSuffix_digit p u _ _ eq_refl ltac:(set_solver) Hu Hc)
  end.

Lemma suffixes_stripped u c suf :
  last u = Some c -> is_digit c = true -> noK u -> suf ∈ editionSuffixes ->
  stripSuffixBy 15 isServicePack
    (stripSuffix (chars " Home")
       (stripSuffix (chars " Preview")
          (stripSuffix (chars " Beta")
             (stripSuffix (chars " 64-bit") (u ++ chars suf))))) = u.
Proof.
  intros Hu Hc Hk Hs. unfold editionSuffixes in Hs.
  apply elem_of_cons in Hs as [-> | Hs].
  { change (chars "") with (@nil ascii). rewrite app_nil_r.
    unfold chars. cbn [list_ascii_of_string].
    strip_suffixes u Hu Hc. by apply servicePack_noK. }
  do 4 (apply elem_of_cons in Hs as [-> | Hs];
        [unfold chars; cbn [list_ascii_of_string];
         strip_suffixes u Hu Hc; by apply servicePack_noK|]).
  repeat (apply elem_of_cons in Hs as [-> | Hs];
          [unfold chars; cbn [list_ascii_of_string];
           strip_suffixes u Hu Hc;
           match goal with
           | |- context [u ++ ?v] =>
               exact (servicePack_exact u (List.last v "0"%char) eq_refl)
           end|]).
  by apply elem_of_nil in Hs.
Qed.

Lemma prefixes_stripped pre c t :
  pre ∈ vendorPrefixes -> is_digit c = true ->
  mapPrefix sourceMacPrefixes []
    (mapPrefix [chars "Windows"; chars "Win"] []
       (mapPrefix [chars "Windows Vista"; chars "Vista"] (chars "6.0")
          (mapPrefix [chars "Windows XP"; chars "XP"] (chars "5.1")
             (chars pre ++ c :: t)))) = c :: t.
Proof.
  intros Hp Hc. unfold vendorPrefixes in Hp.
  repeat (apply elem_of_cons in Hp as [-> | Hp]; [by_digit c Hc; reflexivity|]).
  by apply elem_of_nil in Hp.
Qed.

Lemma vendorPrefix_noK pre : pre ∈ vendorPrefixes -> noK (chars pre).
Proof.
  intros Hp. unfold vendorPrefixes in Hp.
  repeat (apply elem_of_cons in Hp as [-> | Hp]; [by repeat constructor|]).
  by apply elem_of_nil in Hp.
Qed.

(** X21: a vendor name in front of a dotted decimal version and an edition
    name behind it do not change what the version parses to: "Windows 10",
    "Win10 64-bit" and "10" parse alike, and so do "Mac OSX 10.13 Beta" and
    "10.13". *)
Theorem parseVersionNumber_ignores_decoration (pre suf : string)
  (first : list ascii) (rest : list (list ascii)) :
  pre ∈ vendorPrefixes -> suf ∈ editionSuffixes ->
  isDigits first -> Forall isDigits rest ->
  parseVersionNumber
    (string_of_list_ascii (chars pre ++ dotted first rest ++ chars suf)) =
  parseVersionNumber (string_of_list_ascii (dotted first rest)).
Proof.
  intros Hp Hs Hf H. unfold parseVersionNumber. cbv zeta. unfold chars at 1 4.
  rewrite !list_ascii_of_string_of_list_ascii.
  rewrite !normalizeVersion_described.
  rewrite (normalize_plain (dotted first rest)) by (by apply plain_dotted).
  do 2 f_equal. unfold Pipeline.normalize. cbv zeta. f_equal.
  destruct (dotted_head first rest Hf) as (c & t & Hc & E).
  destruct (dotted_last first rest Hf H) as (d & Hd & L).
  pose proof (plain_noK _ (plain_dotted first rest Hf H)) as K.
  rewrite E in *. rewrite app_assoc.
  rewrite (suffixes_stripped (chars pre ++ c :: t) d suf).
  - by apply prefixes_stripped.
  - by rewrite last_app_cons_eq.
  - done.
  - apply Forall_app. split; [by apply vendorPrefix_noK|done].
  - done.
Qed.

Lemma parseVersionNumber_ignores_decoration_witness :
  string_of_list_ascii
    (chars "Mac OSX " ++ dotted (chars "10") [chars "13"] ++ chars " Beta") =
    "Mac OSX 10.13 Beta"%string /\
  parseVersionNumber
    (string_of_list_ascii
       (chars "Mac OSX " ++ dotted (chars "10") [chars "13"] ++ chars " Beta")) =
  parseVersionNumber (string_of_list_ascii (dotted (chars "10") [chars "13"])).
Proof.
  split; [reflexivity|].
  apply parseVersionNumber_ignores_decoration.
  - unfold vendorPrefixes. set_solver.
  - unfold editionSuffixes. set_solver.
  - split; [done|]. by repeat constructor.
  - repeat constructor; done.
Defined.

(* ===================================================================== *)
(** * Integers as Numbers *)
(* ===================================================================== *)

Lemma iter_pos_nat {A} (f : A -> A) (d : positive) : forall x,
  SpecFloat.iter_pos f d x = Nat.iter (Pos.to_nat d) f x.
Proof.
  induction d as [d IH|d IH|]; intros x; cbn [SpecFloat.iter_pos].
  - rewrite !IH, Pos2Nat.inj_xI, <- Nat.iter_succ_r, <- Nat.iter_add.
    f_equal. lia.
  - rewrite !IH, Pos2Nat.inj_xO, <- Nat.iter_add. f_equal. lia.
  - done.
Qed.

Lemma Pos_iter_scaled p d : Pos.iter xO p d = scaled p (Pos.to_nat d).
Proof. unfold scaled. by rewrite Pos2Nat.inj_iter. Qed.

Lemma scaled_add p n m : scaled (scaled p n) m = scaled p (m + n).
Proof. unfold scaled. by rewrite Nat.iter_add. Qed.

Lemma scaled_Z p n : Z.pos (scaled p n) = (Z.pos p * 2 ^ Z.of_nat n)%Z.
Proof.
  unfold scaled. induction n as [|n IH]; [simpl; lia|].
  rewrite Nat2Z.inj_succ, Z.pow_succ_r by lia. simpl Nat.iter.
  rewrite Pos2Z.inj_xO, IH. lia.
Qed.

Lemma width2_scaled p n : width2 (scaled p n) = width2 p + n.
Proof.
  unfold width2, scaled. induction n as [|n IH]; simpl; [lia|].
  rewrite Pos2Nat.inj_succ, IH. lia.
Qed.

Lemma width2_pos p : 0 < width2 p.
Proof. unfold width2. lia. Qed.

Lemma digits_width2 p : Z.pos (digits2_pos p) = Z.of_nat (width2 p).
Proof. unfold width2. by rewrite positive_nat_Z. Qed.

Lemma width2_bound p : forall n, (Z.pos p < 2 ^ Z.of_nat n)%Z -> width2 p <= n.
Proof.
  unfold width2. induction p as [p IH|p IH|]; intros n H; simpl.
  - destruct n as [|n]; [simpl in H; lia|].
    rewrite Nat2Z.inj_succ, Z.pow_succ_r in H by lia.
    rewrite Pos2Nat.inj_succ. specialize (IH n). lia.
  - destruct n as [|n]; [simpl in H; lia|].
    rewrite Nat2Z.inj_succ, Z.pow_succ_r in H by lia.
    rewrite Pos2Nat.inj_succ. specialize (IH n). lia.
  - destruct n as [|n]; [simpl in H; lia|]. lia.
Qed.

Lemma shr_scaled q n :
  Nat.iter n shr_1 {| shr_m := Z.pos (scaled q n); shr_r := false; shr_s := false |} =
  {| shr_m := Z.pos q; shr_r := false; shr_s := false |}.
Proof.
  induction n as [|n IH]; [done|].
  rewrite Nat.iter_succ_r. unfold scaled. simpl Nat.iter at 2. simpl shr_1. apply IH.
Qed.

Lemma fexp_small e : (-52 <= e - 53)%Z -> fexp Js.prec Js.emax e = (e - 53)%Z.
Proof. intros He. unfold fexp, emin, Js.prec, Js.emax. lia. Qed.

(** A mantissa of 53 digits is not shifted. *)
Lemma shr_fexp_full m e :
  width2 m = 53 -> (-1074 <= e)%Z ->
  shr_fexp Js.prec Js.emax (Z.pos m) e loc_Exact =
  ({| shr_m := Z.pos m; shr_r := false; shr_s := false |}, e).
Proof.
  intros Hm He. unfold shr_fexp. cbn [Zdigits2]. rewrite digits_width2, Hm.
  assert (F : fexp Js.prec Js.emax (Z.of_nat 53 + e) = e).
  { unfold fexp, emin, Js.prec, Js.emax. lia. }
  by rewrite F, Z.sub_diag.
Qed.

(** A mantissa with more than 53 digits, the ones past the 53rd all zero,
    is shifted to 53 digits, exactly. *)
Lemma shr_fexp_scaled p k :
  width2 p <= 53 -> 53 - width2 p <= k ->
  shr_fexp Js.prec Js.emax (Z.pos (scaled p k)) (- Z.of_nat k) loc_Exact =
  ({| shr_m := Z.pos (scaled p (53 - width2 p)); shr_r := false; shr_s := false |},
   Z.of_nat (width2 p) - 53)%Z.
Proof.
  intros Hw Hk. pose proof (width2_pos p) as Hp.
  unfold shr_fexp. cbn [Zdigits2]. rewrite digits_width2, width2_scaled.
  rewrite fexp_small by lia. unfold shr.
  destruct (Z.of_nat (width2 p + k) + - Z.of_nat k - 53 - - Z.of_nat k)%Z as [|d|d] eqn:Ed.
  - assert (k = 53 - width2 p) as -> by lia. cbn [shr_record_of_loc]. f_equal. lia.
  - rewrite iter_pos_nat. cbn [shr_record_of_loc].
    assert (Hk' : k = Pos.to_nat d + (53 - width2 p)) by lia.
    rewrite Hk' at 1. rewrite <- scaled_add, shr_scaled. f_equal. lia.
  - lia.
Qed.

Lemma binary_round_aux_full s m e :
  width2 m = 53 -> (-1074 <= e <= 971)%Z ->
  binary_round_aux Js.prec Js.emax s (Z.pos m) e loc_Exact = S754_finite s m e.
Proof.
  intros Hm He. unfold binary_round_aux. rewrite shr_fexp_full by (done || lia).
  cbn [shr_m loc_of_shr_record round_nearest_even]. rewrite shr_fexp_full by (done || lia).
  cbn [shr_m]. unfold Js.emax, Js.prec.
  by rewrite (proj2 (Z.leb_le e (1024 - 53))) by lia.
Qed.

(** Rounding [p * 2^k * 2^(-k)], which needs no more than 53 digits, gives
    the 53 digit form of [p]. *)
Lemma binary_round_scaled s p k :
  width2 p <= 53 ->
  binary_round Js.prec Js.emax s (scaled p k) (- Z.of_nat k) =
  S754_finite s (scaled p (53 - width2 p)) (Z.of_nat (width2 p) - 53).
Proof.
  intros Hw. pose proof (width2_pos p) as Hp.
  unfold binary_round. rewrite digits_width2, width2_scaled.
  rewrite fexp_small by lia.
  unfold shl_align.
  destruct (Z.of_nat (width2 p + k) + - Z.of_nat k - 53 - - Z.of_nat k)%Z as [|d|d] eqn:Ed.
  - assert (k = 53 - width2 p) as -> by lia.
    rewrite binary_round_aux_full; [f_equal; lia| |lia]. rewrite width2_scaled. lia.
  - unfold binary_round_aux. rewrite shr_fexp_scaled by lia.
    cbn [shr_m loc_of_shr_record round_nearest_even].
    rewrite shr_fexp_full; [|rewrite width2_scaled; lia|lia].
    cbn [shr_m]. unfold Js.emax, Js.prec.
    by rewrite (proj2 (Z.leb_le (Z.of_nat (width2 p) - 53) (1024 - 53))) by lia.
  - rewrite Pos_iter_scaled, scaled_add.
    replace (Pos.to_nat d + k) with (53 - width2 p) by lia.
    rewrite binary_round_aux_full; [f_equal; lia| |lia]. rewrite width2_scaled. lia.
Qed.

Lemma width2_safe p : (Z.pos p < 2 ^ 53)%Z -> width2 p <= 53.
Proof. intros H. by apply (width2_bound p 53). Qed.

Lemma of_Z_signed s p :
  width2 p <= 53 ->
  binary_round Js.prec Js.emax s p 0 =
  S754_finite s (scaled p (53 - width2 p)) (Z.of_nat (width2 p) - 53).
Proof. intros H. by apply (binary_round_scaled s p 0). Qed.

Lemma shl_align_scaled p t T :
  t <= T ->
  fst (shl_align (scaled p t) (- Z.of_nat t) (- Z.of_nat T)) = scaled p T.
Proof.
  intros H. unfold shl_align.
  destruct (- Z.of_nat T - - Z.of_nat t)%Z as [|d|d] eqn:Ed; simpl.
  - f_equal. lia.
  - lia.
  - rewrite Pos_iter_scaled, scaled_add. f_equal. lia.
Qed.

(** The difference of two integers up to 2^53 is exact. *)
Lemma sub_of_Z a b :
  (0 <= a < 2 ^ 53)%Z -> (0 <= b < 2 ^ 53)%Z ->
  Js.sub (Js.of_Z a) (Js.of_Z b) = Js.of_Z (a - b).
Proof.
  intros Ha Hb. unfold Js.of_Z, Js.sub.
  destruct a as [|pa|pa], b as [|pb|pb]; try lia; try done.
  - change (0 - Z.pos pb)%Z with (Z.neg pb). cbn [binary_normalize].
    rewrite !of_Z_signed by (apply width2_safe; lia). done.
  - change (Z.pos pa - 0)%Z with (Z.pos pa). cbn [binary_normalize].
    rewrite !of_Z_signed by (apply width2_safe; lia). done.
  - cbn [binary_normalize].
    pose proof (width2_safe pa ltac:(lia)) as Wa.
    pose proof (width2_safe pb ltac:(lia)) as Wb.
    pose proof (width2_pos pa) as Pa. pose proof (width2_pos pb) as Pb.
    rewrite !of_Z_signed by done. unfold SFsub.
    set (T := 53 - Nat.min (width2 pa) (width2 pb)).
    replace (Z.min (Z.of_nat (width2 pa) - 53) (Z.of_nat (width2 pb) - 53))
      with (- Z.of_nat T)%Z by (unfold T; lia).
    replace (Z.of_nat (width2 pa) - 53)%Z with (- Z.of_nat (53 - width2 pa))%Z by lia.
    replace (Z.of_nat (width2 pb) - 53)%Z with (- Z.of_nat (53 - width2 pb))%Z by lia.
    rewrite !shl_align_scaled by (unfold T; lia).
    cbn [cond_Zopp]. rewrite !scaled_Z, <- Z.mul_sub_distr_r.
    destruct (Z.pos pa - Z.pos pb)%Z as [|pc|pc] eqn:Ec.
    + done.
    + rewrite <- scaled_Z. cbn [binary_normalize].
      rewrite binary_round_scaled by (apply width2_safe; lia).
      rewrite of_Z_signed by (apply width2_safe; lia). done.
    + replace (Z.neg pc * 2 ^ Z.of_nat T)%Z with (- (Z.pos pc * 2 ^ Z.of_nat T))%Z by lia.
      rewrite <- scaled_Z.
      change (- Z.pos (scaled pc T))%Z with (Z.neg (scaled pc T)). cbn [binary_normalize].
      rewrite binary_round_scaled by (apply width2_safe; lia).
      rewrite of_Z_signed by (apply width2_safe; lia). done.
Qed.

Lemma of_Z_sign d :
  safeInteger d ->
  Js.lt (Js.of_Z d) Js.pzero = (d <? 0)%Z /\
  Js.gt (Js.of_Z d) Js.pzero = (0 <? d)%Z /\
  Js.strict_ne (Js.of_Z d) Js.pzero = negb (d =? 0)%Z /\
  Js.or (Js.of_Z d) Js.pzero = Js.of_Z d.
Proof.
  intros [H1 H2]. unfold Js.of_Z. destruct d as [|p|p]; [done| |].
  - cbn [binary_normalize]. rewrite of_Z_signed by (apply width2_safe; lia). done.
  - cbn [binary_normalize]. rewrite of_Z_signed by (apply width2_safe; lia). done.
Qed.

Lemma firstDelta_of_Z d rest :
  safeInteger d ->
  firstDelta (Js.of_Z d) rest = if (d =? 0)%Z then rest else Js.of_Z d.
Proof.
  intros H. destruct (of_Z_sign d H) as (_ & _ & H1 & H2).
  unfold firstDelta. rewrite H1, H2. by destruct (d =? 0)%Z.
Qed.

Lemma orZero_of_Z d : safeInteger d -> orZero (Js.of_Z d) = Js.of_Z d.
Proof. intros H. by destruct (of_Z_sign d H) as (_ & _ & _ & H2). Qed.

Lemma safeSegment_safeInteger z : safeSegment z -> safeInteger z.
Proof. unfold safeSegment, safeInteger. lia. Qed.

Lemma sub_zero_of_Z y : safeSegment y -> Js.sub Js.pzero (Js.of_Z y) = Js.of_Z (- y).
Proof. intros H. change Js.pzero with (Js.of_Z 0). rewrite sub_of_Z; [done|done|done]. Qed.

Lemma sub_of_Z_zero x : safeSegment x -> Js.sub (Js.of_Z x) Js.pzero = Js.of_Z x.
Proof.
  intros H. change Js.pzero with (Js.of_Z 0). rewrite sub_of_Z; [|done|done].
  f_equal. lia.
Qed.

Lemma lexRight_of_Z l2 :
  Forall safeSegment l2 -> lexRight (map Js.of_Z l2) = Js.of_Z (firstNegated l2).
Proof.
  induction 1 as [|y l2 Hy H IH]; [done|]. cbn [lexRight map firstNegated].
  rewrite sub_zero_of_Z, firstDelta_of_Z, IH by (done || (unfold safeSegment, safeInteger in *; lia)).
  destruct (Z.eqb_spec (- y) 0), (Z.eqb_spec y 0); try done; lia.
Qed.

Lemma lexCompare_of_Z l1 : forall l2,
  Forall safeSegment l1 -> Forall safeSegment l2 ->
  lexCompare (map Js.of_Z l1) (map Js.of_Z l2) = Js.of_Z (firstDifference l1 l2).
Proof.
  induction l1 as [|x l1 IH]; intros l2 H1 H2.
  - by apply lexRight_of_Z.
  - inversion H1 as [|? ? Hx H1']; subst.
    destruct l2 as [|y l2]; cbn [lexCompare map firstDifference].
    + rewrite orZero_of_Z, sub_of_Z_zero, firstDelta_of_Z
        by (done || by apply safeSegment_safeInteger).
      pose proof (IH [] H1' H2) as IH'. cbn [map] in IH'. rewrite IH'.
      by destruct (x =? 0)%Z.
    + inversion H2 as [|? ? Hy H2']; subst.
      rewrite !orZero_of_Z, sub_of_Z, firstDelta_of_Z
        by (done || (unfold safeSegment, safeInteger in *; lia)).
      rewrite (IH l2 H1' H2').
      destruct (Z.eqb_spec (x - y) 0), (Z.eqb_spec x y); try done; lia.
Qed.

Lemma firstNegated_safe l2 : Forall safeSegment l2 -> safeInteger (firstNegated l2).
Proof.
  induction 1 as [|y l2 Hy H IH]; simpl; [unfold safeInteger; lia|].
  destruct (y =? 0)%Z; [done|]. unfold safeSegment, safeInteger in *. lia.
Qed.

Lemma firstDifference_safe l1 : forall l2,
  Forall safeSegment l1 -> Forall safeSegment l2 -> safeInteger (firstDifference l1 l2).
Proof.
  induction l1 as [|x l1 IH]; intros l2 H1 H2; [by apply firstNegated_safe|].
  inversion H1 as [|? ? Hx H1']; subst. destruct l2 as [|y l2]; simpl.
  - destruct (x =? 0)%Z; [by apply IH|by apply safeSegment_safeInteger].
  - inversion H2 as [|? ? Hy H2']; subst.
    destruct (x =? y)%Z; [by apply IH|]. unfold safeSegment, safeInteger in *. lia.
Qed.

(** X15: on versions whose segments are integers from 0 up to 2^53,
    [compareVersions] is the first difference of the segments, the shorter
    version padded with zeros: it is negative exactly when the first version
    is the lower one, positive exactly when it is the higher one, and [+0]
    when the two do not differ. *)
Theorem compareVersions_first_difference (version1 version2 : string)
  (segments1 segments2 : list Z) :
  parseVersionNumber version1 = map Js.of_Z segments1 ->
  parseVersionNumber version2 = map Js.of_Z segments2 ->
  Forall safeSegment segments1 ->
  Forall safeSegment segments2 ->
  compareVersions version1 version2 = Js.of_Z (firstDifference segments1 segments2) /\
  Js.lt (compareVersions version1 version2) Js.pzero =
    (firstDifference segments1 segments2 <? 0)%Z /\
  Js.gt (compareVersions version1 version2) Js.pzero =
    (0 <? firstDifference segments1 segments2)%Z.
Proof.
  intros E1 E2 H1 H2.
  assert (E : compareVersions version1 version2 =
              Js.of_Z (firstDifference segments1 segments2)).
  { unfold compareVersions. rewrite E1, E2, compareParsed_lexCompare.
    by apply lexCompare_of_Z. }
  rewrite E.
  destruct (of_Z_sign _ (firstDifference_safe _ _ H1 H2)) as (L & G & _ & _).
  done.
Qed.

Lemma compareVersions_first_difference_witness :
  firstDifference [63; 0; 3239; 132]%Z [64; 0; 3282]%Z = (-1)%Z /\
  compareVersions "63.0.3239.132" "64.0.3282 64-bit" =
    Js.of_Z (firstDifference [63; 0; 3239; 132]%Z [64; 0; 3282]%Z) /\
  Js.lt (compareVersions "63.0.3239.132" "64.0.3282 64-bit") Js.pzero =
    (firstDifference [63; 0; 3239; 132]%Z [64; 0; 3282]%Z <? 0)%Z /\
  Js.gt (compareVersions "63.0.3239.132" "64.0.3282 64-bit") Js.pzero =
    (0 <? firstDifference [63; 0; 3239; 132]%Z [64; 0; 3282]%Z)%Z.
Proof.
  split; [reflexivity|].
  apply (compareVersions_first_difference "63.0.3239.132" "64.0.3282 64-bit").
  - by vm_compute.
  - by vm_compute.
  - repeat constructor; unfold safeSegment; lia.
  - repeat constructor; unfold safeSegment; lia.
Defined.

(* ===================================================================== *)
(** * The ranking under integer versions *)
(* ===================================================================== *)

Lemma firstNegated_spec l2 :
  (firstNegated l2 = 0%Z /\ forall i, segmentAt l2 i = 0%Z) \/
  (exists i, (forall j, j < i -> segmentAt l2 j = 0%Z) /\ segmentAt l2 i <> 0%Z /\
             firstNegated l2 = (- segmentAt l2 i)%Z).
Proof.
  induction l2 as [|y l2 IH]; cbn [firstNegated].
  - left. split; [done|]. by intros [|i].
  - destruct (Z.eqb_spec y 0) as [-> | Hy].
    + destruct IH as [[E H]|(i & H1 & H2 & H3)].
      * left. split; [done|]. intros [|i]; [done|]. apply H.
      * right. exists (S i). split; [|done]. intros [|j] Hj; [done|]. apply H1. lia.
    + right. exists 0. split; [intros j Hj; lia|done].
Qed.

Lemma firstDifference_nil_r l1 :
  firstDifference l1 [] = (- firstNegated l1)%Z.
Proof.
  induction l1 as [|x l1 IH]; cbn [firstDifference firstNegated]; [done|].
  destruct (x =? 0)%Z; [done|lia].
Qed.

Lemma firstDifference_spec l1 : forall l2,
  (firstDifference l1 l2 = 0%Z /\ forall i, segmentAt l1 i = segmentAt l2 i) \/
  (exists i, (forall j, j < i -> segmentAt l1 j = segmentAt l2 j) /\
             segmentAt l1 i <> segmentAt l2 i /\
             firstDifference l1 l2 = (segmentAt l1 i - segmentAt l2 i)%Z).
Proof.
  assert (N : forall i, segmentAt [] i = 0%Z) by (by intros [|i]).
  induction l1 as [|x l1 IH]; intros l2.
  - cbn [firstDifference].
    destruct (firstNegated_spec l2) as [[E H]|(i & H1 & H2 & H3)].
    + left. split; [done|]. intros i. by rewrite N, H.
    + right. exists i. rewrite N. split; [|split; [congruence|lia]].
      intros j Hj. rewrite N. symmetry. by apply H1.
  - destruct l2 as [|y l2].
    + rewrite firstDifference_nil_r.
      destruct (firstNegated_spec (x :: l1)) as [[E H]|(i & H1 & H2 & H3)].
      * left. split; [lia|]. intros i. by rewrite N, H.
      * right. exists i. rewrite N. split; [|split; [congruence|lia]].
        intros j Hj. rewrite N. by apply H1.
    + cbn [firstDifference]. destruct (Z.eqb_spec x y) as [-> | Hxy].
      * destruct (IH l2) as [[E H]|(i & H1 & H2 & H3)].
        -- left. split; [done|]. intros [|i]; [done|]. apply H.
        -- right. exists (S i). split; [|done]. intros [|j] Hj; [done|]. apply H1. lia.
      * right. exists 0. split; [intros j Hj; lia|]. split; [done|done].
Qed.

(** The first difference is decided by the first index at which the
    segments differ. *)
Lemma firstDifference_at l1 l2 i :
  (forall j, j < i -> segmentAt l1 j = segmentAt l2 j) ->
  segmentAt l1 i <> segmentAt l2 i ->
  firstDifference l1 l2 = (segmentAt l1 i - segmentAt l2 i)%Z.
Proof.
  intros H1 H2. destruct (firstDifference_spec l1 l2) as [[E H]|(i' & H1' & H2' & H3')].
  - by specialize (H i).
  - destruct (Nat.lt_trichotomy i i') as [L|[->|L]]; [|done|].
    + by specialize (H1' i L).
    + by specialize (H1 i' L).
Qed.

Lemma firstDifference_same l1 l2 :
  (forall i, segmentAt l1 i = segmentAt l2 i) -> firstDifference l1 l2 = 0%Z.
Proof.
  intros H. destruct (firstDifference_spec l1 l2) as [[E _]|(i & _ & H2 & _)]; [done|].
  by specialize (H i).
Qed.

Lemma firstDifference_ordering : ordering firstDifference.
Proof.
  split.
  - intros l1 l2. destruct (firstDifference_spec l1 l2) as [[E H]|(i & H1 & H2 & H3)].
    + rewrite E. rewrite firstDifference_same; [done|]. intros i. by rewrite H.
    + rewrite H3. rewrite (firstDifference_at l2 l1 i); [lia| |congruence].
      intros j Hj. symmetry. by apply H1.
  - intros l1 l2 l3 H12 H23.
    destruct (firstDifference_spec l1 l2) as [[E12 S12]|(i & A1 & A2 & A3)];
      destruct (firstDifference_spec l2 l3) as [[E23 S23]|(j & B1 & B2 & B3)].
    + rewrite firstDifference_same; [done|]. intros i. by rewrite S12.
    + rewrite (firstDifference_at l1 l3 j).
      * rewrite S12. lia.
      * intros k Hk. rewrite S12. by apply B1.
      * by rewrite S12.
    + rewrite (firstDifference_at l1 l3 i).
      * rewrite <- S23. lia.
      * intros k Hk. rewrite <- S23. by apply A1.
      * by rewrite <- S23.
    + destruct (Nat.lt_trichotomy i j) as [L|[->|L]].
      * rewrite (firstDifference_at l1 l3 i).
        -- rewrite <- (B1 i L). lia.
        -- intros k Hk. rewrite (A1 k Hk). apply B1. lia.
        -- by rewrite <- (B1 i L).
      * rewrite (firstDifference_at l1 l3 j).
        -- lia.
        -- intros k Hk. rewrite (A1 k Hk). by apply B1.
        -- lia.
      * rewrite (firstDifference_at l1 l3 j).
        -- rewrite (A1 j L). lia.
        -- intros k Hk. rewrite A1 by lia. by apply B1.
        -- by rewrite (A1 j L).
Qed.

Lemma ordering_orElse {A} (s1 s2 : A -> A -> Z) :
  ordering s1 -> ordering s2 -> ordering (fun x y => orElse (s1 x y) (s2 x y)).
Proof.
  intros O1 O2. pose proof O1 as [Ho1 Ht1]. pose proof O2 as [Ho2 Ht2]. split.
  - intros x y. unfold orElse. rewrite Ho1, Ho2.
    destruct (Z.eqb_spec (s1 x y) 0), (Z.eqb_spec (- s1 x y) 0); lia.
  - intros x y z. unfold orElse.
    destruct (Z.eqb_spec (s1 x y) 0) as [Exy|Exy];
      destruct (Z.eqb_spec (s1 y z) 0) as [Eyz|Eyz]; intros Hxy Hyz.
    + assert (Exz : s1 x z = 0%Z).
      { pose proof (Ht1 x y z ltac:(lia) ltac:(lia)).
        pose proof (Ht1 z y x ltac:(rewrite Ho1; lia) ltac:(rewrite Ho1; lia)) as H'.
        rewrite Ho1 in H'. lia. }
      rewrite Exz. cbn. by apply (Ht2 x y z).
    + assert (Hxz : (0 <= s1 x z)%Z) by (apply (Ht1 x y z); lia).
      destruct (Z.eqb_spec (s1 x z) 0) as [Exz|Exz]; [|done]. exfalso.
      assert (H : (0 <= s1 z y)%Z).
      { apply (Ht1 z x y); [rewrite Ho1; lia|lia]. }
      rewrite Ho1 in H. lia.
    + assert (Hxz : (0 <= s1 x z)%Z) by (apply (Ht1 x y z); lia).
      destruct (Z.eqb_spec (s1 x z) 0) as [Exz|Exz]; [|done]. exfalso.
      assert (H : (0 <= s1 y x)%Z).
      { apply (Ht1 y z x); [lia|rewrite Ho1; lia]. }
      rewrite Ho1 in H. lia.
    + assert (Hxz : (0 <= s1 x z)%Z) by (apply (Ht1 x y z); lia).
      destruct (Z.eqb_spec (s1 x z) 0) as [Exz|Exz]; [|done]. exfalso.
      assert (H : (0 <= s1 z y)%Z).
      { apply (Ht1 z x y); [rewrite Ho1; lia|lia]. }
      rewrite Ho1 in H. lia.
Qed.

Lemma rankDifference_ordering : ordering rankDifference.
Proof.
  unfold rankDifference.
  apply (ordering_orElse
           (fun k1 k2 => orElse (firstDifference (key_device_version k1) (key_device_version k2))
                                (firstDifference (key_browser_version k1) (key_browser_version k2)))
           (fun k1 k2 => (key_sort_order k1 - key_sort_order k2)%Z)).
  - apply (ordering_orElse
             (fun k1 k2 => firstDifference (key_device_version k1) (key_device_version k2))
             (fun k1 k2 => firstDifference (key_browser_version k1) (key_browser_version k2))).
    + destruct firstDifference_ordering as [Ho Ht]. split; intros; [apply Ho|].
      by apply (Ht _ (key_device_version y)).
    + destruct firstDifference_ordering as [Ho Ht]. split; intros; [apply Ho|].
      by apply (Ht _ (key_browser_version y)).
  - split; intros; lia.
Qed.

Lemma of_Z_truthy d : safeInteger d -> Js.truthy (Js.of_Z d) = negb (d =? 0)%Z.
Proof.
  intros [H1 H2]. unfold Js.of_Z. destruct d as [|p|p]; [done| |].
  - cbn [binary_normalize]. rewrite of_Z_signed by (apply width2_safe; lia). done.
  - cbn [binary_normalize]. rewrite of_Z_signed by (apply width2_safe; lia). done.
Qed.

Lemma or_of_Z a b : safeInteger a -> Js.or (Js.of_Z a) (Js.of_Z b) = Js.of_Z (orElse a b).
Proof.
  intros H. unfold Js.or, orElse. rewrite of_Z_truthy by done. by destruct (a =? 0)%Z.
Qed.

Lemma orElse_safe a b : safeInteger a -> safeInteger b -> safeInteger (orElse a b).
Proof. intros Ha Hb. unfold orElse. by destruct (a =? 0)%Z. Qed.

Lemma rankDifference_safe k1 k2 :
  Forall safeSegment (key_device_version k1) -> Forall safeSegment (key_device_version k2) ->
  Forall safeSegment (key_browser_version k1) -> Forall safeSegment (key_browser_version k2) ->
  safeSegment (key_sort_order k1) -> safeSegment (key_sort_order k2) ->
  safeInteger (rankDifference k1 k2).
Proof.
  intros D1 D2 B1 B2 S1 S2. unfold rankDifference.
  repeat apply orElse_safe; try by apply firstDifference_safe.
  unfold safeSegment, safeInteger in *. lia.
Qed.

(** On candidates with integer ranks the comparator of the ranking is the
    difference of the ranks. *)
Lemma rankCompare_rankDifference p q kp kq :
  hasRank p kp -> hasRank q kq ->
  rankCompare p q = Js.of_Z (rankDifference kp kq) /\ safeInteger (rankDifference kp kq).
Proof.
  intros (Dp & SDp & Bp & SBp & Op & SOp) (Dq & SDq & Bq & SBq & Oq & SOq).
  split; [|by apply rankDifference_safe].
  unfold rankCompare, compareVersions, rankDifference.
  rewrite Dp, Dq, Bp, Bq, Op, Oq, !compareParsed_lexCompare.
  rewrite !lexCompare_of_Z by done. rewrite sub_of_Z by done.
  rewrite !or_of_Z; [done| |].
  - apply orElse_safe; by apply firstDifference_safe.
  - by apply firstDifference_safe.
Qed.

Lemma of_Z_not_nan d : safeInteger d -> Js.is_nan (Js.of_Z d) = false.
Proof.
  intros [H1 H2]. unfold Js.of_Z. destruct d as [|p|p]; [done| |].
  - cbn [binary_normalize]. rewrite of_Z_signed by (apply width2_safe; lia). done.
  - cbn [binary_normalize]. rewrite of_Z_signed by (apply width2_safe; lia). done.
Qed.

(** The comparator of the ranking is a consistent one on candidates with
    integer ranks. *)
Lemma rankCompare_consistent (rank : CbtUserAgent -> RankKey) (l : list CbtUserAgent) :
  (forall c, c ∈ l -> hasRank c (rank c)) -> JsArray.consistent rankCompare l.
Proof.
  intros Hrank.
  assert (D : forall a b, a ∈ l -> b ∈ l ->
    Js.is_nan (rankCompare a b) = false /\
    (JsArray.ltCF rankCompare a b <-> (rankDifference (rank a) (rank b) < 0)%Z) /\
    (JsArray.eqCF rankCompare a b <-> rankDifference (rank a) (rank b) = 0%Z) /\
    (JsArray.gtCF rankCompare a b <-> (0 < rankDifference (rank a) (rank b))%Z)).
  { intros a b Ha Hb.
    destruct (rankCompare_rankDifference a b _ _ (Hrank a Ha) (Hrank b Hb)) as [E S].
    destruct (of_Z_sign _ S) as (L & G & N & _).
    unfold JsArray.ltCF, JsArray.eqCF, JsArray.gtCF. rewrite E, L, G.
    split; [by apply of_Z_not_nan|]. split; [apply Z.ltb_lt|]. split; [|apply Z.ltb_lt].
    unfold Js.strict_ne in N. apply (f_equal negb) in N. rewrite !negb_involutive in N.
    rewrite N. apply Z.eqb_eq. }
  pose proof (ordering_opp _ rankDifference_ordering) as Opp.
  pose proof (ordering_trans _ rankDifference_ordering) as Trans.
  split.
  - intros a b Ha Hb. by destruct (D a b Ha Hb).
  - intros a Ha. apply (D a a Ha Ha). specialize (Opp (rank a) (rank a)). lia.
  - intros a b Ha Hb H. apply (D a b Ha Hb) in H. apply (D b a Hb Ha).
    rewrite (Opp (rank a) (rank b)). lia.
  - intros a b c Ha Hb Hc H1 H2.
    apply (D a b Ha Hb) in H1. apply (D b c Hb Hc) in H2. apply (D a c Ha Hc).
    pose proof (Trans (rank a) (rank b) (rank c) ltac:(lia) ltac:(lia)).
    pose proof (Trans (rank c) (rank b) (rank a)
                  ltac:(rewrite (Opp (rank b) (rank c)); lia)
                  ltac:(rewrite (Opp (rank a) (rank b)); lia)) as H'.
    rewrite (Opp (rank a) (rank c)) in H'. lia.
  - intros a b c Ha Hb Hc H1 H2.
    apply (D a b Ha Hb) in H1. apply (D b c Hb Hc) in H2. apply (D a c Ha Hc).
    destruct (Z.lt_ge_cases (rankDifference (rank a) (rank c)) 0%Z) as [?|G]; [done|].
    pose proof (Trans (rank a) (rank c) (rank b) G
                  ltac:(rewrite (Opp (rank b) (rank c)); lia)). lia.
  - intros a b c Ha Hb Hc H1 H2.
    apply (D a b Ha Hb) in H1. apply (D b c Hb Hc) in H2. apply (D a c Ha Hc).
    pose proof (Trans (rank a) (rank b) (rank c) ltac:(lia) ltac:(lia)) as G.
    destruct (Z.eq_dec (rankDifference (rank a) (rank c)) 0%Z) as [E|?]; [|lia].
    pose proof (Trans (rank c) (rank a) (rank b)
                  ltac:(rewrite (Opp (rank a) (rank c)); lia) ltac:(lia)) as H'.
    rewrite (Opp (rank b) (rank c)) in H'. lia.
Qed.

(** On candidates with integer ranks every engine leaves the ranked list in
    descending order. *)
Lemma ranked_sorted (engine : JsArray.Engine) (rank : CbtUserAgent -> RankKey)
  (matching : list CbtUserAgent) :
  (forall c, c ∈ matching -> hasRank c (rank c)) ->
  forall i j p q, i <= j ->
    rev (JsArray.sort engine rankCompare matching) !! i = Some p ->
    rev (JsArray.sort engine rankCompare matching) !! j = Some q ->
    Js.lt (rankCompare p q) Js.pzero = false /\
    (0 <= rankDifference (rank p) (rank q))%Z.
Proof.
  intros Hrank i j p q Hij Hp Hq.
  set (s := JsArray.sort engine rankCompare matching) in *.
  assert (Hin : forall c, c ∈ rev s -> c ∈ matching).
  { intros c Hc. apply list_elem_of_In, in_rev, list_elem_of_In in Hc.
    unfold s in Hc. by rewrite JsArray.sort_permutation in Hc. }
  assert (Mp : p ∈ matching) by (apply Hin; by apply list_elem_of_lookup_2 in Hp).
  assert (Mq : q ∈ matching) by (apply Hin; by apply list_elem_of_lookup_2 in Hq).
  destruct (rankCompare_rankDifference p q _ _ (Hrank p Mp) (Hrank q Mq)) as [E Hs].
  destruct (of_Z_sign _ Hs) as (L & _).
  assert (H : Js.lt (rankCompare p q) Js.pzero = false).
  { pose proof (lookup_lt_Some _ _ _ Hp) as Li. pose proof (lookup_lt_Some _ _ _ Hq) as Lj.
    rewrite length_rev in Li, Lj.
    rewrite rev_lookup in Hp, Hq by done.
    destruct (decide (i = j)) as [-> | Hne].
    - assert (p = q) as -> by congruence.
      pose proof (rankCompare_consistent rank matching Hrank) as Hc.
      pose proof (JsArray.consistent_refl _ _ Hc q Mq) as R.
      unfold JsArray.eqCF, Js.strict_eq in R. unfold Js.lt.
      by destruct (SFcompare (rankCompare q q) Js.pzero) as [[]|].
    - apply (JsArray.sort_ascending engine _ rankCompare matching
               (rankCompare_consistent rank matching Hrank)
               (length s - S j) (length s - S i) q p); [lia|done|done]. }
  split; [done|]. rewrite E, L in H. by apply Z.ltb_ge in H.
Qed.

(** The candidates of the sample catalog have the ranks [Sample.rank]. *)
Lemma Sample_ranks c :
  c ∈ [ {| device := Sample.win7; browser := Sample.chrome63 |};
        {| device := Sample.win10; browser := Sample.chrome63 |};
        {| device := Sample.win10; browser := Sample.chrome64x64 |} ] ->
  hasRank c (Sample.rank c).
Proof.
  intros Hc.
  repeat (apply elem_of_cons in Hc as [-> | Hc];
          [unfold hasRank;
           repeat match goal with
                  | |- _ /\ _ => split
                  | |- Forall safeSegment ?l =>
                      let l' := eval vm_compute in l in
                      change (Forall safeSegment l'); repeat constructor;
                      unfold safeSegment; lia
                  | |- safeSegment ?z =>
                      let z' := eval vm_compute in z in
                      change (safeSegment z'); unfold safeSegment; lia
                  | |- _ = _ => vm_compute; reflexivity
                  end|]).
  by apply elem_of_nil in Hc.
Qed.

(** X16: when the versions of the candidates are made of integer segments
    and the sort orders are integers (from 0 up to 2^53), the ranked list is
    sorted, whatever engine sorts it: a candidate ranks at least as high as
    every candidate after it, by device version, then browser version, then
    sort order; so LATEST gives a candidate no other candidate outranks. *)
Theorem ranking_is_sorted (engine : JsArray.Engine) (userAgent : UserAgent)
  (allCbtDevices : list CbtDevice) (rank : CbtUserAgent -> RankKey)
  (matching : list CbtUserAgent) :
  matchingCbtUserAgents userAgent allCbtDevices = Some matching ->
  (forall c, c ∈ matching -> hasRank c (rank c)) ->
  exists ranked,
    rankedCbtUserAgents engine userAgent allCbtDevices = Some ranked /\
    (forall i j p q, i <= j ->
       ranked !! i = Some p -> ranked !! j = Some q ->
       (0 <= rankDifference (rank p) (rank q))%Z) /\
    (browser_version_type userAgent = LATEST ->
     forall p q,
       getMatchingCbtUserAgent_ engine userAgent allCbtDevices = Some (Some p) ->
       q ∈ matching ->
       (0 <= rankDifference (rank p) (rank q))%Z).
Proof.
  intros Hm Hrank. destruct (ranked_Some engine _ _ _ Hm) as [Hr Hp].
  exists (rev (JsArray.sort engine rankCompare matching)). split; [done|].
  assert (Sorted : forall i j p q, i <= j ->
     rev (JsArray.sort engine rankCompare matching) !! i = Some p ->
     rev (JsArray.sort engine rankCompare matching) !! j = Some q ->
     (0 <= rankDifference (rank p) (rank q))%Z).
  { intros i j p q Hij Hi Hj. by apply (ranked_sorted engine rank matching Hrank i j). }
  split; [done|].
  intros E p q Hres Hq. unfold getMatchingCbtUserAgent_ in Hres.
  rewrite Hr, E in Hres. simpl in Hres. injection Hres as Hres.
  rewrite <- Hp in Hq. apply list_elem_of_lookup_1 in Hq as [j Hj].
  apply (Sorted 0 j); [lia|done|done].
Qed.

Lemma ranking_is_sorted_witness :
  rankDifference (Sample.rank {| device := Sample.win10; browser := Sample.chrome64x64 |})
                 (Sample.rank {| device := Sample.win7; browser := Sample.chrome63 |}) = 3%Z /\
  exists ranked,
    rankedCbtUserAgents insertionEngine (Sample.chromeOnWindows LATEST "")
                        Sample.catalog = Some ranked /\
    (forall i j p q, i <= j ->
       ranked !! i = Some p -> ranked !! j = Some q ->
       (0 <= rankDifference (Sample.rank p) (Sample.rank q))%Z) /\
    (browser_version_type (Sample.chromeOnWindows LATEST "") = LATEST ->
     forall p q,
       getMatchingCbtUserAgent_ insertionEngine (Sample.chromeOnWindows LATEST "")
                                Sample.catalog = Some (Some p) ->
       q ∈ [ {| device := Sample.win7; browser := Sample.chrome63 |};
             {| device := Sample.win10; browser := Sample.chrome63 |};
             {| device := Sample.win10; browser := Sample.chrome64x64 |} ] ->
       (0 <= rankDifference (Sample.rank p) (Sample.rank q))%Z).
Proof.
  split; [reflexivity|].
  apply (ranking_is_sorted insertionEngine (Sample.chromeOnWindows LATEST "")
           Sample.catalog Sample.rank).
  - by vm_compute.
  - apply Sample_ranks.
Defined.




(* ===================================================================== *)
(** * Fetching the catalog and configuring a web driver *)
(* ===================================================================== *)

Section ClientFacts.
Import CbtClient.
Variable engine : JsArray.Engine.
Variable username authkey : option string.
Variable respond : promise -> option (list CbtDevice).
Variable device_caps : CbtDevice -> gmap string CapValue.
Variable browser_caps : CbtBrowser -> gmap string CapValue.

Lemma fetchAvailableDevices_spec w :
  match allBrowsersPromise w with
  | Some p => fetchAvailableDevices username authkey w = (p, w)
  | None =>
      fetchAvailableDevices username authkey w =
      (length (sent w),
       {| allBrowsersPromise := Some (length (sent w));
          sent := sent w ++ [catalogRequest username authkey] |})
  end.
Proof. unfold fetchAvailableDevices. by destruct (allBrowsersPromise w). Qed.

Lemma configureWebDriver_world driverBuilder userAgent w :
  (configureWebDriver engine username authkey respond device_caps browser_caps
     driverBuilder userAgent w).2 =
  (fetchAvailableDevices username authkey w).2.
Proof.
  unfold configureWebDriver, getMatchingCbtUserAgent_.
  destruct (fetchAvailableDevices username authkey w) as [p w1]. simpl.
  destruct (respond p) as [devices|]; [|done].
  by destruct (CbtApi.getMatchingCbtUserAgent_ engine userAgent devices) as [[c|]|].
Qed.

Lemma caps_fold (m : gmap string CapValue) driverBuilder :
  server (map_fold (fun key value caps => caps_set key value caps) driverBuilder m) =
    server driverBuilder /\
  capabilities (map_fold (fun key value caps => caps_set key value caps) driverBuilder m) =
    m ∪ capabilities driverBuilder.
Proof.
  induction m as [|k v m Hk Hfold IH] using map_first_key_ind.
  - rewrite map_fold_empty. split; [done|]. by rewrite (left_id_L ∅ (∪)).
  - rewrite map_fold_insert_first_key by done. simpl.
    destruct IH as [IH1 IH2]. split; [done|].
    rewrite IH2. by rewrite insert_union_l.
Qed.

End ClientFacts.

(** X17: the catalog is requested at most once in a process: whatever
    calls of [fetchAvailableDevices] and [configureWebDriver] are made from
    the start, either nothing was sent and no promise is kept, or exactly
    the one GET request for the catalog was sent and its promise is kept;
    a call made once the promise is kept returns that promise, also when it
    has rejected, and leaves the state as it is. *)
Theorem catalog_requested_once (engine : JsArray.Engine)
  (username authkey : option string)
  (respond : CbtClient.promise -> option (list CbtDevice))
  (device_caps : CbtDevice -> gmap string CbtClient.CapValue)
  (browser_caps : CbtBrowser -> gmap string CbtClient.CapValue)
  (w : CbtClient.World) :
  reaches engine username authkey respond device_caps browser_caps freshWorld w ->
  (w = freshWorld \/
   w = {| CbtClient.allBrowsersPromise := Some 0;
          CbtClient.sent := [catalogRequest username authkey] |}) /\
  (forall p, CbtClient.allBrowsersPromise w = Some p ->
     CbtClient.fetchAvailableDevices username authkey w = (p, w) /\
     forall driverBuilder userAgent,
       (CbtClient.configureWebDriver engine username authkey respond device_caps
          browser_caps driverBuilder userAgent w).2 = w).
Proof.
  intros H. split.
  - induction H as [|w H IH|w b ua H IH]; [by left| |].
    + pose proof (fetchAvailableDevices_spec username authkey w) as F.
      destruct IH as [-> | ->]; simpl in F; rewrite F; [by right|by right].
    + rewrite configureWebDriver_world.
      pose proof (fetchAvailableDevices_spec username authkey w) as F.
      destruct IH as [-> | ->]; simpl in F; rewrite F; [by right|by right].
  - intros p Hp.
    pose proof (fetchAvailableDevices_spec username authkey w) as F. rewrite Hp in F.
    split; [done|]. intros b ua. by rewrite configureWebDriver_world, F.
Qed.

Lemma catalog_requested_once_witness :
  CbtClient.sent
    (CbtClient.configureWebDriver insertionEngine (Some "me"%string) None
       (fun _ => Some Sample.catalog)
       Sample.deviceCaps Sample.browserCaps Sample.builder
       (Sample.chromeOnWindows PREVIOUS "")
       (CbtClient.fetchAvailableDevices (Some "me"%string) None freshWorld).2).2 =
    [catalogRequest (Some "me"%string) None] /\
  ((CbtClient.configureWebDriver insertionEngine (Some "me"%string) None
       (fun _ => Some Sample.catalog)
       Sample.deviceCaps Sample.browserCaps Sample.builder
       (Sample.chromeOnWindows PREVIOUS "")
       (CbtClient.fetchAvailableDevices (Some "me"%string) None freshWorld).2).2 = freshWorld \/
   (CbtClient.configureWebDriver insertionEngine (Some "me"%string) None
       (fun _ => Some Sample.catalog)
       Sample.deviceCaps Sample.browserCaps Sample.builder
       (Sample.chromeOnWindows PREVIOUS "")
       (CbtClient.fetchAvailableDevices (Some "me"%string) None freshWorld).2).2 =
   {| CbtClient.allBrowsersPromise := Some 0;
      CbtClient.sent := [catalogRequest (Some "me"%string) None] |}).
Proof.
  split; [by vm_compute|].
  apply (catalog_requested_once insertionEngine (Some "me"%string) None
           (fun _ => Some Sample.catalog) Sample.deviceCaps Sample.browserCaps).
  apply reaches_configure, reaches_fetch, reaches_start.
Defined.

(** X18: when the catalog arrives and a candidate matches, the promise
    fulfils, the builder points at the Selenium server, and its capabilities
    are, in this order of precedence: the capabilities of the browser of the
    candidate, those of its device, [record_video] and [record_network] set
    to [true], and the capabilities the builder had; a capability named
    "__proto__" is not copied. *)
Theorem configureWebDriver_capabilities (engine : JsArray.Engine)
  (username authkey : option string)
  (respond : CbtClient.promise -> option (list CbtDevice))
  (device_caps : CbtDevice -> gmap string CbtClient.CapValue)
  (browser_caps : CbtBrowser -> gmap string CbtClient.CapValue)
  (driverBuilder : CbtClient.Builder) (userAgent : UserAgent) (w : CbtClient.World)
  (allCbtDevices : list CbtDevice) (matchingCbtUserAgent : CbtUserAgent) :
  respond (CbtClient.fetchAvailableDevices username authkey w).1 = Some allCbtDevices ->
  CbtApi.getMatchingCbtUserAgent_ engine userAgent allCbtDevices =
    Some (Some matchingCbtUserAgent) ->
  let '(settled, driverBuilder', _) :=
    CbtClient.configureWebDriver engine username authkey respond device_caps
      browser_caps driverBuilder userAgent w in
  settled = Some tt /\
  CbtClient.server driverBuilder' =
    Some (CbtClient.SELENIUM_SERVER_URL username authkey) /\
  CbtClient.capabilities driverBuilder' =
    delete "__proto__"%string (browser_caps (browser matchingCbtUserAgent)) ∪
    (delete "__proto__"%string (device_caps (device matchingCbtUserAgent)) ∪
     (<["record_network"%string := CbtClient.CapBool true]>
        (<["record_video"%string := CbtClient.CapBool true]>
           (CbtClient.capabilities driverBuilder)))).
Proof.
  intros Hr Hm. unfold CbtClient.configureWebDriver, CbtClient.getMatchingCbtUserAgent_.
  destruct (CbtClient.fetchAvailableDevices username authkey w) as [p w1]. simpl in Hr.
  rewrite Hr, Hm.
  match goal with |- context [map_fold ?f ?b ?m] =>
    destruct (caps_fold m b) as [H1 H2] end.
  split; [done|]. split; [by rewrite H1|]. rewrite H2. simpl.
  unfold CbtClient.Object_assign. by rewrite (right_id_L ∅ (∪)), (assoc_L (∪)).
Qed.

Lemma configureWebDriver_capabilities_witness :
  let '(settled, driverBuilder', _) :=
    CbtClient.configureWebDriver insertionEngine (Some "me"%string) (Some "key"%string)
      (fun _ => Some Sample.catalog) Sample.deviceCaps Sample.browserCaps
      Sample.builder (Sample.chromeOnWindows LATEST "") freshWorld in
  settled = Some tt /\
  CbtClient.server driverBuilder' =
    Some (CbtClient.SELENIUM_SERVER_URL (Some "me"%string) (Some "key"%string)) /\
  CbtClient.capabilities driverBuilder' =
    delete "__proto__"%string
      (Sample.browserCaps
         (browser {| device := Sample.win10; browser := Sample.chrome64x64 |})) ∪
    (delete "__proto__"%string
       (Sample.deviceCaps
          (device {| device := Sample.win10; browser := Sample.chrome64x64 |})) ∪
     (<["record_network"%string := CbtClient.CapBool true]>
        (<["record_video"%string := CbtClient.CapBool true]>
           (CbtClient.capabilities Sample.builder)))).
Proof.
  apply (configureWebDriver_capabilities insertionEngine (Some "me"%string)
           (Some "key"%string)
           (fun _ => Some Sample.catalog) Sample.deviceCaps Sample.browserCaps
           Sample.builder (Sample.chromeOnWindows LATEST "") freshWorld Sample.catalog).
  - reflexivity.
  - by vm_compute.
Defined.

(** X19: when the catalog request rejects, or the resolution gives no
    candidate (it gives [undefined], and reading its device throws, or it
    throws itself), the promise rejects, and the builder is left half
    configured: it points at the Selenium server and has [record_video] and
    [record_network] set, and none of the capabilities of a device or a
    browser. *)
Theorem configureWebDriver_rejects_half_configured (engine : JsArray.Engine)
  (username authkey : option string)
  (respond : CbtClient.promise -> option (list CbtDevice))
  (device_caps : CbtDevice -> gmap string CbtClient.CapValue)
  (browser_caps : CbtBrowser -> gmap string CbtClient.CapValue)
  (driverBuilder : CbtClient.Builder) (userAgent : UserAgent) (w : CbtClient.World) :
  match respond (CbtClient.fetchAvailableDevices username authkey w).1 with
  | Some allCbtDevices =>
      CbtApi.getMatchingCbtUserAgent_ engine userAgent allCbtDevices = Some None \/
      CbtApi.getMatchingCbtUserAgent_ engine userAgent allCbtDevices = None
  | None => True
  end ->
  (CbtClient.configureWebDriver engine username authkey respond device_caps
     browser_caps driverBuilder userAgent w).1 =
  (None, preconfigured username authkey driverBuilder).
Proof.
  unfold CbtClient.configureWebDriver, CbtClient.getMatchingCbtUserAgent_.
  destruct (CbtClient.fetchAvailableDevices username authkey w) as [p w1]. simpl.
  destruct (respond p) as [devices|]; [|done]. by intros [-> | ->].
Qed.

Lemma configureWebDriver_rejects_half_configured_witness :
  CbtClient.capabilities (preconfigured (Some "me"%string) None Sample.builder)
    !! "record_video"%string = Some (CbtClient.CapBool true) /\
  (CbtClient.configureWebDriver insertionEngine (Some "me"%string) None
     (fun _ => Some [Sample.mac])
     Sample.deviceCaps Sample.browserCaps Sample.builder
     (Sample.chromeOnWindows PREVIOUS "") freshWorld).1 =
  (None, preconfigured (Some "me"%string) None Sample.builder).
Proof.
  split; [by vm_compute|].
  apply (configureWebDriver_rejects_half_configured insertionEngine (Some "me"%string)
           None (fun _ => Some [Sample.mac])).
  left. by vm_compute.
Defined.
